(** * Classic Checkers: rules engine and AI search

    A shallow embedding of [src/types.ts] and of the game logic
    ([logic.ts]: [getValidMoves], [hasAnyJumps], [cloneBoard],
    [simulateMove], [evaluateBoard], [minimax], [getAiMove],
    [initializeBoard]) and of the component of [App.tsx]: its state, the
    [validMoves] memo, the handlers [handleSquareClick], [executeMove],
    [checkWinCondition] and [resetGame], and the effect and timer that
    let the AI move.

    Conventions of the embedding.
    - A JavaScript [number] used as a coordinate, a depth or a score is an
      integer ([Z]); scores that may be [-Infinity] / [Infinity] are [num].
    - An array is the list of its elements.  A cell of type [Piece | null]
      is an [option Piece]: [None] stands for [null] and for [undefined]
      (the source only ever tests cells for truthiness).
    - Reading [a[i]] outside [0 .. length-1] yields [undefined]; reading a
      property of [undefined] / [null] throws a [TypeError], which the
      [result] monad records.
    - Writing [a[i] = v] inside the range replaces the element, beyond the
      end it extends the array (the gap reads back as [undefined]), and
      at a negative index it creates a property that is not an element:
      the element list is unchanged.  Such properties are not kept, so
      the embedding is exact for moves whose squares have no negative
      column, which the statements below require wherever a write to
      [move.to] matters; every generated move is of that kind.
    - [Math.random] is an oracle: [getAiMove] takes the index that the
      easy tier draws and the order that the shuffle leaves.
    - [minimax] is defined with fuel; [None] means that the fuel ran out.
      Section "[minimax] returns" shows how much fuel is enough. *)

From Stdlib Require Import ZArith Lia Bool List Permutation.
From stdpp Require Import base list.
Import ListNotations.

#[local] Open Scope Z_scope.

(** ** types.ts *)

Inductive Player := red | black.

Record Piece := mkPiece { player : Player; isKing : bool }.

Record Position := mkPos { row : Z; col : Z }.

Record Move := mkMove {
  from : Position;
  to : Position;
  isJump : bool;
  jumpedPiece : option Position
}.

Definition Row := list (option Piece).
Definition BoardState := list Row.

Inductive Difficulty := easy | medium | hard.

Definition Player_eqb (a b : Player) : bool :=
  match a, b with
  | red, red | black, black => true
  | _, _ => false
  end.

Definition Position_eqb (a b : Position) : bool :=
  (row a =? row b) && (col a =? col b).

(** [p === 'red' ? 'black' : 'red'] *)
Definition otherPlayer (p : Player) : Player :=
  match p with red => black | black => red end.

(** ** Exceptions *)

Inductive result (A : Type) : Type :=
| Ok (a : A)
| TypeError.
Arguments Ok {A} a.
Arguments TypeError {A}.

Definition bind {A B} (r : result A) (k : A -> result B) : result B :=
  match r with
  | Ok a => k a
  | TypeError => TypeError
  end.

Declare Scope js_scope.
Delimit Scope js_scope with js.
Notation "x <- e ;; k" := (bind e (fun x => k))
  (at level 100, e at next level, right associativity) : js_scope.
#[local] Open Scope js_scope.

(** ** Arrays *)

(** [a[i]] *)
Definition arr_get {A} (a : list A) (i : Z) : option A :=
  if i <? 0 then None else a !! Z.to_nat i.

(** [a[i] = v] on an array of nullable cells: a write past the end
    extends the array.  A write at a negative index, which in JavaScript
    adds a property to the array object that a later read of the same
    index returns, is left out here: it does not change the array, and
    [arr_get] reads [undefined] at every negative index.  The model is
    exact at the indices from 0 on. *)
Definition arr_set {A} (a : list (option A)) (i : Z) (v : option A)
  : list (option A) :=
  if i <? 0 then a
  else
    let n := Z.to_nat i in
    if (n <? length a)%nat then <[n := v]> a
    else a ++ replicate (n - length a) None ++ [v].

(** [board[r][c]]: throws when [board[r]] is undefined.  Stated for any
    kind of cell content, so that it also reads an array of references. *)
Definition cell {A} (board : list (list (option A))) (r c : Z)
  : result (option A) :=
  match arr_get board r with
  | None => TypeError
  | Some rw => Ok (mjoin (arr_get rw c))
  end.

(** [board[r][c] = v]: throws when [board[r]] is undefined. *)
Definition setCell {A} (board : list (list (option A))) (r c : Z)
  (v : option A) : result (list (list (option A))) :=
  match arr_get board r with
  | None => TypeError
  | Some rw => Ok (<[Z.to_nat r := arr_set rw c v]> board)
  end.

(** What a reader of the board sees at a square: nothing when the square
    is [null], [undefined] or lies outside the arrays. *)
Definition pieceAt {A} (board : list (list (option A))) (pos : Position)
  : option A :=
  rw ← arr_get board (row pos); mjoin (arr_get rw (col pos)).

(** ** logic.ts *)

Definition BOARD_SIZE : Z := 8.

Definition isValidPos (r c : Z) : bool :=
  (r >=? 0) && (r <? BOARD_SIZE) && (c >=? 0) && (c <? BOARD_SIZE).

Definition directions (piece : Piece) : list (Z * Z) :=
  if isKing piece then [(-1, -1); (-1, 1); (1, -1); (1, 1)]
  else match player piece with
       | red => [(-1, -1); (-1, 1)]
       | black => [(1, -1); (1, 1)]
       end.

(** [xs.forEach(x => { ... moves.push(..) ... })]: the moves pushed for
    each element, in order; a throw in the callback aborts the loop. *)
Fixpoint forEachPush {A B} (f : A -> result (list B)) (xs : list A)
  : result (list B) :=
  match xs with
  | [] => Ok []
  | x :: rest =>
      ms <- f x ;;
      more <- forEachPush f rest ;;
      Ok (ms ++ more)
  end.

(** Body of the first [directions.forEach] of [getValidMoves]. *)
Definition jumpStep (board : BoardState) (pos : Position) (piece : Piece)
  (d : Z * Z) : result (list Move) :=
  let '(dRow, dCol) := d in
  let jumpRow := row pos + dRow * 2 in
  let jumpCol := col pos + dCol * 2 in
  let midRow := row pos + dRow in
  let midCol := col pos + dCol in
  if isValidPos jumpRow jumpCol then
    target <- cell board jumpRow jumpCol ;;
    mid <- cell board midRow midCol ;;
    match target, mid with
    | None, Some m =>
        if negb (Player_eqb (player m) (player piece)) then
          Ok [ {| from := pos;
                  to := mkPos jumpRow jumpCol;
                  isJump := true;
                  jumpedPiece := Some (mkPos midRow midCol) |} ]
        else Ok []
    | _, _ => Ok []
    end
  else Ok [].

(** Body of the second [directions.forEach] of [getValidMoves]. *)
Definition slideStep (board : BoardState) (pos : Position) (d : Z * Z)
  : result (list Move) :=
  let '(dRow, dCol) := d in
  let newRow := row pos + dRow in
  let newCol := col pos + dCol in
  if isValidPos newRow newCol then
    target <- cell board newRow newCol ;;
    match target with
    | None => Ok [ {| from := pos;
                      to := mkPos newRow newCol;
                      isJump := false;
                      jumpedPiece := None |} ]
    | Some _ => Ok []
    end
  else Ok [].

Definition getValidMoves (board : BoardState) (pos : Position)
  (mustJump : bool) : result (list Move) :=
  piece <- cell board (row pos) (col pos) ;;
  match piece with
  | None => Ok []
  | Some piece =>
      moves <- forEachPush (jumpStep board pos piece) (directions piece) ;;
      if (0 <? length moves)%nat && mustJump then Ok moves
      else if negb mustJump || (length moves =? 0)%nat then
        slides <- forEachPush (slideStep board pos) (directions piece) ;;
        Ok (moves ++ slides)
      else Ok moves
  end.

(** The squares in the order of [for (r...) for (c...)]. *)
Definition range8 : list Z := [0; 1; 2; 3; 4; 5; 6; 7].

Definition squares : list (Z * Z) :=
  flat_map (fun r => map (fun c => (r, c)) range8) range8.
Arguments squares : simpl never.

(** [for (r...) for (c...) { ... if (...) return true; } return false]:
    [f r c] is the loop body, [Ok true] its [return true]. *)
Fixpoint anySquare (f : Z -> Z -> result bool) (sqs : list (Z * Z))
  : result bool :=
  match sqs with
  | [] => Ok false
  | (r, c) :: rest =>
      found <- f r c ;;
      if found then Ok true else anySquare f rest
  end.

Definition hasAnyJumps (board : BoardState) (p : Player) : result bool :=
  anySquare
    (fun r c =>
       piece <- cell board r c ;;
       match piece with
       | Some piece =>
           if Player_eqb (player piece) p then
             moves <- getValidMoves board (mkPos r c) false ;;
             Ok (existsb isJump moves)
           else Ok false
       | None => Ok false
       end)
    squares.

(** *** AI logic *)

(** [{ ...p }] *)
Definition copyPiece (p : Piece) : Piece :=
  {| player := player p; isKing := isKing p |}.

Definition cloneBoard (board : BoardState) : BoardState :=
  map (fun rw => map (fun p => match p with
                               | Some p => Some (copyPiece p)
                               | None => None
                               end) rw) board.

Record SimResult := mkSim {
  newBoard : BoardState;
  nextTurn : Player;
  nextMustJumpFrom : option Position
}.

(** The promotion test on the moved piece. *)
Definition reachesKingRow (piece : Piece) (toRow : Z) : bool :=
  (Player_eqb (player piece) red && (toRow =? 0))
  || (Player_eqb (player piece) black && (toRow =? BOARD_SIZE - 1)).

(** After the writes of [simulateMove], the moved object is still the
    one stored at [move.to] unless that cell has been nulled again
    ([to] = [from], or [to] = the jumped square). *)
Definition stillAtTo (move : Move) : bool :=
  negb (Position_eqb (to move) (from move))
  && negb (isJump move
           && match jumpedPiece move with
              | Some jp => Position_eqb (to move) jp
              | None => false
              end).

(** [piece.isKing = true], seen through the board cell that refers to
    [piece]. *)
Definition crownAt (board : BoardState) (pos : Position) : BoardState :=
  match pieceAt board pos with
  | Some p =>
      match setCell board (row pos) (col pos)
              (Some {| player := player p; isKing := true |}) with
      | Ok b => b
      | TypeError => board
      end
  | None => board
  end.

(** The first half of [simulateMove] (clone, the three writes and the
    promotion), which [executeMove] repeats line by line on the board of
    the component. *)
Definition movePiece (board : BoardState) (move : Move)
  : result BoardState :=
  let newBoard := cloneBoard board in
  piece <- cell newBoard (row (from move)) (col (from move)) ;;
  newBoard <- setCell newBoard (row (to move)) (col (to move)) piece ;;
  newBoard <- setCell newBoard (row (from move)) (col (from move)) None ;;
  newBoard <-
    (if isJump move then
       match jumpedPiece move with
       | Some jp => setCell newBoard (row jp) (col jp) None
       | None => Ok newBoard
       end
     else Ok newBoard) ;;
  match piece with
  | None => TypeError (* [piece.isKing] on [null] *)
  | Some piece =>
      if negb (isKing piece) then
        if reachesKingRow piece (row (to move)) then
          Ok (if stillAtTo move then crownAt newBoard (to move)
              else newBoard)
        else Ok newBoard
      else Ok newBoard
  end.

Definition simulateMove (board : BoardState) (move : Move)
  (currentPlayer : Player) : result SimResult :=
  newBoard <- movePiece board move ;;
  let nextMustJumpFrom := None in
  let nextTurn := otherPlayer currentPlayer in
  if isJump move then
    moves <- getValidMoves newBoard (to move) true ;;
    let followUpMoves := List.filter isJump moves in
    if (0 <? length followUpMoves)%nat then
      Ok (mkSim newBoard currentPlayer (Some (to move)))
    else Ok (mkSim newBoard nextTurn nextMustJumpFrom)
  else Ok (mkSim newBoard nextTurn nextMustJumpFrom).

(** *** Heuristic evaluation *)

(** The [value] of one piece standing on row [r], column [c]. *)
Definition pieceValue (piece : Piece) (r c : Z) : Z :=
  let value := 10 in
  let value := if isKing piece then 30 else value in
  let value :=
    match player piece with
    | red =>
        let value := value + (7 - r) in
        if r =? 7 then value + 2 else value
    | black =>
        let value := value + r in
        if r =? 0 then value + 2 else value
    end in
  if (c >=? 2) && (c <=? 5) && (r >=? 2) && (r <=? 5) then value + 2
  else value.

Fixpoint evaluateLoop (board : BoardState) (p : Player)
  (sqs : list (Z * Z)) (score : Z) : result Z :=
  match sqs with
  | [] => Ok score
  | (r, c) :: rest =>
      piece <- cell board r c ;;
      match piece with
      | None => evaluateLoop board p rest score
      | Some piece =>
          let value := pieceValue piece r c in
          if Player_eqb (player piece) p
          then evaluateLoop board p rest (score + value)
          else evaluateLoop board p rest (score - value)
      end
  end.

Definition evaluateBoard (board : BoardState) (p : Player) : result Z :=
  evaluateLoop board p squares 0.

(** *** Scores: integers and the two infinities *)

Inductive num := NegInf | Fin (z : Z) | PosInf.

(** [Math.max] *)
Definition num_max (a b : num) : num :=
  match a, b with
  | PosInf, _ | _, PosInf => PosInf
  | NegInf, x | x, NegInf => x
  | Fin x, Fin y => Fin (Z.max x y)
  end.

(** [Math.min] *)
Definition num_min (a b : num) : num :=
  match a, b with
  | NegInf, _ | _, NegInf => NegInf
  | PosInf, x | x, PosInf => x
  | Fin x, Fin y => Fin (Z.min x y)
  end.

(** [a <= b] *)
Definition num_leb (a b : num) : bool :=
  match a, b with
  | NegInf, _ | _, PosInf => true
  | Fin x, Fin y => x <=? y
  | _, _ => false
  end.

(** [a > b] *)
Definition num_gtb (a b : num) : bool := negb (num_leb a b).

(** *** Minimax with alpha-beta pruning *)

(** The move list built at the top of [minimax] and, with the same
    statements, at the top of [getAiMove]. *)
Definition possibleMoves (board : BoardState) (currentPlayer : Player)
  (mustJumpFrom : option Position) : result (list Move) :=
  match mustJumpFrom with
  | Some mustJumpFrom =>
      moves <- getValidMoves board mustJumpFrom true ;;
      Ok (List.filter isJump moves)
  | None =>
      globalJump <- hasAnyJumps board currentPlayer ;;
      forEachPush
        (fun '(r, c) =>
           piece <- cell board r c ;;
           match piece with
           | Some piece =>
               if Player_eqb (player piece) currentPlayer then
                 moves <- getValidMoves board (mkPos r c) false ;;
                 Ok (if globalJump : bool then List.filter isJump moves
                     else moves)
               else Ok []
           | None => Ok []
           end)
        squares
  end.

(** [None] is "out of fuel"; [Some TypeError] is a throw. *)
Definition search := option (result num).

Section Loops.
(** The recursive call [minimax(newBoard, nextDepth, alpha, beta,
    nextMaximizing, player, nextMustJumpFrom)]. *)
Variable recur :
  BoardState -> Z -> num -> num -> bool -> option Position -> search.
Variables (board : BoardState) (depth : Z) (player : Player).

(** [for (const move of possibleMoves)] of the maximizing branch. *)
Fixpoint maxLoop (moves : list Move) (alpha beta maxEval : num) : search :=
  match moves with
  | [] => Some (Ok maxEval)
  | move :: rest =>
      match simulateMove board move player with
      | TypeError => Some TypeError
      | Ok s =>
          let isTurnContinuing := Player_eqb (nextTurn s) player in
          let nextDepth := if isTurnContinuing then depth else depth - 1 in
          let nextMaximizing := if isTurnContinuing then true else false in
          match recur (newBoard s) nextDepth alpha beta nextMaximizing
                  (nextMustJumpFrom s) with
          | None => None
          | Some TypeError => Some TypeError
          | Some (Ok evalScore) =>
              let maxEval := num_max maxEval evalScore in
              let alpha := num_max alpha evalScore in
              if num_leb beta alpha then Some (Ok maxEval)
              else maxLoop rest alpha beta maxEval
          end
      end
  end.

(** [for (const move of possibleMoves)] of the minimizing branch. *)
Fixpoint minLoop (opponent : Player) (moves : list Move)
  (alpha beta minEval : num) : search :=
  match moves with
  | [] => Some (Ok minEval)
  | move :: rest =>
      match simulateMove board move opponent with
      | TypeError => Some TypeError
      | Ok s =>
          let isTurnContinuing := Player_eqb (nextTurn s) opponent in
          let nextDepth := if isTurnContinuing then depth else depth - 1 in
          let nextMaximizing := if isTurnContinuing then false else true in
          match recur (newBoard s) nextDepth alpha beta nextMaximizing
                  (nextMustJumpFrom s) with
          | None => None
          | Some TypeError => Some TypeError
          | Some (Ok evalScore) =>
              let minEval := num_min minEval evalScore in
              let beta := num_min beta evalScore in
              if num_leb beta alpha then Some (Ok minEval)
              else minLoop opponent rest alpha beta minEval
          end
      end
  end.
End Loops.

Fixpoint minimax (fuel : nat) (board : BoardState) (depth : Z)
  (alpha beta : num) (maximizingPlayer : bool) (player : Player)
  (mustJumpFrom : option Position) : search :=
  match fuel with
  | O => None
  | S fuel =>
      if depth =? 0 then
        Some (score <- evaluateBoard board player ;; Ok (Fin score))
      else
        let currentPlayer :=
          if maximizingPlayer then player else otherPlayer player in
        match possibleMoves board currentPlayer mustJumpFrom with
        | TypeError => Some TypeError
        | Ok possibleMoves =>
            if (length possibleMoves =? 0)%nat then
              Some (Ok (Fin (if maximizingPlayer then -10000 else 10000)))
            else if maximizingPlayer then
              maxLoop (fun b d a be m mj => minimax fuel b d a be m player mj)
                board depth player possibleMoves alpha beta NegInf
            else
              let opponent := otherPlayer player in
              minLoop (fun b d a be m mj => minimax fuel b d a be m player mj)
                board depth opponent possibleMoves alpha beta PosInf
        end
  end.

(** *** Move selection *)

Section GetAiMove.
(** [Math.floor(Math.random() * n)] and the outcome of
    [possibleMoves.sort(() => Math.random() - 0.5)]. *)
Variable randomIndex : nat -> nat.
Variable shuffle : list Move -> list Move.

(** [for (const move of possibleMoves)] of [getAiMove]. *)
Fixpoint bestLoop (fuel : nat) (board : BoardState) (player : Player)
  (depth : Z) (moves : list Move) (bestMove : Move) (maxEval : num)
  : option (result Move) :=
  match moves with
  | [] => Some (Ok bestMove)
  | move :: rest =>
      match simulateMove board move player with
      | TypeError => Some TypeError
      | Ok s =>
          let isTurnContinuing := Player_eqb (nextTurn s) player in
          let nextDepth := if isTurnContinuing then depth else depth - 1 in
          let nextMaximizing := if isTurnContinuing then true else false in
          match minimax fuel (newBoard s) nextDepth NegInf PosInf
                  nextMaximizing player (nextMustJumpFrom s) with
          | None => None
          | Some TypeError => Some TypeError
          | Some (Ok evalScore) =>
              if num_gtb evalScore maxEval
              then bestLoop fuel board player depth rest move evalScore
              else bestLoop fuel board player depth rest bestMove maxEval
          end
      end
  end.

Definition getAiMove (fuel : nat) (board : BoardState) (player : Player)
  (difficulty : Difficulty) (mustJumpFrom : option Position)
  : option (result (option Move)) :=
  match possibleMoves board player mustJumpFrom with
  | TypeError => Some TypeError
  | Ok [] => Some (Ok None)
  | Ok ((first :: _) as possibleMoves) =>
      match difficulty with
      | easy =>
          Some (Ok (possibleMoves !! randomIndex (length possibleMoves)))
      | _ =>
          let depth := match difficulty with medium => 2 | _ => 4 end in
          let bestMove := first in
          let maxEval := NegInf in
          let possibleMoves := shuffle possibleMoves in
          match bestLoop fuel board player depth possibleMoves bestMove
                  maxEval with
          | None => None
          | Some TypeError => Some TypeError
          | Some (Ok m) => Some (Ok (Some m))
          end
      end
  end.
End GetAiMove.

(** *** The starting position *)

Definition initializeBoard : BoardState :=
  map (fun row =>
         map (fun col =>
                if (row + col) mod 2 =? 1 then
                  if row <? 3 then Some {| player := black; isKing := false |}
                  else if row >? 4
                       then Some {| player := red; isKing := false |}
                       else None
                else None)
             range8)
      range8.

(** [initializeBoard] statement by statement: the array of [null]s,
    then the two loops and their writes. *)
Definition initializeBoardLoop : result BoardState :=
  let board : BoardState :=
    replicate (Z.to_nat BOARD_SIZE) (replicate (Z.to_nat BOARD_SIZE) None) in
  fold_left
    (fun (acc : result BoardState) '(row, col) =>
       board <- acc ;;
       if Z.rem (row + col) 2 =? 1 then
         board <-
           (if row <? 3
            then setCell board row col
                   (Some {| player := black; isKing := false |})
            else Ok board) ;;
         if row >? 4
         then setCell board row col
                (Some {| player := red; isKing := false |})
         else Ok board
       else Ok board)
    squares (Ok board).

(** ** App.tsx: the state of the component and [executeMove] *)

Inductive Winner := Wins (p : Player) | Draw.

(** The state variables that [executeMove] reads or sets. *)
Record AppState := mkApp {
  st_board : BoardState;
  st_turn : Player;
  st_selectedPos : option Position;
  st_winner : option Winner;
  st_mustJumpFrom : option Position
}.

Definition setBoard (b : BoardState) (st : AppState) : AppState :=
  mkApp b (st_turn st) (st_selectedPos st) (st_winner st)
    (st_mustJumpFrom st).
Definition setTurn (p : Player) (st : AppState) : AppState :=
  mkApp (st_board st) p (st_selectedPos st) (st_winner st)
    (st_mustJumpFrom st).
Definition setSelectedPos (s : option Position) (st : AppState) : AppState :=
  mkApp (st_board st) (st_turn st) s (st_winner st) (st_mustJumpFrom st).
Definition setWinner (w : option Winner) (st : AppState) : AppState :=
  mkApp (st_board st) (st_turn st) (st_selectedPos st) w
    (st_mustJumpFrom st).
Definition setMustJumpFrom (m : option Position) (st : AppState) : AppState :=
  mkApp (st_board st) (st_turn st) (st_selectedPos st) (st_winner st) m.

(** How a handler ends: it returns, or it throws; either way with the
    state updates it had requested until then. *)
Inductive outcome :=
| Returned (st : AppState)
| Threw (st : AppState).

(** [for (c...) { if (test) { flag = true; break; } }] on one row. *)
Fixpoint anyInRow (f : Z -> result bool) (cs : list Z) : result bool :=
  match cs with
  | [] => Ok false
  | c :: rest =>
      found <- f c ;;
      if found then Ok true else anyInRow f rest
  end.

(** The enclosing [for (r...)], which that [break] does not leave. *)
Fixpoint anyRow (f : Z -> Z -> result bool) (rs : list Z) (flag : bool)
  : result bool :=
  match rs with
  | [] => Ok flag
  | r :: rest =>
      found <- anyInRow (f r) range8 ;;
      anyRow f rest (flag || found)
  end.

(** The winner that [checkWinCondition] sets, if it sets one. *)
Definition checkWinCondition (currentBoard : BoardState)
  (nextPlayer : Player) : result (option Winner) :=
  hasPieces <-
    anyRow (fun r c =>
              piece <- cell currentBoard r c ;;
              Ok match piece with
                 | Some piece => Player_eqb (player piece) nextPlayer
                 | None => false
                 end)
      range8 false ;;
  if negb hasPieces then Ok (Some (Wins (otherPlayer nextPlayer)))
  else
    hasMoves <-
      anyRow (fun r c =>
                piece <- cell currentBoard r c ;;
                match piece with
                | Some piece =>
                    if Player_eqb (player piece) nextPlayer then
                      moves <- getValidMoves currentBoard (mkPos r c) false ;;
                      Ok (0 <? length moves)%nat
                    else Ok false
                | None => Ok false
                end)
        range8 false ;;
    if negb hasMoves then Ok (Some (Wins (otherPlayer nextPlayer)))
    else Ok None.

Definition executeMove (st : AppState) (move : Move) : outcome :=
  match movePiece (st_board st) move with
  | TypeError => Threw st
  | Ok newBoard =>
      let st := setBoard newBoard st in
      let finish st :=
        let st := setMustJumpFrom None st in
        let st := setSelectedPos None st in
        let nextTurn := otherPlayer (st_turn st) in
        let st := setTurn nextTurn st in
        match checkWinCondition newBoard nextTurn with
        | TypeError => Threw st
        | Ok (Some w) => Returned (setWinner (Some w) st)
        | Ok None => Returned st
        end in
      if isJump move then
        match getValidMoves newBoard (to move) true with
        | TypeError => Threw st
        | Ok moves =>
            let followUpMoves := List.filter isJump moves in
            if (0 <? length followUpMoves)%nat then
              Returned (setSelectedPos (Some (to move))
                          (setMustJumpFrom (Some (to move)) st))
            else finish st
        end
      else finish st
  end.

(** ** App.tsx: the other state variables and handlers

    A handler sees the state of the render that created it; the state
    updates it requests make up the state of the next render. *)

Inductive GameMode := pvp | ai.

Definition GameMode_eqb (a b : GameMode) : bool :=
  match a, b with
  | pvp, pvp | ai, ai => true
  | _, _ => false
  end.

(** The component: the state that [executeMove] works on and the four
    state variables it leaves alone. *)
Record Component := mkComponent {
  game : AppState;
  c_isMenuOpen : bool;
  c_gameMode : GameMode;
  c_difficulty : Difficulty;
  c_isAiThinking : bool
}.

Definition withGame (st : AppState) (c : Component) : Component :=
  mkComponent st (c_isMenuOpen c) (c_gameMode c) (c_difficulty c)
    (c_isAiThinking c).
Definition setIsMenuOpen (b : bool) (c : Component) : Component :=
  mkComponent (game c) b (c_gameMode c) (c_difficulty c) (c_isAiThinking c).
Definition setGameMode (g : GameMode) (c : Component) : Component :=
  mkComponent (game c) (c_isMenuOpen c) g (c_difficulty c) (c_isAiThinking c).
Definition setDifficulty (d : Difficulty) (c : Component) : Component :=
  mkComponent (game c) (c_isMenuOpen c) (c_gameMode c) d (c_isAiThinking c).
Definition setIsAiThinking (b : bool) (c : Component) : Component :=
  mkComponent (game c) (c_isMenuOpen c) (c_gameMode c) (c_difficulty c) b.

(** The initial values of the [useState] calls. *)
Definition initialComponent : Component :=
  mkComponent (mkApp initializeBoard red None None None) false ai medium false.

(** How a handler of the component ends. *)
Inductive handled :=
| Done (c : Component)
| Crashed (c : Component).

Definition liftOutcome (c : Component) (o : outcome) : handled :=
  match o with
  | Returned st => Done (withGame st c)
  | Threw st => Crashed (withGame st c)
  end.

(** [gameMode === 'ai' && turn === 'black'] *)
Definition aiToMove (c : Component) : bool :=
  GameMode_eqb (c_gameMode c) ai && Player_eqb (st_turn (game c)) black.

(** The [useMemo] that computes [validMoves]. *)
Definition validMoves (c : Component) : result (list Move) :=
  let st := game c in
  match st_selectedPos st with
  | None => Ok []
  | Some selectedPos =>
      if c_isAiThinking c then Ok []
      else if aiToMove c then Ok []
      else if match st_mustJumpFrom st with
              | Some mustJumpFrom =>
                  negb (row selectedPos =? row mustJumpFrom)
                  || negb (col selectedPos =? col mustJumpFrom)
              | None => false
              end
      then Ok []
      else
        moves <- getValidMoves (st_board st) selectedPos false ;;
        match st_mustJumpFrom st with
        | Some _ => Ok (List.filter isJump moves)
        | None =>
            globalJumpAvailable <- hasAnyJumps (st_board st) (st_turn st) ;;
            Ok (if globalJumpAvailable : bool
                then List.filter isJump moves else moves)
        end
  end.

(** [handleSquareClick(row, col)], in a render whose [useMemo] gave
    [validMoves]. *)
Definition handleSquareClick (c : Component) (validMoves : list Move)
  (r cl : Z) : handled :=
  let st := game c in
  if match st_winner st with Some _ => true | None => false end
     || c_isAiThinking c then Done c
  else if aiToMove c then Done c
  else
    match cell (st_board st) r cl with
    | TypeError => Crashed c
    | Ok clickedPiece =>
        let isCurrentPlayerPiece :=
          match clickedPiece with
          | Some piece => Player_eqb (player piece) (st_turn st)
          | None => false
          end in
        if isCurrentPlayerPiece then
          match st_mustJumpFrom st with
          | Some _ => Done c
          | None =>
              let select :=
                Done (withGame (setSelectedPos (Some (mkPos r cl)) st) c) in
              match hasAnyJumps (st_board st) (st_turn st) with
              | TypeError => Crashed c
              | Ok globalJumpAvailable =>
                  if globalJumpAvailable : bool then
                    match getValidMoves (st_board st) (mkPos r cl) false with
                    | TypeError => Crashed c
                    | Ok moves =>
                        if negb (existsb isJump moves) then Done c
                        else select
                    end
                  else select
              end
          end
        else
          match clickedPiece, st_selectedPos st with
          | None, Some _ =>
              match List.find (fun m => (row (to m) =? r)
                                        && (col (to m) =? cl)) validMoves with
              | Some move => liftOutcome c (executeMove st move)
              | None => Done c
              end
          | _, _ => Done c
          end
    end.

(** The effect that starts the AI: [Some] when it sets the timer. *)
Definition aiEffect (c : Component) : option Component :=
  if aiToMove c
     && negb match st_winner (game c) with Some _ => true | None => false end
  then Some (setIsAiThinking true c)
  else None.

Section AiTimer.
Variable randomIndex : nat -> nat.
Variable shuffle : list Move -> list Move.

(** The callback of that timer; [None] is "out of fuel". *)
Definition aiTimer (fuel : nat) (c : Component) : option handled :=
  let st := game c in
  match getAiMove randomIndex shuffle fuel (st_board st) black
          (c_difficulty c) (st_mustJumpFrom st) with
  | None => None
  | Some TypeError => Some (Crashed c)
  | Some (Ok (Some move)) =>
      match executeMove st move with
      | Returned st' => Some (Done (setIsAiThinking false (withGame st' c)))
      | Threw st' => Some (Crashed (withGame st' c))
      end
  | Some (Ok None) =>
      Some (Done (setIsAiThinking false
                    (withGame (setWinner (Some (Wins red)) st) c)))
  end.
End AiTimer.

Definition resetGame (c : Component) : Component :=
  let st := game c in
  let st := setBoard initializeBoard st in
  let st := setTurn red st in
  let st := setWinner None st in
  let st := setSelectedPos None st in
  let st := setMustJumpFrom None st in
  setIsMenuOpen false (withGame st c).

(** [const isDark = (rIndex + cIndex) % 2 === 1] of the board
    rendering; [%] is the remainder of the truncated division. *)
Definition isDark (rIndex cIndex : Z) : bool :=
  Z.rem (rIndex + cIndex) 2 =? 1.

(** What the player can do: click a square, and the buttons of the menu. *)
Inductive action :=
| Click (r cl : Z)
| Reset
| ToggleMenu
| ChooseMode (g : GameMode)
| ChooseDifficulty (d : Difficulty).

Definition perform (a : action) (c : Component) : handled :=
  match a with
  | Click r cl =>
      match validMoves c with
      | Ok vm => handleSquareClick c vm r cl
      | TypeError => Crashed c
      end
  | Reset => Done (resetGame c)
  | ToggleMenu => Done (setIsMenuOpen (negb (c_isMenuOpen c)) c)
  | ChooseMode g => Done (setGameMode g c)
  | ChooseDifficulty d => Done (setDifficulty d c)
  end.

Fixpoint performAll (acts : list action) (c : Component) : handled :=
  match acts with
  | [] => Done c
  | a :: rest =>
      match perform a c with
      | Done c' => performAll rest c'
      | Crashed c' => Crashed c'
      end
  end.

(** One step of the component: a handler that the player triggers, the
    effect that starts the AI, or the callback of its timer.  The
    clean-up of the effect clears the timer when one of the dependencies
    changes, so the callback runs only in a state in which the condition
    of the effect holds. *)
Inductive step : Component -> Component -> Prop :=
| step_click c r cl vm c' :
    isValidPos r cl = true ->
    validMoves c = Ok vm ->
    handleSquareClick c vm r cl = Done c' ->
    step c c'
| step_reset c : step c (resetGame c)
| step_menu c : step c (setIsMenuOpen (negb (c_isMenuOpen c)) c)
| step_mode c g : step c (setGameMode g c)
| step_difficulty c d : step c (setDifficulty d c)
| step_effect c c' : aiEffect c = Some c' -> step c c'
| step_timer c randomIndex shuffle fuel c' :
    (forall l, Permutation l (shuffle l)) ->
    (forall n, (0 < n)%nat -> (randomIndex n < n)%nat) ->
    aiToMove c = true ->
    st_winner (game c) = None ->
    aiTimer randomIndex shuffle fuel c = Some (Done c') ->
    step c c'.

(** The states that the component goes through, from its first render. *)
Inductive reachable : Component -> Prop :=
| reach_init : reachable initialComponent
| reach_step c c' : reachable c -> step c c' -> reachable c'.

(** ** The same move on shared objects

    [cloneBoard] and the writes of [simulateMove] once more, this time
    with the row arrays and the piece objects as mutable objects of a
    store that boards refer to.  It is the model against which the
    value-passing [movePiece] above, and its treatment of the moved
    object by [stillAtTo], are justified. *)
Module Store.

(** A reference is the rank of the object among those of its kind, in
    the order of their creation. *)
Abbreviation ref := nat (only parsing).

Record heap := mkHeap {
  pieceObjs : list Piece;
  rowObjs : list (list (option ref))
}.

(** A value of type [BoardState]: the references held by the outer
    array, which no statement of the program assigns to. *)
Definition boardRef := list ref.

(** A computation on the store; [None] is a dangling reference, which
    no store built by the program contains. *)
Definition M (A : Type) := heap -> option (result A * heap).

Definition ret {A} (a : A) : M A := fun h => Some (Ok a, h).

Definition throw {A} : M A := fun h => Some (TypeError, h).

Definition bindM {A B} (m : M A) (k : A -> M B) : M B :=
  fun h =>
    match m h with
    | None => None
    | Some (TypeError, h') => Some (TypeError, h')
    | Some (Ok a, h') => k a h'
    end.

Notation "x <~ e ;; k" := (bindM e (fun x => k))
  (at level 100, e at next level, right associativity).

(** [{ player: .., isKing: .. }] *)
Definition newPiece (p : Piece) : M ref :=
  fun h => Some (Ok (length (pieceObjs h)),
                 mkHeap (pieceObjs h ++ [p]) (rowObjs h)).

Definition newRow (cells : list (option ref)) : M ref :=
  fun h => Some (Ok (length (rowObjs h)),
                 mkHeap (pieceObjs h) (rowObjs h ++ [cells])).

Definition readPiece (r : ref) : M Piece :=
  fun h => p ← pieceObjs h !! r; Some (Ok p, h).

(** [piece.isKing = true] *)
Definition crown (r : ref) : M unit :=
  fun h =>
    p ← pieceObjs h !! r;
    Some (Ok tt,
          mkHeap (<[r := {| player := player p; isKing := true |}]>
                    (pieceObjs h))
                 (rowObjs h)).

Definition readRow (rr : ref) : M (list (option ref)) :=
  fun h => cells ← rowObjs h !! rr; Some (Ok cells, h).

(** [board[r]], about to be indexed *)
Definition rowAt (board : boardRef) (r : Z) : M ref :=
  match arr_get board r with
  | Some rr => ret rr
  | None => throw
  end.

(** [rowObject[c]] *)
Definition readCell (rr : ref) (c : Z) : M (option ref) :=
  fun h =>
    cells ← rowObjs h !! rr;
    Some (Ok (mjoin (arr_get cells c)), h).

(** [rowObject[c] = v] *)
Definition writeCell (rr : ref) (c : Z) (v : option ref) : M unit :=
  fun h =>
    cells ← rowObjs h !! rr;
    Some (Ok tt,
          mkHeap (pieceObjs h) (<[rr := arr_set cells c v]> (rowObjs h))).

(** [row.map(p => p ? { ...p } : null)] *)
Fixpoint cloneCells (cells : list (option ref)) : M (list (option ref)) :=
  match cells with
  | [] => ret []
  | c :: rest =>
      c' <~ match c with
            | Some r =>
                p <~ readPiece r ;;
                r' <~ newPiece (copyPiece p) ;;
                ret (Some r')
            | None => ret None
            end ;;
      rest' <~ cloneCells rest ;;
      ret (c' :: rest')
  end.

(** [board.map(row => row.map(..))] *)
Fixpoint cloneBoard (board : boardRef) : M boardRef :=
  match board with
  | [] => ret []
  | rr :: rest =>
      cells <~ readRow rr ;;
      cells' <~ cloneCells cells ;;
      rr' <~ newRow cells' ;;
      rest' <~ cloneBoard rest ;;
      ret (rr' :: rest')
  end.

(** The read and the three writes of [simulateMove]. *)
Definition moveCells (newBoard : boardRef) (move : Move) : M (option ref) :=
  rr <~ rowAt newBoard (row (from move)) ;;
  piece <~ readCell rr (col (from move)) ;;
  rr <~ rowAt newBoard (row (to move)) ;;
  _ <~ writeCell rr (col (to move)) piece ;;
  rr <~ rowAt newBoard (row (from move)) ;;
  _ <~ writeCell rr (col (from move)) None ;;
  _ <~ (if isJump move then
          match jumpedPiece move with
          | Some jp =>
              rr <~ rowAt newBoard (row jp) ;;
              writeCell rr (col jp) None
          | None => ret tt
          end
        else ret tt) ;;
  ret piece.

(** The promotion of [simulateMove]. *)
Definition promote (piece : option ref) (move : Move) : M unit :=
  match piece with
  | None => throw (* [piece.isKing] on [null] *)
  | Some pr =>
      p <~ readPiece pr ;;
      if negb (isKing p) then
        if reachesKingRow p (row (to move)) then crown pr
        else ret tt
      else ret tt
  end.

(** The statements of [simulateMove] up to and including the
    promotion. *)
Definition movePiece (board : boardRef) (move : Move) : M boardRef :=
  newBoard <~ cloneBoard board ;;
  piece <~ moveCells newBoard move ;;
  _ <~ promote piece move ;;
  ret newBoard.

(** The board a reference denotes in a store. *)
Definition readCells (h : heap) (cells : list (option ref))
  : option (list (option Piece)) :=
  mapM (fun c => match c with
                 | None => Some None
                 | Some r => Some <$> pieceObjs h !! r
                 end) cells.

Definition readBoard (h : heap) (board : boardRef)
  : option (list (list (option Piece))) :=
  mapM (fun rr => cells ← rowObjs h !! rr; readCells h cells) board.

End Store.

(** ** Notions used by the statements *)

(** The read and the three writes of [movePiece], on cells of any
    kind: the board after them and the cell that was read. *)
Definition moveCells {A} (g : list (list (option A))) (move : Move)
  : result (list (list (option A)) * option A) :=
  piece <- cell g (row (from move)) (col (from move)) ;;
  g <- setCell g (row (to move)) (col (to move)) piece ;;
  g <- setCell g (row (from move)) (col (from move)) None ;;
  g <- (if isJump move then
          match jumpedPiece move with
          | Some jp => setCell g (row jp) (col jp) None
          | None => Ok g
          end
        else Ok g) ;;
  Ok (g, piece).

(** What a cell holding a reference shows in a list of piece objects. *)
Definition view (pieces : list Piece) (c : option nat) : option Piece :=
  match c with
  | Some r => pieces !! r
  | None => None
  end.

Definition mapGrid {A B} (f : option A -> option B)
  (g : list (list (option A))) : list (list (option B)) :=
  (fun rw : list (option A) => f <$> rw) <$> g.

(** The lengths of the rows. *)
Definition shape {A} (g : list (list A)) : list nat := length <$> g.

(** A cell is null or refers to an existing piece object. *)
Definition validCell (pieces : list Piece) (c : option nat) : Prop :=
  match c with
  | Some r => (r < length pieces)%nat
  | None => True
  end.

(** A board whose rows exist and refer to existing pieces. *)
Definition validBoard (P : list Piece) (R : list (list (option nat)))
  (board : list nat) : Prop :=
  forall i rr, board !! i = Some rr ->
    exists cells, R !! rr = Some cells /\ Forall (validCell P) cells.

(** No piece object is referred to from two cells. *)
Definition unshared (css : list (list (option nat))) : Prop :=
  forall i j ri rj c c' pr,
    css !! i = Some ri -> ri !! c = Some (Some pr) ->
    css !! j = Some rj -> rj !! c' = Some (Some pr) ->
    i = j /\ c = c'.

(** The store in which the cloned rows [css] follow the rows [rows]. *)
Definition withRows (pieces : list Piece)
  (rows css : list (list (option nat))) : Store.heap :=
  Store.mkHeap pieces (rows ++ css).

(** Every object of [h] is an object of [h'], unchanged. *)
Definition preserved (h h' : Store.heap) : Prop :=
  Store.pieceObjs h `prefix_of` Store.pieceObjs h' /\
  Store.rowObjs h `prefix_of` Store.rowObjs h'.

(** The board has its eight rows (of whatever lengths). *)
Definition hasAllRows {A} (board : list (list (option A))) : Prop :=
  length board = 8%nat.

Definition onBoard (pos : Position) : Prop :=
  isValidPos (row pos) (col pos) = true.

(** [mustJumpFrom], when set, names a row of the board. *)
Definition rowOnBoard (mjf : option Position) : Prop :=
  match mjf with
  | Some q => 0 <= row q < 8
  | None => True
  end.

(** The neighbour of [pos] in direction [d], and the square behind it. *)
Definition step1 (pos : Position) (d : Z * Z) : Position :=
  mkPos (row pos + fst d) (col pos + snd d).

Definition step2 (pos : Position) (d : Z * Z) : Position :=
  mkPos (row pos + fst d * 2) (col pos + snd d * 2).

(** The piece on [pos] has a capture: in one of its directions the next
    square holds an opposing piece and the square behind it is on the
    board and empty. *)
Definition canCapture (board : BoardState) (pos : Position) : Prop :=
  exists piece d victim,
    pieceAt board pos = Some piece /\
    In d (directions piece) /\
    onBoard (step2 pos d) /\
    pieceAt board (step2 pos d) = None /\
    pieceAt board (step1 pos d) = Some victim /\
    player victim <> player piece.

(** The moves that [getValidMoves] generates on a board. *)
Inductive generated (board : BoardState) : Move -> Prop :=
| gen_slide pos piece d :
    pieceAt board pos = Some piece ->
    In d (directions piece) ->
    onBoard (step1 pos d) ->
    is_Some (arr_get board (row (step1 pos d))) ->
    pieceAt board (step1 pos d) = None ->
    generated board
      {| from := pos; to := step1 pos d; isJump := false;
         jumpedPiece := None |}
| gen_jump pos piece d victim :
    pieceAt board pos = Some piece ->
    In d (directions piece) ->
    onBoard (step2 pos d) ->
    is_Some (arr_get board (row (step2 pos d))) ->
    pieceAt board (step2 pos d) = None ->
    pieceAt board (step1 pos d) = Some victim ->
    player victim <> player piece ->
    generated board
      {| from := pos; to := step2 pos d; isJump := true;
         jumpedPiece := Some (step1 pos d) |}.

(** The piece that stands on [move.to] once [move] has carried
    [piece] there. *)
Definition landed (piece : Piece) (move : Move) : Piece :=
  {| player := player piece;
     isKing := isKing piece || reachesKingRow piece (row (to move)) |}.

(** [move.isJump && move.jumpedPiece]: the square that the move clears
    besides [move.from]. *)
Definition jumpedSquare (move : Move) : option Position :=
  if isJump move then jumpedPiece move else None.

(** What stands on square [q] once [move] has been applied to [board]. *)
Definition afterMove (board : BoardState) (move : Move) (q : Position)
  : option Piece :=
  if Position_eqb q (to move) then
    match pieceAt board (from move) with
    | Some piece => Some (landed piece move)
    | None => None
    end
  else if Position_eqb q (from move) then None
  else if isJump move
          && match jumpedPiece move with
             | Some jp => Position_eqb q jp
             | None => false
             end
       then None
  else pieceAt board q.

(** 1 for an occupied cell. *)
Definition occ {A} (x : option A) : nat :=
  match x with Some _ => 1%nat | None => 0%nat end.

Definition countRow {A} (rw : list (option A)) : nat :=
  length (omap id rw).

Definition countPieces {A} (board : list (list (option A))) : nat :=
  sum_list_with countRow board.

(** Fuel that suffices for a search of [depth] plies on [board]: each
    ply may be followed by as many chained captures as there are
    pieces. *)
Definition searchFuel (depth : Z) (board : BoardState) : nat :=
  S (Z.to_nat depth * S (countPieces board) + countPieces board).

(** A search that returned a score other than an infinity. *)
Definition finite (r : result num) : Prop := exists z, r = Ok (Fin z).

(** The side that moves at a node of the search. *)
Definition sideToMove (maximizingPlayer : bool) (p : Player) : Player :=
  if maximizingPlayer then p else otherPlayer p.

(** The score [evalScore] that the loop of [getAiMove] computes for a
    candidate: the successor is searched with [depth - 1], or with
    [depth] when the capture continues. *)
Definition moveScore (fuel : nat) (board : BoardState) (p : Player)
  (depth : Z) (move : Move) : search :=
  match simulateMove board move p with
  | TypeError => Some TypeError
  | Ok s =>
      let isTurnContinuing := Player_eqb (nextTurn s) p in
      minimax fuel (newBoard s)
        (if isTurnContinuing then depth else depth - 1)
        NegInf PosInf (if isTurnContinuing then true else false) p
        (nextMustJumpFrom s)
  end.

(** The score of the position after [move] when that position is itself
    searched at [depth]. *)
Definition successorScore (fuel : nat) (board : BoardState) (p : Player)
  (depth : Z) (move : Move) : search :=
  match simulateMove board move p with
  | TypeError => Some TypeError
  | Ok s =>
      minimax fuel (newBoard s) depth NegInf PosInf
        (Player_eqb (nextTurn s) p) p (nextMustJumpFrom s)
  end.

Definition tierDepth (difficulty : Difficulty) : Z :=
  match difficulty with medium => 2 | _ => 4 end.

(** Boards for the examples. *)
Definition emptyBoard : BoardState := replicate 8 (replicate 8 None).

Definition place (board : BoardState) (r c : Z) (p : Piece) : BoardState :=
  match setCell board r c (Some p) with
  | Ok b => b
  | TypeError => board
  end.

Definition man (p : Player) : Piece := {| player := p; isKing := false |}.
Definition king (p : Player) : Piece := {| player := p; isKing := true |}.

(** A black king on [k] and a red king on [r], nothing else. *)
Definition twoKings (k r : Z * Z) : BoardState :=
  place (place emptyBoard (fst k) (snd k) (king black))
    (fst r) (snd r) (king red).

(** ** Notions used by the further statements *)

(** Some piece of [p] standing on the board has a capture. *)
Definition mustCapture (board : BoardState) (p : Player) : Prop :=
  exists pos piece,
    onBoard pos /\ pieceAt board pos = Some piece /\ player piece = p /\
    canCapture board pos.

(** The moves open to [p] when no capture chain is running: those that
    the rules generate for a piece of [p] standing on the board, captures
    only when [p] has one. *)
Definition legalMove (board : BoardState) (p : Player) (m : Move) : Prop :=
  generated board m /\ onBoard (from m) /\
  (exists piece, pieceAt board (from m) = Some piece /\ player piece = p) /\
  (mustCapture board p -> isJump m = true).

(** A cell as far as player [p] is concerned: his piece or nothing. *)
Definition ownedBy (p : Player) (c : option Piece) : option Piece :=
  match c with
  | Some x => if Player_eqb (player x) p then Some x else None
  | None => None
  end.

(** The number of pieces of [p] on the board. *)
Definition countOf (p : Player) (board : BoardState) : nat :=
  countPieces (mapGrid (ownedBy p) board).

(** Every piece stands on a dark square. *)
Definition darkOnly (board : BoardState) : Prop :=
  forall q piece, pieceAt board q = Some piece ->
                  isDark (row q) (col q) = true.

(** Some piece of [p] on the board has a move of either kind. *)
Definition canMove (board : BoardState) (p : Player) : Prop :=
  exists m piece,
    generated board m /\ onBoard (from m) /\
    pieceAt board (from m) = Some piece /\ player piece = p.

(** A piece of [p] stands on the square [pos] of the board. *)
Definition ownedAt (board : BoardState) (p : Player) (pos : Position)
  : Prop :=
  onBoard pos /\
  exists piece, pieceAt board pos = Some piece /\ player piece = p.

(** What the content [x] of the square on row [r], column [c] adds to
    the score of [p] in [evaluateBoard]. *)
Definition contribution (p : Player) (x : option Piece) (r c : Z) : Z :=
  match x with
  | Some piece =>
      if Player_eqb (player piece) p then pieceValue piece r c
      else - pieceValue piece r c
  | None => 0
  end.

Definition sumOver {A} (f : A -> Z) (l : list A) : Z :=
  fold_right (fun x acc => f x + acc) 0 l.

(** [f] with the value at [a] replaced by [x]. *)
Definition updateAt (f : Z * Z -> Z) (a : Z * Z) (x : Z) : Z * Z -> Z :=
  fun q => if decide (q = a) then x else f q.

(** *** The search without the pruning

    [minimax] with [alpha], [beta] and the two [break]s left out: every
    move of the list is searched.  It is what the pruned search is
    compared with. *)

Section Exhaustive.
Variable recur : BoardState -> Z -> bool -> option Position -> search.
Variables (board : BoardState) (depth : Z) (mover : Player).
(** [Math.max] or [Math.min], and whether the node maximizes. *)
Variable pick : num -> num -> num.
Variable maximizing : bool.

Fixpoint bestOf (moves : list Move) (best : num) : search :=
  match moves with
  | [] => Some (Ok best)
  | move :: rest =>
      match simulateMove board move mover with
      | TypeError => Some TypeError
      | Ok s =>
          let isTurnContinuing := Player_eqb (nextTurn s) mover in
          let nextDepth := if isTurnContinuing then depth else depth - 1 in
          let nextMaximizing :=
            if isTurnContinuing then maximizing else negb maximizing in
          match recur (newBoard s) nextDepth nextMaximizing
                  (nextMustJumpFrom s) with
          | None => None
          | Some TypeError => Some TypeError
          | Some (Ok evalScore) => bestOf rest (pick best evalScore)
          end
      end
  end.
End Exhaustive.

Fixpoint fullSearch (fuel : nat) (board : BoardState) (depth : Z)
  (maximizingPlayer : bool) (player : Player)
  (mustJumpFrom : option Position) : search :=
  match fuel with
  | O => None
  | S fuel =>
      if depth =? 0 then
        Some (score <- evaluateBoard board player ;; Ok (Fin score))
      else
        let currentPlayer :=
          if maximizingPlayer then player else otherPlayer player in
        match possibleMoves board currentPlayer mustJumpFrom with
        | TypeError => Some TypeError
        | Ok possibleMoves =>
            if (length possibleMoves =? 0)%nat then
              Some (Ok (Fin (if maximizingPlayer then -10000 else 10000)))
            else
              bestOf (fun b d m mj => fullSearch fuel b d m player mj)
                board depth currentPlayer
                (if maximizingPlayer then num_max else num_min)
                maximizingPlayer possibleMoves
                (if maximizingPlayer then NegInf else PosInf)
        end
  end.

(** What a search within the window [alpha], [beta] owes to the exact
    value [exact]: a result at or below [alpha] is an upper bound of it,
    a result at or above [beta] a lower bound, a result strictly inside
    the window is the exact value. *)
Definition failSoft (alpha beta exact returned : num) : Prop :=
  (num_leb returned alpha = true -> num_leb exact returned = true) /\
  (num_leb beta returned = true -> num_leb returned exact = true) /\
  (num_leb returned alpha = false -> num_leb beta returned = false ->
   returned = exact).

(** The score seen from the other side. *)
Definition num_opp (a : num) : num :=
  match a with
  | NegInf => PosInf
  | Fin z => Fin (- z)
  | PosInf => NegInf
  end.

(** A score between the two sentinels. *)
Definition inRange (w : num) : Prop :=
  exists z, w = Fin z /\ -10000 <= z <= 10000.

(** The states of the game in which play leaves the component: the board
    has its rows, pieces stand on dark squares only, a selected square
    holds a piece of the side to move, a running capture chain has its
    piece selected, the side to move has a move unless a winner is
    declared, and the winner is never ['draw']. *)
Definition wellFormedGame (st : AppState) : Prop :=
  hasAllRows (st_board st) /\
  darkOnly (st_board st) /\
  (forall sp, st_selectedPos st = Some sp ->
              ownedAt (st_board st) (st_turn st) sp) /\
  (forall q, st_mustJumpFrom st = Some q -> st_selectedPos st = Some q) /\
  (st_winner st = None ->
   exists ms,
     possibleMoves (st_board st) (st_turn st) (st_mustJumpFrom st) = Ok ms /\
     ms <> []) /\
  st_winner st <> Some Draw.

Definition wellFormed (c : Component) : Prop := wellFormedGame (game c).

(** Positions for the examples: a black man that can capture a red one,
    and the component after the clicks of red's first move. *)
Definition captureBoard : BoardState :=
  place (place emptyBoard 3 2 (man black)) 4 3 (man red).

Definition captureMove : Move :=
  mkMove (mkPos 3 2) (mkPos 5 4) true (Some (mkPos 4 3)).

Definition clicked (c : Component) (r cl : Z) : Component :=
  match perform (Click r cl) c with
  | Done c' => c'
  | Crashed c' => c'
  end.

Definition afterOpening : Component :=
  clicked (clicked initialComponent 5 0) 4 1.

(** * Properties *)

(** ** The [result] monad and the loops *)

Lemma bind_Ok {A B} (r : result A) (k : A -> result B) (b : B) :
  bind r k = Ok b <-> exists a, r = Ok a /\ k a = Ok b.
Proof.
  destruct r; simpl; split.
  - eauto.
  - intros (a' & [= ->] & H). exact H.
  - discriminate.
  - intros (a' & [=] & _).
Qed.

Ltac inv_bind :=
  repeat match goal with
    | H : bind _ _ = Ok _ |- _ =>
        let x := fresh "x" in
        let E := fresh "E" in
        apply bind_Ok in H; destruct H as (x & E & H)
    | H : Ok _ = Ok _ |- _ => injection H as H; try subst
    | H : TypeError = Ok _ |- _ => discriminate H
    end.

Lemma forEachPush_In {A B} (f : A -> result (list B)) xs ms :
  forEachPush f xs = Ok ms ->
  forall m, In m ms <-> exists x l, In x xs /\ f x = Ok l /\ In m l.
Proof.
  revert ms. induction xs as [|x xs IH]; simpl; intros ms H m.
  - inv_bind. simpl. split; [tauto | intros (? & ? & [] & _)].
  - inv_bind. rewrite in_app_iff, (IH _ E0). split.
    + intros [Hm | (y & l & Hy & Hl & Hm)]; [exists x, x0 | exists y, l]; auto.
    + intros (y & l & [<- | Hy] & Hl & Hm).
      * left. congruence.
      * right. eauto.
Qed.

Lemma forEachPush_Forall {A B} (P : B -> Prop) (f : A -> result (list B))
  xs ms :
  (forall x l, f x = Ok l -> Forall P l) ->
  forEachPush f xs = Ok ms -> Forall P ms.
Proof.
  intros Hf H. apply List.Forall_forall. intros m Hm.
  apply (forEachPush_In _ _ _ H) in Hm as (x & l & _ & Hl & Hm).
  apply Hf in Hl. rewrite List.Forall_forall in Hl. auto.
Qed.

(** ** [getValidMoves] *)

Lemma jumpStep_isJump board pos piece d l :
  jumpStep board pos piece d = Ok l -> Forall (fun m => isJump m = true) l.
Proof.
  unfold jumpStep. destruct d as [dRow dCol].
  destruct (isValidPos _ _); [|intros [= <-]; constructor].
  intros H. inv_bind. destruct x as [?|]; [inv_bind; constructor|].
  destruct x0 as [m|]; [|inv_bind; constructor].
  destruct (negb _); inv_bind; repeat constructor.
Qed.

Lemma slideStep_isJump board pos d l :
  slideStep board pos d = Ok l -> Forall (fun m => isJump m = false) l.
Proof.
  unfold slideStep. destruct d as [dRow dCol].
  destruct (isValidPos _ _); [|intros [= <-]; constructor].
  intros H. inv_bind. destruct x; inv_bind; repeat constructor.
Qed.

Lemma filter_isJump_jumps (js ss : list Move) :
  Forall (fun m => isJump m = true) js ->
  Forall (fun m => isJump m = false) ss ->
  List.filter isJump (js ++ ss) = js /\
  existsb isJump (js ++ ss) = (0 <? length js)%nat.
Proof.
  intros Hj Hs. induction Hj as [|m js Hm Hj IH]; simpl.
  - induction Hs as [|m ss Hm Hs IH]; simpl; [auto|].
    rewrite Hm. simpl. exact IH.
  - rewrite Hm. simpl. destruct IH as [-> _]. auto.
Qed.

(** What the flag [mustJump] does: when the piece has a jump the result
    is the jumps alone, and when it has none the result is the
    unrestricted one. *)
Lemma getValidMoves_flag board pos all :
  getValidMoves board pos false = Ok all ->
  getValidMoves board pos true
  = Ok (if existsb isJump all then List.filter isJump all else all).
Proof.
  unfold getValidMoves. intros H. inv_bind. rewrite E. simpl.
  destruct x as [piece|]; [|inv_bind; reflexivity].
  inv_bind. rewrite E0. simpl.
  rewrite andb_false_r in H. simpl in H. inv_bind.
  pose proof (forEachPush_Forall _ _ _ _ (jumpStep_isJump board pos piece) E0)
    as Hj.
  pose proof (forEachPush_Forall _ _ _ _ (slideStep_isJump board pos) E1)
    as Hs.
  destruct (filter_isJump_jumps _ _ Hj Hs) as [-> ->].
  rewrite andb_true_r.
  destruct x as [|j js]; simpl.
  - rewrite E1. reflexivity.
  - reflexivity.
Qed.

(** C1 (amended).  With [mustJump] (the spec's [chainCaptureOnly]) set,
    [getValidMoves] returns the jumps alone when the piece on the square
    has at least one, and then every returned move has [isJump = true];
    when the piece has no jump it returns what it returns without the
    flag, the simple moves of the piece, none of which is a jump.  The
    result is therefore not empty in general when no jump exists. *)
Theorem getValidMoves_chainCaptureOnly board pos all :
  getValidMoves board pos false = Ok all ->
  exists ms,
    getValidMoves board pos true = Ok ms /\
    (existsb isJump all = true ->
     ms = List.filter isJump all /\ Forall (fun m => isJump m = true) ms) /\
    (existsb isJump all = false ->
     ms = all /\ Forall (fun m => isJump m = false) ms).
Proof.
  intros H. rewrite (getValidMoves_flag _ _ _ H).
  eexists. split; [reflexivity|]. split; intros E; rewrite E; split; auto.
  - apply List.Forall_forall. intros m Hm.
    apply filter_In in Hm. tauto.
  - apply List.Forall_forall. intros m Hm.
    destruct (isJump m) eqn:Em; [|reflexivity].
    assert (existsb isJump all = true) by (apply existsb_exists; eauto).
    congruence.
Qed.

Lemma getValidMoves_chainCaptureOnly_witness :
  let board := place (place emptyBoard 3 3 (man black)) 4 4 (man red) in
  let all := [mkMove (mkPos 3 3) (mkPos 5 5) true (Some (mkPos 4 4));
              mkMove (mkPos 3 3) (mkPos 4 2) false None] in
  getValidMoves board (mkPos 3 3) false = Ok all /\
  exists ms,
    getValidMoves board (mkPos 3 3) true = Ok ms /\
    (existsb isJump all = true ->
     ms = List.filter isJump all /\ Forall (fun m => isJump m = true) ms) /\
    (existsb isJump all = false ->
     ms = all /\ Forall (fun m => isJump m = false) ms).
Proof.
  intros board all. split; [reflexivity|].
  apply (getValidMoves_chainCaptureOnly board (mkPos 3 3) all).
  reflexivity.
Defined.

(** C1 as stated fails: a lone red man on (5,2) has no jump, and with the
    flag set [getValidMoves] returns its two simple moves. *)
Lemma getValidMoves_chainCaptureOnly_returns_slides :
  ~ (forall board pos ms,
        getValidMoves board pos true = Ok ms ->
        Forall (fun m => isJump m = true) ms).
Proof.
  intros H.
  specialize (H (place emptyBoard 5 2 (man red)) (mkPos 5 2) _ eq_refl).
  inversion H as [|m ms Hm _]. discriminate Hm.
Qed.

(** ** Arrays and boards *)

Lemma arr_get_Some {A} (a : list A) i x :
  arr_get a i = Some x <-> 0 <= i /\ a !! Z.to_nat i = Some x.
Proof.
  unfold arr_get. destruct (Z.ltb_spec i 0); split.
  - discriminate.
  - intros [? _]. lia.
  - auto with zarith.
  - tauto.
Qed.

Lemma arr_get_set {A} (a : list (option A)) i j v :
  mjoin (arr_get (arr_set a i v) j)
  = if (j =? i) && (0 <=? i) then v else mjoin (arr_get a j).
Proof.
  unfold arr_set. destruct (Z.ltb_spec i 0) as [Hi|Hi].
  { replace (0 <=? i) with false by (symmetry; apply Z.leb_gt; lia).
    rewrite andb_false_r. reflexivity. }
  replace (0 <=? i) with true by (symmetry; apply Z.leb_le; lia).
  rewrite andb_true_r. unfold arr_get.
  destruct (Z.ltb_spec j 0) as [Hj|Hj].
  { replace (j =? i) with false by (symmetry; apply Z.eqb_neq; lia).
    reflexivity. }
  destruct (Z.eqb_spec j i) as [->|Hne].
  - destruct (Nat.ltb_spec (Z.to_nat i) (length a)) as [Hlt|Hge].
    + rewrite list_lookup_insert_eq by exact Hlt. reflexivity.
    + rewrite lookup_app_r by exact Hge.
      rewrite lookup_app_r by (rewrite length_replicate; lia).
      rewrite length_replicate.
      replace (_ - _ - _)%nat with 0%nat by lia. reflexivity.
  - assert (Z.to_nat i <> Z.to_nat j) by lia.
    destruct (Nat.ltb_spec (Z.to_nat i) (length a)) as [Hlt|Hge].
    + rewrite list_lookup_insert_ne by assumption. reflexivity.
    + destruct (Nat.lt_ge_cases (Z.to_nat j) (length a)) as [Hj'|Hj'].
      * rewrite lookup_app_l by exact Hj'. reflexivity.
      * rewrite lookup_app_r by exact Hj'.
        rewrite (lookup_ge_None_2 a) by exact Hj'. simpl.
        destruct (Nat.lt_ge_cases (Z.to_nat j - length a)
                    (Z.to_nat i - length a)) as [Hk|Hk].
        -- rewrite lookup_app_l by (rewrite length_replicate; exact Hk).
           rewrite lookup_replicate_2 by exact Hk. reflexivity.
        -- rewrite lookup_app_r by (rewrite length_replicate; exact Hk).
           rewrite length_replicate.
           destruct (Z.to_nat j - length a - (Z.to_nat i - length a))%nat
             as [|k] eqn:Ek; [lia|]. reflexivity.
Qed.

Lemma countRow_app {A} (a b : list (option A)) :
  countRow (a ++ b) = (countRow a + countRow b)%nat.
Proof. unfold countRow. rewrite omap_app, length_app. reflexivity. Qed.

Lemma countRow_replicate_None {A} n :
  countRow (replicate n (@None A)) = 0%nat.
Proof. induction n; simpl; auto. Qed.

Lemma countRow_insert {A} (a : list (option A)) n v old :
  a !! n = Some old ->
  (countRow (<[n := v]> a) + occ old = countRow a + occ v)%nat.
Proof.
  intros H. rewrite insert_take_drop by (eapply lookup_lt_Some; eauto).
  rewrite <- (take_drop_middle a n old H) at 3.
  rewrite !countRow_app.
  change (v :: drop (S n) a) with ([v] ++ drop (S n) a).
  change (old :: drop (S n) a) with ([old] ++ drop (S n) a).
  rewrite !countRow_app.
  assert (forall x : option A, countRow [x] = occ x) as E
      by (intros []; reflexivity).
  rewrite !E. lia.
Qed.

Lemma countRow_arr_set {A} (a : list (option A)) i v :
  0 <= i ->
  (countRow (arr_set a i v) + occ (mjoin (arr_get a i))
   = countRow a + occ v)%nat.
Proof.
  intros Hi. unfold arr_set, arr_get.
  replace (i <? 0) with false by (symmetry; apply Z.ltb_ge; lia).
  destruct (Nat.ltb_spec (Z.to_nat i) (length a)) as [Hlt|Hge].
  - destruct (lookup_lt_is_Some_2 a _ Hlt) as [old Hold].
    rewrite Hold. simpl. apply countRow_insert. exact Hold.
  - rewrite (lookup_ge_None_2 a) by exact Hge. simpl.
    rewrite !countRow_app, countRow_replicate_None.
    destruct v; unfold countRow at 2; simpl; lia.
Qed.

Lemma cell_Ok {A} (board : list (list (option A))) r c x :
  cell board r c = Ok x <->
  is_Some (arr_get board r) /\ pieceAt board (mkPos r c) = x.
Proof.
  unfold cell, pieceAt. simpl. destruct (arr_get board r); simpl.
  - split; [intros [= <-]; eauto | intros [_ <-]; reflexivity].
  - split; [discriminate | intros [[? [=]] _]].
Qed.

Lemma setCell_Ok {A} (board : list (list (option A))) r c v :
  is_Some (arr_get board r) -> exists b, setCell board r c v = Ok b.
Proof. unfold setCell. intros [rw ->]. eauto. Qed.

Lemma setCell_length {A} (board b : list (list (option A))) r c v :
  setCell board r c v = Ok b -> length b = length board.
Proof.
  unfold setCell. destruct (arr_get board r); [|discriminate].
  intros [= <-]. apply length_insert.
Qed.

Lemma arr_get_is_Some {A} (a : list A) i :
  is_Some (arr_get a i) <-> 0 <= i < Z.of_nat (length a).
Proof.
  unfold arr_get. destruct (Z.ltb_spec i 0).
  - split; [intros [? [=]] | lia].
  - rewrite lookup_lt_is_Some. lia.
Qed.

Lemma setCell_rows {A} (board b : list (list (option A))) r c v r' :
  setCell board r c v = Ok b ->
  is_Some (arr_get b r') <-> is_Some (arr_get board r').
Proof.
  intros H. rewrite !arr_get_is_Some, (setCell_length _ _ _ _ _ H).
  reflexivity.
Qed.

Lemma arr_get_insert {A} (l : list A) r x y i :
  arr_get l r = Some y ->
  arr_get (<[Z.to_nat r := x]> l) i = if i =? r then Some x else arr_get l i.
Proof.
  intros Er. apply arr_get_Some in Er as [Hr Er]. unfold arr_get.
  destruct (Z.eqb_spec i r) as [->|Hne].
  - replace (r <? 0) with false by (symmetry; apply Z.ltb_ge; lia).
    apply list_lookup_insert_eq. eapply lookup_lt_Some; eauto.
  - destruct (Z.ltb_spec i 0); [reflexivity|].
    apply list_lookup_insert_ne. lia.
Qed.

Lemma pieceAt_setCell {A} (board b : list (list (option A))) r c v q :
  setCell board r c v = Ok b ->
  pieceAt b q
  = if (row q =? r) && (col q =? c) && (0 <=? c) then v
    else pieceAt board q.
Proof.
  unfold setCell. destruct (arr_get board r) as [rw|] eqn:Er; [|discriminate].
  intros [= <-]. unfold pieceAt. rewrite (arr_get_insert _ _ _ _ _ Er).
  destruct (Z.eqb_spec (row q) r) as [->|Hne]; simpl; [|reflexivity].
  rewrite Er. simpl. apply arr_get_set.
Qed.

Lemma countPieces_setCell {A} (board b : list (list (option A))) r c v :
  setCell board r c v = Ok b ->
  0 <= c ->
  (countPieces b + occ (pieceAt board (mkPos r c))
   = countPieces board + occ v)%nat.
Proof.
  unfold setCell, pieceAt. simpl.
  destruct (arr_get board r) as [rw|] eqn:Er; [|discriminate].
  intros [= <-] Hc. simpl. apply arr_get_Some in Er as [Hr Er].
  rewrite insert_take_drop by (eapply lookup_lt_Some; eauto).
  rewrite <- (take_drop_middle board _ rw Er) at 3.
  unfold countPieces. rewrite !sum_list_with_app. simpl.
  pose proof (countRow_arr_set rw c v Hc). lia.
Qed.

Lemma cloneBoard_id board : cloneBoard board = board.
Proof.
  unfold cloneBoard. rewrite <- (map_id board) at 2.
  apply map_ext. intros rw. rewrite <- (map_id rw) at 2.
  apply map_ext. intros [[]|]; reflexivity.
Qed.

Lemma Position_eqb_eq a b : Position_eqb a b = true <-> a = b.
Proof.
  unfold Position_eqb. destruct a, b. simpl.
  rewrite andb_true_iff, !Z.eqb_eq. split; [intros [-> ->]|intros [= -> ->]];
    auto.
Qed.

Lemma Position_eqb_refl a : Position_eqb a a = true.
Proof. apply Position_eqb_eq. reflexivity. Qed.

Lemma Position_eqb_neq a b : Position_eqb a b = false <-> a <> b.
Proof.
  rewrite <- Position_eqb_eq. destruct (Position_eqb a b); split; congruence.
Qed.

Lemma Player_eqb_neq a b : Player_eqb a b = false <-> a <> b.
Proof. destruct a, b; simpl; split; congruence. Qed.

Lemma Player_eqb_other p : Player_eqb (otherPlayer p) p = false.
Proof. destruct p; reflexivity. Qed.

Lemma Player_eqb_refl p : Player_eqb p p = true.
Proof. destruct p; reflexivity. Qed.

(** ** The moves that [getValidMoves] generates *)

Lemma jumpStep_generated board pos piece d l :
  pieceAt board pos = Some piece ->
  In d (directions piece) ->
  jumpStep board pos piece d = Ok l ->
  Forall (fun m => generated board m /\ from m = pos) l.
Proof.
  intros Hp Hd. unfold jumpStep. destruct d as [dRow dCol].
  destruct (isValidPos _ _) eqn:Hv; [|intros [= <-]; constructor].
  intros H. inv_bind. apply cell_Ok in E as [Hrow Ht], E0 as [_ Hm].
  destruct x as [?|]; [inv_bind; constructor|].
  destruct x0 as [victim|]; [|inv_bind; constructor].
  destruct (Player_eqb _ _) eqn:Hpl; simpl in H; inv_bind; constructor;
    [|constructor].
  split; [|reflexivity].
  apply (gen_jump board pos piece (dRow, dCol) victim); auto.
  apply Player_eqb_neq. exact Hpl.
Qed.

Lemma slideStep_generated board pos piece d l :
  pieceAt board pos = Some piece ->
  In d (directions piece) ->
  slideStep board pos d = Ok l ->
  Forall (fun m => generated board m /\ from m = pos) l.
Proof.
  intros Hp Hd. unfold slideStep. destruct d as [dRow dCol].
  destruct (isValidPos _ _) eqn:Hv; [|intros [= <-]; constructor].
  intros H. inv_bind. apply cell_Ok in E as [Hrow Ht].
  destruct x as [?|]; inv_bind; constructor; [|constructor].
  split; [|reflexivity].
  apply (gen_slide board pos piece (dRow, dCol)); auto.
Qed.

Lemma forEachPush_Forall_In {A B} (P : B -> Prop) (f : A -> result (list B))
  xs ms :
  (forall x l, In x xs -> f x = Ok l -> Forall P l) ->
  forEachPush f xs = Ok ms -> Forall P ms.
Proof.
  intros Hf H. apply List.Forall_forall. intros m Hm.
  apply (forEachPush_In _ _ _ H) in Hm as (x & l & Hx & Hl & Hm).
  apply (Hf _ _ Hx) in Hl. rewrite List.Forall_forall in Hl. auto.
Qed.

Lemma getValidMoves_generated board pos flag ms :
  getValidMoves board pos flag = Ok ms ->
  Forall (fun m => generated board m /\ from m = pos) ms.
Proof.
  unfold getValidMoves. intros H. inv_bind.
  apply cell_Ok in E as [_ Hp]. destruct pos as [r c]. simpl in *.
  destruct x as [piece|]; [|inv_bind; constructor].
  inv_bind.
  assert (Forall (fun m => generated board m /\ from m = mkPos r c) x) as Hj.
  { eapply forEachPush_Forall_In; [|exact E].
    intros d l Hd. apply jumpStep_generated; auto. }
  destruct (_ && flag); [inv_bind; exact Hj|].
  destruct (_ || _); inv_bind; [|exact Hj].
  apply Forall_app. split; [exact Hj|].
  eapply forEachPush_Forall_In; [|exact E0].
  intros d l Hd. eapply slideStep_generated; eauto.
Qed.

Lemma directions_unit piece d :
  In d (directions piece) ->
  (fst d = 1 \/ fst d = -1) /\ (snd d = 1 \/ snd d = -1).
Proof.
  unfold directions. destruct (isKing piece), (player piece); simpl;
    intuition (subst; simpl; auto).
Qed.

Lemma isValidPos_spec r c :
  isValidPos r c = true <-> 0 <= r < 8 /\ 0 <= c < 8.
Proof.
  unfold isValidPos, BOARD_SIZE.
  rewrite !andb_true_iff, !Z.geb_le, !Z.ltb_lt. lia.
Qed.

(** ** The board after a move *)

Lemma pieceAt_setCell_pos {A} (board b : list (list (option A))) p v q :
  setCell board (row p) (col p) v = Ok b ->
  pieceAt b q
  = if Position_eqb q p && (0 <=? col p) then v else pieceAt board q.
Proof. intros H. apply (pieceAt_setCell _ _ _ _ _ q H). Qed.

Lemma pieceAt_col_neg {A} (board : list (list (option A))) q :
  col q < 0 -> pieceAt board q = None.
Proof.
  intros H. unfold pieceAt. destruct (arr_get board (row q)); simpl; auto.
  unfold arr_get. replace (col q <? 0) with true; auto.
  symmetry. apply Z.ltb_lt. exact H.
Qed.

Lemma pieceAt_Some_row {A} (board : list (list (option A))) q x :
  pieceAt board q = Some x ->
  is_Some (arr_get board (row q)) /\ 0 <= col q.
Proof.
  intros H. split.
  - unfold pieceAt in H. destruct (arr_get board (row q)); [eauto|discriminate].
  - destruct (Z.lt_ge_cases (col q) 0) as [Hc|Hc]; [|exact Hc].
    rewrite pieceAt_col_neg in H by exact Hc. discriminate.
Qed.

Lemma pieceAt_crownAt board pos q :
  pieceAt (crownAt board pos) q
  = if Position_eqb q pos then
      match pieceAt board pos with
      | Some p => Some {| player := player p; isKing := true |}
      | None => None
      end
    else pieceAt board q.
Proof.
  unfold crownAt. destruct (pieceAt board pos) as [p|] eqn:Hp.
  - destruct (pieceAt_Some_row _ _ _ Hp) as [Hrow Hc].
    destruct (setCell_Ok board _ (col pos)
                (Some {| player := player p; isKing := true |}) Hrow)
      as [b Hb].
    rewrite Hb, (pieceAt_setCell_pos _ _ _ _ q Hb).
    replace (0 <=? col pos) with true by (symmetry; apply Z.leb_le; lia).
    rewrite andb_true_r. reflexivity.
  - destruct (Position_eqb q pos) eqn:E; [|reflexivity].
    apply Position_eqb_eq in E. congruence.
Qed.

Lemma crownAt_length board pos : length (crownAt board pos) = length board.
Proof.
  unfold crownAt. destruct (pieceAt board pos); [|reflexivity].
  destruct (setCell _ _ _ _) eqn:E; [|reflexivity].
  eapply setCell_length; eauto.
Qed.

Lemma movePiece_inv board move nb :
  movePiece board move = Ok nb ->
  exists piece b1 b2 b3,
    pieceAt board (from move) = Some piece /\
    setCell board (row (to move)) (col (to move)) (Some piece) = Ok b1 /\
    setCell b1 (row (from move)) (col (from move)) None = Ok b2 /\
    match jumpedSquare move with
    | Some jp => setCell b2 (row jp) (col jp) None = Ok b3
    | None => b3 = b2
    end /\
    nb = if negb (isKing piece) && reachesKingRow piece (row (to move))
            && stillAtTo move
         then crownAt b3 (to move) else b3.
Proof.
  unfold movePiece. rewrite cloneBoard_id. intros H. inv_bind.
  apply cell_Ok in E as [_ Hp]. destruct x as [piece|]; [|discriminate].
  exists piece, x0, x1, x2. destruct (from move) as [fr fc] eqn:Ef.
  simpl in *. repeat split; auto.
  - unfold jumpedSquare. destruct (isJump move); [|inv_bind; reflexivity].
    destruct (jumpedPiece move); inv_bind; auto.
  - destruct (negb (isKing piece)); simpl; [|inv_bind; reflexivity].
    destruct (reachesKingRow _ _); simpl; inv_bind; reflexivity.
Qed.

Lemma movePiece_length board move nb :
  movePiece board move = Ok nb -> length nb = length board.
Proof.
  intros H. apply movePiece_inv in H
    as (piece & b1 & b2 & b3 & _ & H1 & H2 & H3 & ->).
  apply setCell_length in H1, H2.
  assert (length b3 = length board) as L.
  { destruct (jumpedSquare move); [apply setCell_length in H3|subst b3].
    - exact (eq_trans H3 (eq_trans H2 H1)).
    - exact (eq_trans H2 H1). }
  destruct (_ && _); [rewrite crownAt_length|]; exact L.
Qed.

Lemma landed_cases piece move :
  landed piece move
  = if negb (isKing piece) && reachesKingRow piece (row (to move))
    then {| player := player piece; isKing := true |} else piece.
Proof.
  unfold landed. destruct piece as [pl [|]]; simpl; [reflexivity|].
  destruct (reachesKingRow _ _); reflexivity.
Qed.

Lemma movePiece_pieceAt board move nb :
  movePiece board move = Ok nb ->
  stillAtTo move = true ->
  0 <= col (to move) ->
  forall q, pieceAt nb q = afterMove board move q.
Proof.
  intros H Hstill Hc q. apply movePiece_inv in H
    as (piece & b1 & b2 & b3 & Hp & H1 & H2 & H3 & ->).
  rewrite Hstill, andb_true_r.
  destruct (pieceAt_Some_row _ _ _ Hp) as [_ Hfc].
  assert (forall q, pieceAt b3 q = afterMove board move q
                     \/ (Position_eqb q (to move) = true /\
                         pieceAt b3 q = Some piece)) as Hb3.
  { clear q. intros q.
    assert (pieceAt b3 q
            = if match jumpedSquare move with
                 | Some jp => Position_eqb q jp && (0 <=? col jp)
                 | None => false
                 end
              then None else pieceAt b2 q) as ->.
    { destruct (jumpedSquare move) as [jp|]; [|subst; reflexivity].
      apply (pieceAt_setCell_pos _ _ _ _ q H3). }
    rewrite (pieceAt_setCell_pos _ _ _ _ q H2),
      (pieceAt_setCell_pos _ _ _ _ q H1).
    replace (0 <=? col (from move)) with true
      by (symmetry; apply Z.leb_le; lia).
    replace (0 <=? col (to move)) with true
      by (symmetry; apply Z.leb_le; lia).
    rewrite !andb_true_r. unfold afterMove, stillAtTo, jumpedSquare in *.
    apply andb_true_iff in Hstill as [Hne Hnj].
    apply negb_true_iff in Hne, Hnj.
    destruct (Position_eqb q (to move)) eqn:Eto.
    - apply Position_eqb_eq in Eto. subst q. rewrite Hne.
      right. split; [reflexivity|].
      destruct (isJump move); [|reflexivity].
      destruct (jumpedPiece move) as [jp|]; [|reflexivity].
      simpl in Hnj. rewrite Hnj. reflexivity.
    - left. destruct (isJump move); simpl.
      + destruct (jumpedPiece move) as [jp|]; simpl.
        * destruct (Position_eqb q jp) eqn:Ej; simpl.
          -- destruct (Z.leb_spec 0 (col jp)) as [Hj|Hj].
             ++ destruct (Position_eqb q (from move)); reflexivity.
             ++ apply Position_eqb_eq in Ej. subst q.
                rewrite (pieceAt_col_neg board jp) by lia.
                destruct (Position_eqb jp (from move)); reflexivity.
          -- reflexivity.
        * reflexivity.
      + reflexivity. }
  destruct (negb (isKing piece) && reachesKingRow piece (row (to move)))
    eqn:Epromote.
  - rewrite pieceAt_crownAt. destruct (Position_eqb q (to move)) eqn:Eto.
    + apply Position_eqb_eq in Eto. subst q.
      destruct (Hb3 (to move)) as [E|[_ E]].
      * unfold afterMove in E |- *. rewrite Position_eqb_refl in E |- *.
        rewrite Hp in E |- *. rewrite E, landed_cases, Epromote.
        reflexivity.
      * rewrite E. unfold afterMove. rewrite Position_eqb_refl, Hp.
        rewrite landed_cases, Epromote. reflexivity.
    + destruct (Hb3 q) as [E|[E _]]; [exact E|congruence].
  - destruct (Hb3 q) as [E|[Eto E]]; [exact E|].
    rewrite E. unfold afterMove. rewrite Eto, Hp, landed_cases, Epromote.
    reflexivity.
Qed.

Lemma step2_neq_pos pos d piece : In d (directions piece) -> step2 pos d <> pos.
Proof.
  intros Hd E. apply directions_unit in Hd as [Hr _].
  apply (f_equal row) in E. simpl in E. lia.
Qed.

Lemma step1_neq_pos pos d piece : In d (directions piece) -> step1 pos d <> pos.
Proof.
  intros Hd E. apply directions_unit in Hd as [Hr _].
  apply (f_equal row) in E. simpl in E. lia.
Qed.

Lemma step2_neq_step1 pos d piece :
  In d (directions piece) -> step2 pos d <> step1 pos d.
Proof.
  intros Hd E. apply directions_unit in Hd as [Hr _].
  apply (f_equal row) in E. simpl in E. lia.
Qed.

Lemma generated_facts board m :
  generated board m ->
  exists piece,
    pieceAt board (from m) = Some piece /\
    pieceAt board (to m) = None /\
    onBoard (to m) /\
    is_Some (arr_get board (row (to m))) /\
    stillAtTo m = true /\
    match jumpedSquare m with
    | Some jp =>
        isJump m = true /\
        (exists victim, pieceAt board jp = Some victim /\
                        player victim <> player piece) /\
        jp <> from m /\ jp <> to m
    | None => isJump m = false
    end.
Proof.
  intros [pos piece d Hp Hd Hon Hrow Ht | pos piece d victim Hp Hd Hon Hrow Ht
                                             Hv Hne];
    exists piece; unfold stillAtTo, jumpedSquare; simpl;
    repeat split; auto.
  - rewrite andb_true_r. apply negb_true_iff, Position_eqb_neq.
    eapply step1_neq_pos; eauto.
  - apply andb_true_iff. split; apply negb_true_iff, Position_eqb_neq.
    + eapply step2_neq_pos; eauto.
    + eapply step2_neq_step1; eauto.
  - eauto.
  - eapply step1_neq_pos; eauto.
  - intros E. symmetry in E. revert E. eapply step2_neq_step1; eauto.
Qed.

Lemma movePiece_generated board m :
  generated board m -> exists nb, movePiece board m = Ok nb.
Proof.
  intros G. destruct (generated_facts _ _ G)
    as (piece & Hp & Ht & Hon & Hrow & Hstill & Hj).
  unfold movePiece. rewrite cloneBoard_id.
  destruct (pieceAt_Some_row _ _ _ Hp) as [Hfrow _].
  assert (cell board (row (from m)) (col (from m)) = Ok (Some piece)) as ->.
  { apply cell_Ok. split; [exact Hfrow|]. destruct (from m); exact Hp. }
  simpl.
  destruct (setCell_Ok board _ (col (to m)) (Some piece) Hrow) as [b1 H1].
  rewrite H1. simpl.
  destruct (setCell_Ok b1 (row (from m)) (col (from m)) None) as [b2 H2].
  { apply (setCell_rows _ _ _ _ _ _ H1). exact Hfrow. }
  rewrite H2. simpl.
  assert (exists b3,
             (if isJump m
              then match jumpedPiece m with
                   | Some jp => setCell b2 (row jp) (col jp) None
                   | None => Ok b2
                   end
              else Ok b2) = Ok b3) as [b3 ->].
  { unfold jumpedSquare in Hj. destruct (isJump m); [|eauto].
    destruct (jumpedPiece m) as [jp|]; [|eauto].
    destruct Hj as (_ & (victim & Hv & _) & _).
    apply setCell_Ok.
    apply (setCell_rows _ _ _ _ _ _ H2), (setCell_rows _ _ _ _ _ _ H1).
    apply (pieceAt_Some_row _ _ _ Hv). }
  simpl. destruct (negb (isKing piece)); [|eauto].
  destruct (reachesKingRow _ _); eauto.
Qed.

Lemma onBoard_col pos : onBoard pos -> 0 <= col pos.
Proof. unfold onBoard. rewrite isValidPos_spec. lia. Qed.

Lemma countPieces_crownAt board pos :
  countPieces (crownAt board pos) = countPieces board.
Proof.
  unfold crownAt. destruct (pieceAt board pos) as [p|] eqn:Hp; [|reflexivity].
  destruct (setCell _ _ _ _) as [b|] eqn:Hb; [|reflexivity].
  destruct (pieceAt_Some_row _ _ _ Hp) as [_ Hc].
  pose proof (countPieces_setCell _ _ _ _ _ Hb Hc) as E.
  destruct pos as [r c]. simpl in *. rewrite Hp in E. simpl in E. lia.
Qed.

(** A generated move keeps the number of pieces, a generated jump takes
    one piece off the board. *)
Lemma countPieces_movePiece board m nb :
  generated board m ->
  movePiece board m = Ok nb ->
  (countPieces nb + (if isJump m then 1 else 0) = countPieces board)%nat.
Proof.
  intros G H. destruct (generated_facts _ _ G)
    as (piece & Hp & Ht & Hon & Hrow & Hstill & Hj).
  apply movePiece_inv in H
    as (piece' & b1 & b2 & b3 & Hp' & H1 & H2 & H3 & ->).
  rewrite Hp in Hp'. injection Hp' as <-.
  assert (forall c : bool,
             countPieces (if c then crownAt b3 (to m) else b3)
             = countPieces b3) as ->
      by (intros []; [apply countPieces_crownAt|reflexivity]).
  pose proof (countPieces_setCell _ _ _ _ _ H1 (onBoard_col _ Hon)) as E1.
  destruct (pieceAt_Some_row _ _ _ Hp) as [_ Hfc].
  pose proof (countPieces_setCell _ _ _ _ _ H2 Hfc) as E2.
  assert (to m <> from m) as Hne.
  { unfold stillAtTo in Hstill. apply andb_true_iff in Hstill as [Hs _].
    apply negb_true_iff, Position_eqb_neq in Hs. exact Hs. }
  assert (pieceAt b1 (from m) = Some piece) as Hb1.
  { rewrite (pieceAt_setCell_pos _ _ (to m) _ (from m) H1).
    replace (Position_eqb (from m) (to m)) with false; [exact Hp|].
    symmetry. apply Position_eqb_neq. congruence. }
  replace (mkPos (row (to m)) (col (to m))) with (to m) in E1
    by (destruct (to m); reflexivity).
  replace (mkPos (row (from m)) (col (from m))) with (from m) in E2
    by (destruct (from m); reflexivity).
  rewrite Ht in E1. rewrite Hb1 in E2. simpl in E1, E2.
  destruct (jumpedSquare m) as [jp|] eqn:Ej.
  - destruct Hj as (-> & (victim & Hv & _) & Hjf & Hjt).
    destruct (pieceAt_Some_row _ _ _ Hv) as [_ Hjc].
    pose proof (countPieces_setCell _ _ _ _ _ H3 Hjc) as E3.
    replace (mkPos (row jp) (col jp)) with jp in E3
      by (destruct jp; reflexivity).
    assert (pieceAt b2 jp = Some victim) as Hb2.
    { rewrite (pieceAt_setCell_pos _ _ (from m) _ jp H2),
        (pieceAt_setCell_pos _ _ (to m) _ jp H1).
      replace (Position_eqb jp (from m)) with false
        by (symmetry; apply Position_eqb_neq; exact Hjf).
      replace (Position_eqb jp (to m)) with false
        by (symmetry; apply Position_eqb_neq; exact Hjt).
      exact Hv. }
    rewrite Hb2 in E3. simpl in E3. lia.
  - subst b3. rewrite Hj. lia.
Qed.

(** ** [getValidMoves] does not throw on a board that has its rows *)

Lemma forEachPush_total {A B} (f : A -> result (list B)) xs :
  (forall x, In x xs -> exists l, f x = Ok l) ->
  exists ms, forEachPush f xs = Ok ms.
Proof.
  induction xs as [|x xs IH]; simpl; intros H; [eauto|].
  destruct (H x) as [l ->]; [auto|].
  destruct IH as [ms ->]; [auto|]. simpl. eauto.
Qed.

Lemma cell_total {A} (board : list (list (option A))) r c :
  hasAllRows board -> 0 <= r < 8 -> exists x, cell board r c = Ok x.
Proof.
  intros Hb Hr. unfold cell.
  destruct (proj2 (arr_get_is_Some board r)) as [rw ->]; [|eauto].
  unfold hasAllRows in Hb. rewrite Hb. lia.
Qed.

Lemma getValidMoves_total board pos flag :
  hasAllRows board -> 0 <= row pos < 8 ->
  exists ms, getValidMoves board pos flag = Ok ms.
Proof.
  intros Hb Hr. unfold getValidMoves.
  destruct (cell_total board (row pos) (col pos) Hb Hr) as [[piece|] ->];
    simpl; [|eauto].
  destruct (forEachPush_total (jumpStep board pos piece) (directions piece))
    as [js ->].
  { intros [dRow dCol] Hd. apply directions_unit in Hd as [Hd _].
    simpl in Hd. unfold jumpStep.
    destruct (isValidPos _ _) eqn:Hv; [|eauto].
    apply isValidPos_spec in Hv as [Hv _].
    destruct (cell_total board (row pos + dRow * 2) (col pos + dCol * 2) Hb)
      as [t ->]; [lia|].
    destruct (cell_total board (row pos + dRow) (col pos + dCol) Hb)
      as [mid ->]; [lia|].
    simpl. destruct t, mid; eauto. destruct (negb _); eauto. }
  simpl.
  destruct (forEachPush_total (slideStep board pos) (directions piece))
    as [ss Hss].
  { intros [dRow dCol] Hd. unfold slideStep.
    destruct (isValidPos _ _) eqn:Hv; [|eauto].
    apply isValidPos_spec in Hv as [Hv _].
    destruct (cell_total board (row pos + dRow) (col pos + dCol) Hb)
      as [t ->]; [lia|].
    simpl. destruct t; eauto. }
  destruct (_ && flag); [eauto|].
  destruct (_ || _); [|eauto]. rewrite Hss. simpl. eauto.
Qed.

(** ** Captures available to a piece *)

Lemma forEachPush_each {A B} (f : A -> result (list B)) xs ms :
  forEachPush f xs = Ok ms -> forall x, In x xs -> exists l, f x = Ok l.
Proof.
  revert ms. induction xs as [|x xs IH]; simpl; intros ms H y Hy; [tauto|].
  inv_bind. destruct Hy as [<-|Hy]; eauto.
Qed.

Lemma getValidMoves_jumps board pos flag ms :
  getValidMoves board pos flag = Ok ms ->
  exists piece js,
    (pieceAt board pos = Some piece /\
     forEachPush (jumpStep board pos piece) (directions piece) = Ok js /\
     List.filter isJump ms = js)
    \/ (pieceAt board pos = None /\ ms = []).
Proof.
  unfold getValidMoves. intros H. inv_bind. apply cell_Ok in E as [_ E].
  replace (mkPos (row pos) (col pos)) with pos in E by (destruct pos; auto).
  destruct x as [piece|]; [|inv_bind; exists (man red), []; auto].
  inv_bind. exists piece, x. left. repeat split; auto.
  pose proof (forEachPush_Forall _ _ _ _ (jumpStep_isJump board pos piece) E0)
    as Hj.
  assert (List.filter isJump x = x) as Hx.
  { destruct (filter_isJump_jumps x [] Hj (List.Forall_nil _)) as [Hx _].
    rewrite app_nil_r in Hx. exact Hx. }
  destruct (_ && flag); [inv_bind; exact Hx|].
  destruct (_ || _); inv_bind; [|exact Hx].
  pose proof (forEachPush_Forall _ _ _ _ (slideStep_isJump board pos) E1)
    as Hs.
  apply (filter_isJump_jumps _ _ Hj Hs).
Qed.

Lemma canCapture_iff board pos flag ms :
  getValidMoves board pos flag = Ok ms ->
  canCapture board pos <-> List.filter isJump ms <> [].
Proof.
  intros H. split.
  - intros (piece & d & victim & Hp & Hd & Hon & Ht & Hv & Hne).
    destruct (getValidMoves_jumps _ _ _ _ H)
      as (piece' & js & [(Hp' & Hjs & ->) | (Hp' & _)]); [|congruence].
    rewrite Hp in Hp'. injection Hp' as <-.
    destruct (forEachPush_each _ _ _ Hjs d Hd) as [l Hl].
    assert (l <> []) as Hnil.
    { revert Hl. unfold jumpStep. destruct d as [dRow dCol].
      unfold onBoard in Hon. simpl in Hon. rewrite Hon.
      intros Hl. inv_bind. apply cell_Ok in E as [_ E], E0 as [_ E0].
      unfold step2 in Ht. unfold step1 in Hv. simpl in Ht, Hv.
      rewrite Ht in E. rewrite Hv in E0. subst x x0.
      replace (Player_eqb (player victim) (player piece)) with false in Hl
        by (symmetry; apply Player_eqb_neq; exact Hne).
      simpl in Hl. inv_bind. discriminate. }
    destruct l as [|m l]; [congruence|]. intros ->.
    apply (proj2 (forEachPush_In _ _ _ Hjs m)).
    exists d, (m :: l). simpl. auto.
  - intros Hne. destruct (List.filter isJump ms) as [|m l] eqn:Ef;
      [congruence|].
    assert (In m (List.filter isJump ms)) as Hm by (rewrite Ef; left; auto).
    apply filter_In in Hm as [Hm Hj].
    apply getValidMoves_generated in H. rewrite List.Forall_forall in H.
    destruct (H m Hm) as [G Hfrom].
    destruct G as [pos' piece d Hp Hd Hon Hrow Ht
                  | pos' piece d victim Hp Hd Hon Hrow Ht Hv Hpl];
      simpl in *; [discriminate|]. subst pos'.
    exists piece, d, victim. auto 10.
Qed.

(** ** [simulateMove] *)

Lemma simulateMove_inv board m p s :
  simulateMove board m p = Ok s ->
  movePiece board m = Ok (newBoard s) /\
  if isJump m then
    exists ms,
      getValidMoves (newBoard s) (to m) true = Ok ms /\
      if (0 <? length (List.filter isJump ms))%nat
      then nextTurn s = p /\ nextMustJumpFrom s = Some (to m)
      else nextTurn s = otherPlayer p /\ nextMustJumpFrom s = None
  else nextTurn s = otherPlayer p /\ nextMustJumpFrom s = None.
Proof.
  unfold simulateMove. intros H. inv_bind. rewrite E.
  destruct (isJump m); [|inv_bind; auto].
  inv_bind. destruct (0 <? _)%nat eqn:El; inv_bind; simpl;
    (split; [reflexivity|]); exists x0; rewrite El; auto.
Qed.

Lemma simulateMove_total board m p nb :
  hasAllRows board ->
  movePiece board m = Ok nb ->
  onBoard (to m) ->
  exists s, simulateMove board m p = Ok s /\ newBoard s = nb.
Proof.
  intros Hb Hnb Hon. unfold simulateMove. rewrite Hnb. simpl.
  destruct (isJump m); [|eauto].
  destruct (getValidMoves_total nb (to m) true) as [ms ->].
  - unfold hasAllRows in *.
    exact (eq_trans (movePiece_length _ _ _ Hnb) Hb).
  - unfold onBoard in Hon. apply isValidPos_spec in Hon. tauto.
  - simpl. destruct (0 <? _)%nat; eauto.
Qed.

Lemma length_pos_iff {A} (l : list A) : (0 <? length l)%nat = true <-> l <> [].
Proof.
  destruct l; split; intros H; try reflexivity; try discriminate.
  exfalso. apply H. reflexivity.
Qed.



(** ** [evaluateBoard] *)

Lemma evaluateLoop_opp board p sqs a b :
  a = - b ->
  evaluateLoop board p sqs a
  = (v <- evaluateLoop board (otherPlayer p) sqs b ;; Ok (- v)).
Proof.
  revert a b. induction sqs as [|[r c] sqs IH]; simpl; intros a b ->.
  - reflexivity.
  - destruct (cell board r c) as [[piece|]|]; simpl; auto.
    destruct p, (player piece); simpl; apply IH; lia.
Qed.

(** C9.  The static evaluation is antisymmetric in the perspective
    player: on every board [evaluateBoard(board, red)] is the negation of
    [evaluateBoard(board, black)] (and one throws exactly when the other
    does). *)
Theorem evaluateBoard_antisymmetric board :
  evaluateBoard board red
  = (v <- evaluateBoard board black ;; Ok (- v)).
Proof. apply (evaluateLoop_opp board red squares 0 0). reflexivity. Qed.

Lemma pieceValue_bound piece r c : 0 <= r <= 7 -> 0 < pieceValue piece r c <= 37.
Proof.
  intros Hr. unfold pieceValue.
  destruct (isKing piece), (player piece);
    repeat match goal with
      | |- context [if ?b then _ else _] => destruct b eqn:?
      end;
    rewrite ?andb_true_iff, ?Z.eqb_eq, ?Z.geb_le, ?Z.leb_le in *; lia.
Qed.

Lemma evaluateLoop_bound board p sqs acc v :
  Forall (fun sq => 0 <= fst sq <= 7) sqs ->
  evaluateLoop board p sqs acc = Ok v ->
  Z.abs (v - acc) <= 37 * Z.of_nat (length sqs).
Proof.
  intros Hs. revert acc. induction Hs as [|[r c] sqs Hr Hs IH]; simpl;
    intros acc H.
  - inv_bind. lia.
  - inv_bind. destruct x as [piece|]; [|apply IH in H; lia].
    pose proof (pieceValue_bound piece r c Hr).
    destruct (Player_eqb _ _); apply IH in H; lia.
Qed.

Lemma squares_rows : Forall (fun sq => 0 <= fst sq <= 7) squares.
Proof. repeat constructor; simpl; lia. Qed.

Lemma evaluateBoard_bound board p v :
  evaluateBoard board p = Ok v -> -10000 < v < 10000.
Proof.
  intros H. apply (evaluateLoop_bound _ _ _ _ _ squares_rows) in H.
  change (length squares) with 64%nat in H. lia.
Qed.

(** ** A move from an empty square *)

Lemma movePiece_empty_from board m :
  pieceAt board (from m) = None -> movePiece board m = TypeError.
Proof.
  intros Hp. unfold movePiece. rewrite cloneBoard_id.
  destruct (cell board _ _) as [x|] eqn:E; [|reflexivity]. simpl.
  apply cell_Ok in E as [_ E].
  replace (mkPos _ _) with (from m) in E by (destruct (from m); auto).
  rewrite Hp in E. subst x.
  destruct (setCell board _ _ _) as [b1|]; [|reflexivity]. simpl.
  destruct (setCell b1 _ _ _) as [b2|]; [|reflexivity]. simpl.
  destruct (isJump m); [destruct (jumpedPiece m)|]; simpl; auto.
  destruct (setCell b2 _ _ _); reflexivity.
Qed.

(** ** The move list of a player *)

Lemma filter_Forall {A} (P : A -> Prop) (f : A -> bool) l :
  Forall P l -> Forall P (List.filter f l).
Proof.
  rewrite !List.Forall_forall. intros H x Hx.
  apply filter_In in Hx as [Hx _]. auto.
Qed.

Lemma filter_isJump_Forall (l : list Move) :
  Forall (fun m => isJump m = true) (List.filter isJump l).
Proof.
  apply List.Forall_forall. intros m Hm. apply filter_In in Hm. tauto.
Qed.

Lemma possibleMoves_generated board p mjf ms :
  possibleMoves board p mjf = Ok ms -> Forall (generated board) ms.
Proof.
  unfold possibleMoves. destruct mjf as [q|]; intros H; inv_bind.
  - apply filter_Forall. apply getValidMoves_generated in E.
    eapply Forall_impl; [exact E|]. simpl. tauto.
  - eapply forEachPush_Forall; [|exact H].
    intros [r c] l Hl. simpl in Hl. inv_bind.
    destruct x0 as [piece|]; [|inv_bind; constructor].
    destruct (Player_eqb _ _); [|inv_bind; constructor].
    inv_bind. apply getValidMoves_generated in E1.
    assert (Forall (generated board) x0) as G
        by (eapply Forall_impl; [exact E1|]; simpl; tauto).
    destruct x; [apply filter_Forall|]; exact G.
Qed.

(** Under the mandatory-jump rule the list holds jumps only. *)
Lemma possibleMoves_jumps board p mjf ms :
  hasAnyJumps board p = Ok true \/ is_Some mjf ->
  possibleMoves board p mjf = Ok ms ->
  Forall (fun m => isJump m = true) ms.
Proof.
  unfold possibleMoves. intros Hj H. destruct mjf as [q|].
  - inv_bind. apply filter_isJump_Forall.
  - destruct Hj as [Hj|[? [=]]]. rewrite Hj in H. cbn [bind] in H.
    eapply forEachPush_Forall; [|exact H].
    intros [r c] l Hl. simpl in Hl. inv_bind.
    destruct x as [piece|]; [|inv_bind; constructor].
    destruct (Player_eqb _ _); [|inv_bind; constructor].
    inv_bind. apply filter_isJump_Forall.
Qed.

Lemma anySquare_total f sqs :
  (forall r c, In (r, c) sqs -> exists b, f r c = Ok b) ->
  exists b, anySquare f sqs = Ok b.
Proof.
  induction sqs as [|[r c] sqs IH]; simpl; intros H; [eauto|].
  destruct (H r c) as [b ->]; [auto|]. simpl.
  destruct b; [eauto|]. apply IH. auto.
Qed.

Lemma squares_In r c : In (r, c) squares -> 0 <= r < 8.
Proof.
  intros H. pose proof squares_rows as S.
  rewrite List.Forall_forall in S. apply S in H. simpl in H. lia.
Qed.

Lemma hasAnyJumps_total board p :
  hasAllRows board -> exists b, hasAnyJumps board p = Ok b.
Proof.
  intros Hb. apply anySquare_total. intros r c Hs.
  apply squares_In in Hs.
  destruct (cell_total board r c Hb Hs) as [[piece|] ->]; simpl; [|eauto].
  destruct (Player_eqb _ _); [|eauto].
  destruct (getValidMoves_total board (mkPos r c) false Hb Hs) as [ms ->].
  simpl. eauto.
Qed.

Lemma possibleMoves_total board p mjf :
  hasAllRows board -> rowOnBoard mjf ->
  exists ms, possibleMoves board p mjf = Ok ms.
Proof.
  intros Hb Hq. unfold possibleMoves. destruct mjf as [q|].
  - destruct (getValidMoves_total board q true Hb Hq) as [ms ->].
    simpl. eauto.
  - destruct (hasAnyJumps_total board p Hb) as [g ->]. cbn [bind].
    apply forEachPush_total. intros [r c] Hs. apply squares_In in Hs.
    destruct (cell_total board r c Hb Hs) as [[piece|] ->]; simpl; [|eauto].
    destruct (Player_eqb _ _); [|eauto].
    destruct (getValidMoves_total board (mkPos r c) false Hb Hs) as [ms ->].
    simpl. eauto.
Qed.

Lemma evaluateBoard_total board p :
  hasAllRows board -> exists v, evaluateBoard board p = Ok v.
Proof.
  intros Hb. unfold evaluateBoard. generalize 0 as acc.
  pose proof squares_rows as S.
  induction S as [|[r c] sqs Hr S IH]; simpl; intros acc; [eauto|].
  destruct (cell_total board r c Hb) as [[piece|] ->]; simpl in *;
    [lia| |]; auto.
  destruct (Player_eqb _ _); auto.
Qed.

(** ** What [simulateMove] hands to the recursive call *)

Lemma simulateMove_generated board m p s :
  generated board m ->
  simulateMove board m p = Ok s ->
  length (newBoard s) = length board /\
  rowOnBoard (nextMustJumpFrom s) /\
  (countPieces (newBoard s) <= countPieces board)%nat /\
  (Player_eqb (nextTurn s) p = true ->
   (countPieces (newBoard s) < countPieces board)%nat).
Proof.
  intros G H. destruct (simulateMove_inv _ _ _ _ H) as [Hnb Hk].
  pose proof (countPieces_movePiece _ _ _ G Hnb) as Hc.
  destruct (generated_facts _ _ G) as (_ & _ & _ & Hon & _).
  unfold onBoard in Hon. apply isValidPos_spec in Hon as [Hon _].
  split; [apply (movePiece_length _ _ _ Hnb)|].
  destruct (isJump m).
  - destruct Hk as (ms & _ & Hk). destruct (0 <? _)%nat.
    + destruct Hk as [-> ->]. simpl. repeat split; auto; lia.
    + destruct Hk as [-> ->]. rewrite Player_eqb_other. simpl.
      repeat split; auto; try lia; try discriminate.
  - destruct Hk as [-> ->]. rewrite Player_eqb_other. simpl.
    repeat split; auto; try lia; try discriminate.
Qed.

Lemma simulateMove_generated_total board m p :
  hasAllRows board -> generated board m ->
  exists s, simulateMove board m p = Ok s.
Proof.
  intros Hb G. destruct (movePiece_generated _ _ G) as [nb Hnb].
  destruct (generated_facts _ _ G) as (_ & _ & _ & Hon & _).
  destruct (simulateMove_total _ _ p _ Hb Hnb Hon) as (s & Hs & _). eauto.
Qed.

(** ** [minimax] returns *)

Lemma minimax_S fuel board depth alpha beta mx p mjf :
  minimax (S fuel) board depth alpha beta mx p mjf
  = if depth =? 0 then
      Some (score <- evaluateBoard board p ;; Ok (Fin score))
    else
      match possibleMoves board (sideToMove mx p) mjf with
      | TypeError => Some TypeError
      | Ok moves =>
          if (length moves =? 0)%nat then
            Some (Ok (Fin (if mx then -10000 else 10000)))
          else if mx then
            maxLoop (fun b d a be m mj => minimax fuel b d a be m p mj)
              board depth p moves alpha beta NegInf
          else
            minLoop (fun b d a be m mj => minimax fuel b d a be m p mj)
              board depth (otherPlayer p) moves alpha beta PosInf
      end.
Proof. reflexivity. Qed.

Lemma num_max_Fin acc z : acc <> PosInf -> exists z', num_max acc (Fin z) = Fin z'.
Proof. destruct acc; simpl; intros H; eauto. congruence. Qed.

Lemma num_min_Fin acc z : acc <> NegInf -> exists z', num_min acc (Fin z) = Fin z'.
Proof. destruct acc; simpl; intros H; eauto. congruence. Qed.

Section LoopsReturn.
Variable recur :
  BoardState -> Z -> num -> num -> bool -> option Position -> search.
Variables (board : BoardState) (depth : Z) (mover : Player).
(** What makes the results scores: the board has its rows. *)
Variable G : Prop.

Lemma maxLoop_returns moves :
  (forall m s, In m moves -> simulateMove board m mover = Ok s ->
     forall a b, exists r,
       recur (newBoard s)
         (if Player_eqb (nextTurn s) mover then depth else depth - 1) a b
         (if Player_eqb (nextTurn s) mover then true else false)
         (nextMustJumpFrom s) = Some r /\ (G -> finite r)) ->
  (G -> forall m, In m moves -> exists s, simulateMove board m mover = Ok s) ->
  forall alpha beta acc,
  exists r, maxLoop recur board depth mover moves alpha beta acc = Some r /\
            (G -> (moves <> [] /\ acc <> PosInf) \/ finite (Ok acc) ->
             finite r).
Proof.
  induction moves as [|m moves IH]; intros Hrec Hsim alpha beta acc; simpl.
  - eexists. split; [reflexivity|].
    intros _ [[H _]|H]; [congruence|exact H].
  - destruct (simulateMove board m mover) as [s|] eqn:Es.
    + destruct (Hrec m s (or_introl eq_refl) Es alpha beta)
        as (r0 & -> & Hfin).
      assert (G -> (m :: moves <> [] /\ acc <> PosInf) \/ finite (Ok acc) ->
              forall e, r0 = Ok e -> finite (Ok (num_max acc e))) as Hstep.
      { intros g Hacc e ->. destruct (Hfin g) as [z [= ->]].
        destruct (num_max_Fin acc z) as [z' ->]; [|exists z'; auto].
        destruct Hacc as [[_ H]|[z' [= ->]]]; [exact H|discriminate]. }
      destruct r0 as [e|].
      * destruct (num_leb _ _).
        -- eexists. split; [reflexivity|]. intros g Hacc.
           apply (Hstep g Hacc e eq_refl).
        -- destruct (IH (fun m' s' Hm' => Hrec m' s' (or_intror Hm'))
                       (fun g m' Hm' => Hsim g m' (or_intror Hm'))
                       (num_max alpha e) beta (num_max acc e))
             as (r & Hr & Hf).
           exists r. split; [exact Hr|]. intros g Hacc. apply (Hf g).
           right. apply (Hstep g Hacc e eq_refl).
      * eexists. split; [reflexivity|]. intros g _. exact (Hfin g).
    + eexists. split; [reflexivity|]. intros g _.
      destruct (Hsim g m (or_introl eq_refl)) as [s Hs]. congruence.
Qed.

Lemma minLoop_returns moves :
  (forall m s, In m moves -> simulateMove board m mover = Ok s ->
     forall a b, exists r,
       recur (newBoard s)
         (if Player_eqb (nextTurn s) mover then depth else depth - 1) a b
         (if Player_eqb (nextTurn s) mover then false else true)
         (nextMustJumpFrom s) = Some r /\ (G -> finite r)) ->
  (G -> forall m, In m moves -> exists s, simulateMove board m mover = Ok s) ->
  forall alpha beta acc,
  exists r, minLoop recur board depth mover moves alpha beta acc = Some r /\
            (G -> (moves <> [] /\ acc <> NegInf) \/ finite (Ok acc) ->
             finite r).
Proof.
  induction moves as [|m moves IH]; intros Hrec Hsim alpha beta acc; simpl.
  - eexists. split; [reflexivity|].
    intros _ [[H _]|H]; [congruence|exact H].
  - destruct (simulateMove board m mover) as [s|] eqn:Es.
    + destruct (Hrec m s (or_introl eq_refl) Es alpha beta)
        as (r0 & -> & Hfin).
      assert (G -> (m :: moves <> [] /\ acc <> NegInf) \/ finite (Ok acc) ->
              forall e, r0 = Ok e -> finite (Ok (num_min acc e))) as Hstep.
      { intros g Hacc e ->. destruct (Hfin g) as [z [= ->]].
        destruct (num_min_Fin acc z) as [z' ->]; [|exists z'; auto].
        destruct Hacc as [[_ H]|[z' [= ->]]]; [exact H|discriminate]. }
      destruct r0 as [e|].
      * destruct (num_leb _ _).
        -- eexists. split; [reflexivity|]. intros g Hacc.
           apply (Hstep g Hacc e eq_refl).
        -- destruct (IH (fun m' s' Hm' => Hrec m' s' (or_intror Hm'))
                       (fun g m' Hm' => Hsim g m' (or_intror Hm'))
                       alpha (num_min beta e) (num_min acc e))
             as (r & Hr & Hf).
           exists r. split; [exact Hr|]. intros g Hacc. apply (Hf g).
           right. apply (Hstep g Hacc e eq_refl).
      * eexists. split; [reflexivity|]. intros g _. exact (Hfin g).
    + eexists. split; [reflexivity|]. intros g _.
      destruct (Hsim g m (or_introl eq_refl)) as [s Hs]. congruence.
Qed.
End LoopsReturn.

Lemma searchFuel_step depth board nb fuel (cont : bool) :
  0 <= depth -> depth <> 0 ->
  (searchFuel depth board <= S fuel)%nat ->
  (countPieces nb <= countPieces board)%nat ->
  (cont = true -> (countPieces nb < countPieces board)%nat) ->
  0 <= (if cont then depth else depth - 1) /\
  (searchFuel (if cont then depth else depth - 1) nb <= fuel)%nat.
Proof.
  unfold searchFuel. intros Hd Hd0 Hf Hle Hlt.
  destruct cont.
  - specialize (Hlt eq_refl). split; [lia|]. nia.
  - split; [lia|].
    replace (Z.to_nat (depth - 1)) with (Z.to_nat depth - 1)%nat by lia.
    assert (1 <= Z.to_nat depth)%nat by lia. nia.
Qed.

Lemma minimax_returns fuel :
  forall board depth alpha beta mx p mjf,
    0 <= depth ->
    (searchFuel depth board <= fuel)%nat ->
    exists r,
      minimax fuel board depth alpha beta mx p mjf = Some r /\
      (hasAllRows board /\ rowOnBoard mjf -> finite r).
Proof.
  induction fuel as [|fuel IH]; intros board depth alpha beta mx p mjf Hd Hf.
  { unfold searchFuel in Hf. lia. }
  rewrite minimax_S. destruct (Z.eqb_spec depth 0) as [Hd0|Hd0].
  { eexists. split; [reflexivity|]. intros [Hb _].
    destruct (evaluateBoard_total board p Hb) as [v ->]. exists v. auto. }
  destruct (possibleMoves board (sideToMove mx p) mjf) as [ms|] eqn:Ems.
  2:{ eexists. split; [reflexivity|]. intros [Hb Hq].
      destruct (possibleMoves_total board (sideToMove mx p) mjf Hb Hq)
        as [ms Hms]. congruence. }
  destruct (length ms =? 0)%nat eqn:El.
  { eexists. split; [reflexivity|]. intros _. eexists. reflexivity. }
  assert (ms <> []) as Hne by (intros ->; discriminate El).
  pose proof (possibleMoves_generated _ _ _ _ Ems) as Hgen.
  rewrite List.Forall_forall in Hgen.
  assert (forall mover m s, In m ms -> simulateMove board m mover = Ok s ->
            forall (nm : bool) a b, exists r,
              minimax fuel (newBoard s)
                (if Player_eqb (nextTurn s) mover then depth else depth - 1)
                a b nm p (nextMustJumpFrom s) = Some r /\
              (hasAllRows board /\ rowOnBoard mjf -> finite r)) as Hrec.
  { intros mover m s Hm Hs nm a b.
    destruct (simulateMove_generated _ _ _ _ (Hgen m Hm) Hs)
      as (Hlen & Hrow & Hle & Hlt).
    destruct (searchFuel_step depth board (newBoard s) fuel
                (Player_eqb (nextTurn s) mover) Hd Hd0 Hf Hle Hlt)
      as [Hd' Hf'].
    destruct (IH (newBoard s) _ a b nm p (nextMustJumpFrom s) Hd' Hf')
      as (r & Hr & Hfin).
    exists r. split; [exact Hr|]. intros [Hb _]. apply Hfin.
    split; [|exact Hrow]. unfold hasAllRows in *. exact (eq_trans Hlen Hb). }
  assert (forall mover, hasAllRows board /\ rowOnBoard mjf ->
            forall m, In m ms -> exists s, simulateMove board m mover = Ok s)
    as Hsim.
  { intros mover [Hb _] m Hm.
    apply simulateMove_generated_total; auto. }
  destruct mx.
  - destruct (maxLoop_returns
                (fun b d a be m mj => minimax fuel b d a be m p mj)
                board depth p (hasAllRows board /\ rowOnBoard mjf) ms)
      with (alpha := alpha) (beta := beta) (acc := NegInf)
      as (r & Hr & Hfin).
    + intros m s Hm Hs a b.
      destruct (Player_eqb (nextTurn s) p) eqn:E;
        specialize (Hrec p m s Hm Hs); rewrite E in Hrec; apply Hrec.
    + apply Hsim.
    + exists r. split; [exact Hr|]. intros g. apply (Hfin g).
      left. split; [exact Hne|discriminate].
  - destruct (minLoop_returns
                (fun b d a be m mj => minimax fuel b d a be m p mj)
                board depth (otherPlayer p)
                (hasAllRows board /\ rowOnBoard mjf) ms)
      with (alpha := alpha) (beta := beta) (acc := PosInf)
      as (r & Hr & Hfin).
    + intros m s Hm Hs a b.
      destruct (Player_eqb (nextTurn s) (otherPlayer p)) eqn:E;
        specialize (Hrec (otherPlayer p) m s Hm Hs); rewrite E in Hrec;
        apply Hrec.
    + apply Hsim.
    + exists r. split; [exact Hr|]. intros g. apply (Hfin g).
      left. split; [exact Hne|discriminate].
Qed.

(** ** More fuel does not change a result *)

Section LoopsMono.
Variables recur recur' :
  BoardState -> Z -> num -> num -> bool -> option Position -> search.
Hypothesis recur_mono :
  forall b d a be m mj r, recur b d a be m mj = Some r ->
                          recur' b d a be m mj = Some r.
Variables (board : BoardState) (depth : Z) (mover : Player).

Lemma maxLoop_mono moves alpha beta acc r :
  maxLoop recur board depth mover moves alpha beta acc = Some r ->
  maxLoop recur' board depth mover moves alpha beta acc = Some r.
Proof.
  revert alpha beta acc. induction moves as [|m moves IH]; simpl;
    intros alpha beta acc H; [exact H|].
  destruct (simulateMove board m mover) as [s|]; [|exact H].
  destruct (recur _ _ _ _ _ _) as [r0|] eqn:E; [|discriminate].
  rewrite (recur_mono _ _ _ _ _ _ _ E).
  destruct r0 as [e|]; [|exact H].
  destruct (num_leb _ _); [exact H|]. apply IH. exact H.
Qed.

Lemma minLoop_mono moves alpha beta acc r :
  minLoop recur board depth mover moves alpha beta acc = Some r ->
  minLoop recur' board depth mover moves alpha beta acc = Some r.
Proof.
  revert alpha beta acc. induction moves as [|m moves IH]; simpl;
    intros alpha beta acc H; [exact H|].
  destruct (simulateMove board m mover) as [s|]; [|exact H].
  destruct (recur _ _ _ _ _ _) as [r0|] eqn:E; [|discriminate].
  rewrite (recur_mono _ _ _ _ _ _ _ E).
  destruct r0 as [e|]; [|exact H].
  destruct (num_leb _ _); [exact H|]. apply IH. exact H.
Qed.
End LoopsMono.

Lemma minimax_mono fuel :
  forall fuel' board depth alpha beta mx p mjf r,
    (fuel <= fuel')%nat ->
    minimax fuel board depth alpha beta mx p mjf = Some r ->
    minimax fuel' board depth alpha beta mx p mjf = Some r.
Proof.
  induction fuel as [|fuel IH];
    intros fuel' board depth alpha beta mx p mjf r Hle H; [discriminate|].
  destruct fuel' as [|fuel']; [lia|].
  rewrite minimax_S in *. destruct (depth =? 0); [exact H|].
  destruct (possibleMoves _ _ _) as [ms|]; [|exact H].
  destruct (length ms =? 0)%nat; [exact H|].
  destruct mx.
  - revert H. apply maxLoop_mono. intros. apply (IH fuel'); [lia|auto].
  - revert H. apply minLoop_mono. intros. apply (IH fuel'); [lia|auto].
Qed.

(** ** A search that never returns *)

Lemma minimax_first_child fuel board depth alpha beta mx p mjf m rest s :
  depth <> 0 ->
  possibleMoves board (sideToMove mx p) mjf = Ok (m :: rest) ->
  simulateMove board m (sideToMove mx p) = Ok s ->
  minimax fuel (newBoard s)
    (if Player_eqb (nextTurn s) (sideToMove mx p) then depth else depth - 1)
    alpha beta
    (if mx then Player_eqb (nextTurn s) p
     else negb (Player_eqb (nextTurn s) (otherPlayer p)))
    p (nextMustJumpFrom s) = None ->
  minimax (S fuel) board depth alpha beta mx p mjf = None.
Proof.
  intros Hd Hms Hs Hrec. rewrite minimax_S.
  replace (depth =? 0) with false by (symmetry; apply Z.eqb_neq; exact Hd).
  rewrite Hms. simpl length. cbn [Nat.eqb].
  destruct mx; simpl in *; rewrite Hs.
  - destruct (Player_eqb (nextTurn s) p); simpl in Hrec; rewrite Hrec;
      reflexivity.
  - destruct (Player_eqb (nextTurn s) (otherPlayer p)); simpl in Hrec;
      rewrite Hrec; reflexivity.
Qed.

(** Why the statements below are for depths from 0 on, the only depths
    that the program searches at ([getAiMove] enters [minimax] at 1 to
    4, and the recursion counts down to 0, where it stops): [minimax]
    tests [depth === 0] only.  With a black king on (0,3) and a red king
    on (1,0), the first move of each list sends the black king to (1,2)
    and back and the red king to (0,1) and back; in the model, a search
    entered below 0 would follow these first moves for ever. *)
Lemma twoKings_diverge fuel :
  forall depth alpha beta,
    depth < 0 ->
    minimax fuel (twoKings (0, 3) (1, 0)) depth alpha beta true black None
    = None /\
    minimax fuel (twoKings (1, 2) (1, 0)) depth alpha beta false black None
    = None /\
    minimax fuel (twoKings (1, 2) (0, 1)) depth alpha beta true black None
    = None /\
    minimax fuel (twoKings (0, 3) (0, 1)) depth alpha beta false black None
    = None.
Proof.
  induction fuel as [|fuel IH]; intros depth alpha beta Hd; [auto|].
  assert (depth - 1 < 0) as Hd' by lia.
  destruct (IH (depth - 1) alpha beta Hd') as (H0 & H1 & H2 & H3).
  repeat split.
  - eapply minimax_first_child; [lia|reflexivity|reflexivity|exact H1].
  - eapply minimax_first_child; [lia|reflexivity|reflexivity|exact H2].
  - eapply minimax_first_child; [lia|reflexivity|reflexivity|exact H3].
  - eapply minimax_first_child; [lia|reflexivity|reflexivity|exact H0].
Qed.

(** C8.  [minimax] is total.  For every board, every depth (an integer
    from 0 on, as every depth of the search is), every alpha/beta pair,
    every maximizing flag and every [mustJumpFrom], [minimax] returns (a
    score or a thrown [TypeError]), with the same result for every
    amount of fuel from [searchFuel depth board] on.
    The recursion is bounded by the pair (depth, number of pieces): a
    recursive call that keeps the depth follows a jump, which takes one
    piece off the board, and no move adds a piece. *)
Theorem minimax_terminates board depth alpha beta mx p mjf :
  0 <= depth ->
  (exists r, forall fuel,
      (searchFuel depth board <= fuel)%nat ->
      minimax fuel board depth alpha beta mx p mjf = Some r) /\
  (forall mover ms m s,
      possibleMoves board mover mjf = Ok ms -> In m ms ->
      simulateMove board m mover = Ok s ->
      (countPieces (newBoard s) <= countPieces board)%nat /\
      (nextTurn s = mover ->
       isJump m = true /\
       (countPieces (newBoard s) < countPieces board)%nat)).
Proof.
  intros Hd. split.
  - destruct (minimax_returns (searchFuel depth board) board depth alpha beta
                mx p mjf Hd (le_n _)) as (r & Hr & _).
    exists r. intros fuel Hf. eapply minimax_mono; eauto.
  - intros mover ms m s Hms Hm Hs.
    apply possibleMoves_generated in Hms. rewrite List.Forall_forall in Hms.
    destruct (simulateMove_generated _ _ _ _ (Hms m Hm) Hs)
      as (_ & _ & Hle & Hlt).
    split; [exact Hle|]. intros Ht. split.
    + destruct (simulateMove_inv _ _ _ _ Hs) as [_ Hk].
      destruct (isJump m); [reflexivity|]. destruct Hk as [Hk _].
      rewrite Ht in Hk. destruct mover; discriminate.
    + apply Hlt. rewrite Ht. apply Player_eqb_refl.
Qed.

Lemma minimax_terminates_witness :
  0 <= 4 /\
  ((exists r, forall fuel,
       (searchFuel 4 initializeBoard <= fuel)%nat ->
       minimax fuel initializeBoard 4 NegInf PosInf true black None = Some r) /\
   (forall mover ms m s,
       possibleMoves initializeBoard mover None = Ok ms -> In m ms ->
       simulateMove initializeBoard m mover = Ok s ->
       (countPieces (newBoard s) <= countPieces initializeBoard)%nat /\
       (nextTurn s = mover ->
        isJump m = true /\
        (countPieces (newBoard s) < countPieces initializeBoard)%nat))).
Proof.
  split; [lia|].
  apply (minimax_terminates initializeBoard 4 NegInf PosInf true black None).
  lia.
Defined.




(** ** [getAiMove] *)

Lemma bestLoop_cons fuel board p depth m rest best acc :
  bestLoop fuel board p depth (m :: rest) best acc
  = match moveScore fuel board p depth m with
    | None => None
    | Some TypeError => Some TypeError
    | Some (Ok evalScore) =>
        if num_gtb evalScore acc
        then bestLoop fuel board p depth rest m evalScore
        else bestLoop fuel board p depth rest best acc
    end.
Proof.
  unfold moveScore. simpl.
  destruct (simulateMove board m p); reflexivity.
Qed.

Lemma bestLoop_In fuel board p depth moves :
  forall best acc m,
    bestLoop fuel board p depth moves best acc = Some (Ok m) ->
    m = best \/ In m moves.
Proof.
  induction moves as [|m' moves IH]; intros best acc m H.
  - simpl in H. left. congruence.
  - rewrite bestLoop_cons in H.
    destruct (moveScore _ _ _ _ _) as [[e|]|]; try discriminate.
    destruct (num_gtb e acc); apply IH in H; simpl; intuition auto.
Qed.

(** C5.  When [hasAnyJumps(board, player)] is true or [mustJumpFrom] is
    set, every move that [getAiMove] returns is a jump, at every
    difficulty, whatever index the random choice of the easy tier takes
    and whatever order the shuffle of the other tiers produces. *)
Theorem getAiMove_mandatory_capture randomIndex shuffle fuel board p
  difficulty mjf m :
  (forall l, Permutation l (shuffle l)) ->
  hasAnyJumps board p = Ok true \/ is_Some mjf ->
  getAiMove randomIndex shuffle fuel board p difficulty mjf
  = Some (Ok (Some m)) ->
  isJump m = true.
Proof.
  intros Hperm Hj. unfold getAiMove.
  destruct (possibleMoves board p mjf) as [ms|] eqn:Ems; [|discriminate].
  pose proof (possibleMoves_jumps _ _ _ _ Hj Ems) as Hall.
  rewrite List.Forall_forall in Hall.
  destruct ms as [|m0 ms]; [discriminate|].
  assert (forall x, bestLoop fuel board p
                      match difficulty with medium => 2 | _ => 4 end
                      (shuffle (m0 :: ms)) m0 NegInf = Some (Ok x) ->
                    isJump x = true) as Hbest.
  { intros x Hx. apply bestLoop_In in Hx as [->|Hx].
    - apply Hall. left. reflexivity.
    - apply Hall. eapply Permutation_in; [|exact Hx].
      symmetry. apply Hperm. }
  destruct difficulty.
  - intros [= H]. apply Hall. apply list_elem_of_In.
    eapply list_elem_of_lookup_2. exact H.
  - destruct (bestLoop _ _ _ _ _ _ _) as [[x|]|] eqn:E; try discriminate.
    intros [= <-]. apply Hbest. reflexivity.
  - destruct (bestLoop _ _ _ _ _ _ _) as [[x|]|] eqn:E; try discriminate.
    intros [= <-]. apply Hbest. reflexivity.
Qed.

Lemma getAiMove_mandatory_capture_witness :
  (forall l : list Move, Permutation l ((fun l => l) l)) /\
  (hasAnyJumps (place (place emptyBoard 2 1 (man black)) 3 2 (man red)) black
   = Ok true \/ is_Some (@None Position)) /\
  getAiMove (fun _ => 0%nat) (fun l => l) 40
    (place (place emptyBoard 2 1 (man black)) 3 2 (man red)) black hard None
  = Some (Ok (Some (mkMove (mkPos 2 1) (mkPos 4 3) true (Some (mkPos 3 2)))))
  /\ isJump (mkMove (mkPos 2 1) (mkPos 4 3) true (Some (mkPos 3 2))) = true.
Proof.
  split; [intros l; apply Permutation_refl|].
  split; [left; reflexivity|].
  split; [reflexivity|].
  apply (getAiMove_mandatory_capture (fun _ => 0%nat) (fun l => l) 40
           (place (place emptyBoard 2 1 (man black)) 3 2 (man red)) black hard
           None);
    [intros l; apply Permutation_refl | left; reflexivity | reflexivity].
Defined.


Lemma num_gtb_Fin a b : num_gtb (Fin a) (Fin b) = true <-> b < a.
Proof.
  unfold num_gtb. simpl. rewrite negb_true_iff, Z.leb_gt. reflexivity.
Qed.

Lemma num_gtb_trans zb z acc :
  num_gtb (Fin zb) (Fin z) = true -> num_gtb (Fin z) acc = true ->
  num_gtb (Fin zb) acc = true.
Proof.
  destruct acc as [|a|]; try (intros; reflexivity || discriminate).
  rewrite !num_gtb_Fin. lia.
Qed.

Lemma num_gtb_le zb z acc :
  num_gtb (Fin z) acc = false -> num_gtb (Fin zb) acc = true -> z <= zb.
Proof.
  destruct acc as [|a|]; try discriminate.
  rewrite num_gtb_Fin. unfold num_gtb. simpl.
  rewrite negb_false_iff, Z.leb_le. lia.
Qed.

Lemma bestLoop_spec fuel board p depth moves :
  (forall m, In m moves ->
             exists z, moveScore fuel board p depth m = Some (Ok (Fin z))) ->
  forall best0 acc,
  exists best,
    bestLoop fuel board p depth moves best0 acc = Some (Ok best) /\
    ((best = best0 /\
      forall m z, In m moves ->
                  moveScore fuel board p depth m = Some (Ok (Fin z)) ->
                  num_gtb (Fin z) acc = false)
     \/
     (In best moves /\
      exists zb,
        moveScore fuel board p depth best = Some (Ok (Fin zb)) /\
        num_gtb (Fin zb) acc = true /\
        forall m z, In m moves ->
                    moveScore fuel board p depth m = Some (Ok (Fin z)) ->
                    z <= zb)).
Proof.
  induction moves as [|m rest IH]; intros Hs best0 acc.
  - exists best0. split; [reflexivity|]. left. split; [reflexivity|].
    intros m z [].
  - destruct (Hs m (or_introl eq_refl)) as [z Hz].
    rewrite bestLoop_cons, Hz.
    assert (forall m', In m' rest ->
              exists z', moveScore fuel board p depth m' = Some (Ok (Fin z')))
      as Hs' by (intros m' Hm'; apply Hs; right; exact Hm').
    destruct (num_gtb (Fin z) acc) eqn:Eg.
    + destruct (IH Hs' m (Fin z))
        as (best & Hb & [[-> Hall] | (Hin & zb & Hzb & Hgt & Hall)]).
      * exists m. split; [exact Hb|]. right. split; [left; reflexivity|].
        exists z. split; [exact Hz|]. split; [exact Eg|].
        intros m' z' [<-|Hm'] Hz'.
        -- rewrite Hz in Hz'. injection Hz' as <-. lia.
        -- specialize (Hall m' z' Hm' Hz').
           destruct (Z.le_gt_cases z' z) as [L|L]; [exact L|].
           apply num_gtb_Fin in L. congruence.
      * exists best. split; [exact Hb|]. right. split; [right; exact Hin|].
        exists zb. split; [exact Hzb|].
        split; [eapply num_gtb_trans; eauto|].
        intros m' z' [<-|Hm'] Hz'; [|eauto].
        rewrite Hz in Hz'. injection Hz' as <-.
        apply num_gtb_Fin in Hgt. lia.
    + destruct (IH Hs' best0 acc)
        as (best & Hb & [[-> Hall] | (Hin & zb & Hzb & Hgt & Hall)]).
      * exists best0. split; [exact Hb|]. left. split; [reflexivity|].
        intros m' z' [<-|Hm'] Hz'; [|eauto].
        rewrite Hz in Hz'. injection Hz' as <-. exact Eg.
      * exists best. split; [exact Hb|]. right. split; [right; exact Hin|].
        exists zb. split; [exact Hzb|]. split; [exact Hgt|].
        intros m' z' [<-|Hm'] Hz'; [|eauto].
        rewrite Hz in Hz'. injection Hz' as <-.
        eapply num_gtb_le; eauto.
Qed.

Lemma moveScore_finite fuel board p depth m :
  hasAllRows board -> generated board m ->
  1 <= depth -> (searchFuel depth board <= fuel)%nat ->
  exists z, moveScore fuel board p depth m = Some (Ok (Fin z)).
Proof.
  intros Hb G Hd Hf. unfold moveScore.
  destruct (simulateMove_generated_total board m p Hb G) as [s Hs].
  rewrite Hs.
  destruct (simulateMove_generated _ _ _ _ G Hs) as (Hlen & Hrow & Hle & Hlt).
  destruct (searchFuel_step depth board (newBoard s) fuel
              (Player_eqb (nextTurn s) p)) as [Hd' Hf']; auto; try lia.
  destruct (minimax_returns fuel (newBoard s) _ NegInf PosInf
              (if Player_eqb (nextTurn s) p then true else false) p
              (nextMustJumpFrom s) Hd' Hf') as (r & Hr & Hfin).
  destruct Hfin as [z ->].
  { split; [|exact Hrow]. unfold hasAllRows in *. exact (eq_trans Hlen Hb). }
  exists z. exact Hr.
Qed.

Lemma getAiMove_best randomIndex shuffle fuel board p difficulty mjf ms :
  (forall l, Permutation l (shuffle l)) ->
  hasAllRows board ->
  difficulty <> easy ->
  possibleMoves board p mjf = Ok ms ->
  ms <> [] ->
  (searchFuel (tierDepth difficulty) board <= fuel)%nat ->
  exists best zb,
    getAiMove randomIndex shuffle fuel board p difficulty mjf
    = Some (Ok (Some best)) /\
    In best ms /\
    moveScore fuel board p (tierDepth difficulty) best = Some (Ok (Fin zb)) /\
    forall m, In m ms ->
      exists z, moveScore fuel board p (tierDepth difficulty) m
                = Some (Ok (Fin z)) /\ z <= zb.
Proof.
  intros Hperm Hb Hdiff Hms Hne Hf. unfold getAiMove. rewrite Hms.
  destruct ms as [|m0 ms0] eqn:Ems; [congruence|]. rewrite <- Ems in *.
  pose proof (possibleMoves_generated _ _ _ _ Hms) as Hgen.
  rewrite List.Forall_forall in Hgen.
  assert (1 <= tierDepth difficulty) as Hd by (destruct difficulty; simpl; lia).
  assert (forall m, In m ms ->
            exists z, moveScore fuel board p (tierDepth difficulty) m
                      = Some (Ok (Fin z))) as Hscore.
  { intros m Hm. apply moveScore_finite; auto. }
  assert (forall m, In m (shuffle ms) <-> In m ms) as Hin.
  { intros m. split; apply Permutation_in; [symmetry|]; apply Hperm. }
  destruct (bestLoop_spec fuel board p (tierDepth difficulty) (shuffle ms))
    with (best0 := m0) (acc := NegInf)
    as (best & Hbest & [[-> Hall] | (Hbin & zb & Hzb & _ & Hall)]).
  { intros m Hm. apply Hscore, Hin, Hm. }
  - exfalso. assert (In m0 (shuffle ms)) as H0
        by (apply Hin; rewrite Ems; left; reflexivity).
    destruct (Hscore m0 (proj1 (Hin m0) H0)) as [z Hz].
    specialize (Hall m0 z H0 Hz). discriminate Hall.
  - exists best, zb.
    assert (getAiMove_body :
              match difficulty with
              | easy => Some (Ok (ms !! randomIndex (length ms)))
              | _ =>
                  match bestLoop fuel board p
                          match difficulty with medium => 2 | _ => 4 end
                          (shuffle ms) m0 NegInf with
                  | None => None
                  | Some TypeError => Some TypeError
                  | Some (Ok m) => Some (Ok (Some m))
                  end
              end = Some (Ok (Some best))).
    { destruct difficulty; [congruence| |]; simpl tierDepth in Hbest;
        rewrite Hbest; reflexivity. }
    split; [exact getAiMove_body|]. split; [apply Hin, Hbin|].
    split; [exact Hzb|].
    intros m Hm. destruct (Hscore m Hm) as [z Hz]. exists z.
    split; [exact Hz|]. apply (Hall m z); [apply Hin, Hm|exact Hz].
Qed.

(** C7 (amended).  On a board with its eight rows on which the player
    has at least one candidate move, and for difficulty medium
    (respectively hard): the move that [getAiMove] returns achieves the
    maximum, over all candidate moves [m], of the score that its loop
    computes for [m], which is the minimax score of the position after
    [m] searched at depth 1 (respectively 3) when the turn passes to the
    opponent and at depth 2 (respectively 4) when [m] is a jump whose
    capture continues.  This holds for every order in which the shuffle
    may leave the candidates, so two runs return moves with the same,
    maximal score. *)
Theorem getAiMove_maximal randomIndex1 shuffle1 randomIndex2 shuffle2 fuel
  board p difficulty mjf ms :
  (forall l, Permutation l (shuffle1 l)) ->
  (forall l, Permutation l (shuffle2 l)) ->
  hasAllRows board ->
  difficulty <> easy ->
  possibleMoves board p mjf = Ok ms ->
  ms <> [] ->
  (searchFuel (tierDepth difficulty) board <= fuel)%nat ->
  exists zmax,
    (forall m, In m ms ->
       exists z, moveScore fuel board p (tierDepth difficulty) m
                 = Some (Ok (Fin z)) /\ z <= zmax) /\
    (exists best1,
        getAiMove randomIndex1 shuffle1 fuel board p difficulty mjf
        = Some (Ok (Some best1)) /\
        In best1 ms /\
        moveScore fuel board p (tierDepth difficulty) best1
        = Some (Ok (Fin zmax))) /\
    (exists best2,
        getAiMove randomIndex2 shuffle2 fuel board p difficulty mjf
        = Some (Ok (Some best2)) /\
        In best2 ms /\
        moveScore fuel board p (tierDepth difficulty) best2
        = Some (Ok (Fin zmax))).
Proof.
  intros Hp1 Hp2 Hb Hdiff Hms Hne Hf.
  destruct (getAiMove_best randomIndex1 shuffle1 fuel board p difficulty mjf ms
              Hp1 Hb Hdiff Hms Hne Hf) as (b1 & z1 & Hg1 & Hin1 & Hs1 & Hmax1).
  destruct (getAiMove_best randomIndex2 shuffle2 fuel board p difficulty mjf ms
              Hp2 Hb Hdiff Hms Hne Hf) as (b2 & z2 & Hg2 & Hin2 & Hs2 & Hmax2).
  assert (z1 = z2) as <-.
  { destruct (Hmax1 b2 Hin2) as (z & Hz & Hle1).
    destruct (Hmax2 b1 Hin1) as (z' & Hz' & Hle2).
    rewrite Hs2 in Hz. rewrite Hs1 in Hz'.
    injection Hz as <-. injection Hz' as <-. lia. }
  exists z1. split; [exact Hmax1|]. split; [exists b1|exists b2]; auto.
Qed.

Lemma getAiMove_maximal_witness :
  let board := place (place emptyBoard 2 1 (man black)) 5 0 (man red) in
  let ms := [mkMove (mkPos 2 1) (mkPos 3 0) false None;
             mkMove (mkPos 2 1) (mkPos 3 2) false None] in
  (forall l : list Move, Permutation l ((fun l => l) l)) /\
  (forall l : list Move, Permutation l (rev l)) /\
  hasAllRows board /\
  medium <> easy /\
  possibleMoves board black None = Ok ms /\
  ms <> [] /\
  (searchFuel (tierDepth medium) board <= 9)%nat /\
  exists zmax,
    (forall m, In m ms ->
       exists z, moveScore 9 board black (tierDepth medium) m
                 = Some (Ok (Fin z)) /\ z <= zmax) /\
    (exists best1,
        getAiMove (fun _ => 0%nat) (fun l => l) 9 board black medium None
        = Some (Ok (Some best1)) /\
        In best1 ms /\
        moveScore 9 board black (tierDepth medium) best1
        = Some (Ok (Fin zmax))) /\
    (exists best2,
        getAiMove (fun _ => 0%nat) (@rev Move) 9 board black medium None
        = Some (Ok (Some best2)) /\
        In best2 ms /\
        moveScore 9 board black (tierDepth medium) best2
        = Some (Ok (Fin zmax))).
Proof.
  intros board ms.
  split; [intros l; apply Permutation_refl|].
  split; [intros l; apply Permutation_rev|].
  split; [reflexivity|]. split; [discriminate|].
  split; [reflexivity|]. split; [discriminate|].
  split; [vm_compute; lia|].
  apply (getAiMove_maximal (fun _ => 0%nat) (fun l => l) (fun _ => 0%nat)
           (@rev Move) 9 board black medium None ms);
    [ intros l; apply Permutation_refl
    | intros l; apply Permutation_rev
    | reflexivity | discriminate | reflexivity | discriminate
    | vm_compute; lia ].
Defined.

(** C7 as stated fails when "the position after applying [m] searched
    at depth 2" is taken literally.  Black man on (2,1), red man on
    (5,0), black to move at medium: the loop scores the move to (3,0)
    with 0 and the move to (3,2) with 2 and returns the latter, but
    searched at depth 2 the position after the move to (3,0) scores 17
    and the position after the move to (3,2) scores 15. *)
Lemma getAiMove_not_maximal_at_successor_depth :
  ~ (forall randomIndex shuffle fuel board p difficulty mjf ms best,
        (forall l, Permutation l (shuffle l)) ->
        hasAllRows board ->
        difficulty <> easy ->
        possibleMoves board p mjf = Ok ms ->
        (searchFuel (tierDepth difficulty) board <= fuel)%nat ->
        getAiMove randomIndex shuffle fuel board p difficulty mjf
        = Some (Ok (Some best)) ->
        forall m, In m ms ->
          exists z zb,
            successorScore fuel board p (tierDepth difficulty) m
            = Some (Ok (Fin z)) /\
            successorScore fuel board p (tierDepth difficulty) best
            = Some (Ok (Fin zb)) /\
            z <= zb).
Proof.
  intros H.
  destruct (H (fun _ => 0%nat) (fun l => l) 20%nat
              (place (place emptyBoard 2 1 (man black)) 5 0 (man red))
              black medium None
              [mkMove (mkPos 2 1) (mkPos 3 0) false None;
               mkMove (mkPos 2 1) (mkPos 3 2) false None]
              (mkMove (mkPos 2 1) (mkPos 3 2) false None))
    with (m := mkMove (mkPos 2 1) (mkPos 3 0) false None)
    as (z & zb & Hz & Hzb & Hle).
  - intros l. apply Permutation_refl.
  - reflexivity.
  - discriminate.
  - reflexivity.
  - vm_compute. lia.
  - reflexivity.
  - left. reflexivity.
  - vm_compute in Hz, Hzb. injection Hz as <-. injection Hzb as <-. lia.
Qed.

(** ** Cells of any kind: reads, writes and maps *)

Lemma arr_get_fmap {A B} (f : A -> B) (a : list A) i :
  arr_get (f <$> a) i = f <$> arr_get a i.
Proof.
  unfold arr_get. destruct (i <? 0); [reflexivity|].
  apply list_lookup_fmap.
Qed.

Lemma arr_set_fmap {A B} (f : option A -> option B) (a : list (option A)) i v :
  f None = None ->
  f <$> arr_set a i v = arr_set (f <$> a) i (f v).
Proof.
  intros Hf. unfold arr_set. destruct (i <? 0); [reflexivity|].
  rewrite length_fmap. destruct (_ <? _)%nat.
  - apply list_fmap_insert.
  - rewrite !fmap_app, fmap_replicate, Hf. reflexivity.
Qed.

Lemma cell_mapGrid {A B} (f : option A -> option B) g r c :
  f None = None ->
  cell (mapGrid f g) r c = (x <- cell g r c ;; Ok (f x)).
Proof.
  intros Hf. unfold cell, mapGrid. rewrite arr_get_fmap.
  destruct (arr_get g r) as [rw|]; simpl; [|reflexivity].
  rewrite arr_get_fmap. destruct (arr_get rw c); simpl; congruence.
Qed.

Lemma setCell_mapGrid {A B} (f : option A -> option B) g r c v :
  f None = None ->
  setCell (mapGrid f g) r c (f v)
  = (g' <- setCell g r c v ;; Ok (mapGrid f g')).
Proof.
  intros Hf. unfold setCell, mapGrid. rewrite arr_get_fmap.
  destruct (arr_get g r) as [rw|]; simpl; [|reflexivity].
  rewrite list_fmap_insert, arr_set_fmap by exact Hf. reflexivity.
Qed.

Lemma pieceAt_mapGrid {A B} (f : option A -> option B) g q :
  f None = None -> pieceAt (mapGrid f g) q = f (pieceAt g q).
Proof.
  intros Hf. unfold pieceAt, mapGrid. rewrite arr_get_fmap.
  destruct (arr_get g (row q)) as [rw|]; simpl; [|congruence].
  rewrite arr_get_fmap. destruct (arr_get rw (col q)); simpl; congruence.
Qed.

Lemma moveCells_mapGrid {A B} (f : option A -> option B) g move :
  f None = None ->
  moveCells (mapGrid f g) move
  = (x <- moveCells g move ;; Ok (mapGrid f (fst x), f (snd x))).
Proof.
  intros Hf. unfold moveCells. rewrite cell_mapGrid by exact Hf.
  destruct (cell g _ _) as [piece|]; simpl; [|reflexivity].
  rewrite setCell_mapGrid by exact Hf.
  destruct (setCell g _ _ piece) as [g1|]; simpl; [|reflexivity].
  rewrite <- Hf at 1. rewrite setCell_mapGrid by exact Hf.
  destruct (setCell g1 _ _ None) as [g2|]; simpl; [|reflexivity].
  destruct (isJump move); [|reflexivity].
  destruct (jumpedPiece move) as [jp|]; [|reflexivity].
  rewrite <- Hf at 1. rewrite setCell_mapGrid by exact Hf.
  destruct (setCell g2 _ _ None); reflexivity.
Qed.

Lemma movePiece_moveCells board move :
  movePiece board move
  = (x <- moveCells board move ;;
     match snd x with
     | None => TypeError
     | Some piece =>
         Ok (if negb (isKing piece) && reachesKingRow piece (row (to move))
                && stillAtTo move
             then crownAt (fst x) (to move) else fst x)
     end).
Proof.
  unfold movePiece, moveCells. rewrite cloneBoard_id.
  destruct (cell board _ _) as [piece|]; simpl; [|reflexivity].
  destruct (setCell board _ _ piece) as [g1|]; simpl; [|reflexivity].
  destruct (setCell g1 _ _ None) as [g2|]; simpl; [|reflexivity].
  destruct (if isJump move then _ else _) as [g3|]; simpl; [|reflexivity].
  destruct piece as [piece|]; [|reflexivity].
  destruct (negb (isKing piece)); simpl; [|reflexivity].
  destruct (reachesKingRow _ _); simpl; reflexivity.
Qed.

(** The cells after the three writes. *)
Lemma moveCells_pieceAt {A} (g g3 : list (list (option A))) move piece q :
  moveCells g move = Ok (g3, piece) ->
  pieceAt g (from move) = piece /\
  pieceAt g3 q
  = if match jumpedSquare move with
       | Some jp => Position_eqb q jp && (0 <=? col jp)
       | None => false
       end
    then None
    else if Position_eqb q (from move) && (0 <=? col (from move)) then None
    else if Position_eqb q (to move) && (0 <=? col (to move)) then piece
    else pieceAt g q.
Proof.
  unfold moveCells. intros H. inv_bind.
  apply cell_Ok in E as [_ E].
  replace (mkPos _ _) with (from move) in E by (destruct (from move); auto).
  split; [exact E|].
  assert (pieceAt g3 q
          = if match jumpedSquare move with
               | Some jp => Position_eqb q jp && (0 <=? col jp)
               | None => false
               end
            then None else pieceAt x1 q) as ->.
  { unfold jumpedSquare. destruct (isJump move); [|inv_bind; reflexivity].
    destruct (jumpedPiece move) as [jp|]; [|inv_bind; reflexivity].
    apply (pieceAt_setCell_pos _ _ _ _ q E2). }
  rewrite (pieceAt_setCell_pos _ _ _ _ q E1),
    (pieceAt_setCell_pos _ _ _ _ q E0).
  reflexivity.
Qed.

(** Every cell after a write is the written cell, null, or a cell that
    was there. *)
Lemma arr_set_Forall {A} (P : option A -> Prop) (a : list (option A)) i v :
  P None -> P v -> Forall P a -> Forall P (arr_set a i v).
Proof.
  intros HN Hv Ha. unfold arr_set. destruct (i <? 0); [exact Ha|].
  destruct (_ <? _)%nat.
  - apply Forall_insert; assumption.
  - apply Forall_app. split; [exact Ha|]. apply Forall_app. split.
    + apply Forall_replicate. exact HN.
    + constructor; [exact Hv|constructor].
Qed.

Lemma setCell_Forall {A} (P : option A -> Prop) (g g' : list (list (option A)))
  r c v :
  P None -> P v -> Forall (Forall P) g ->
  setCell g r c v = Ok g' -> Forall (Forall P) g'.
Proof.
  intros HN Hv Hg. unfold setCell.
  destruct (arr_get g r) as [rw|] eqn:Er; [|discriminate]. intros [= <-].
  apply Forall_insert; [exact Hg|].
  apply arr_set_Forall; auto.
  apply arr_get_Some in Er as [_ Er].
  rewrite Forall_lookup in Hg. eapply Hg; eauto.
Qed.

Lemma cell_Forall {A} (P : option A -> Prop) (g : list (list (option A)))
  r c x :
  P None -> Forall (Forall P) g -> cell g r c = Ok x -> P x.
Proof.
  intros HN Hg. unfold cell.
  destruct (arr_get g r) as [rw|] eqn:Er; [|discriminate]. intros [= <-].
  apply arr_get_Some in Er as [_ Er].
  rewrite Forall_lookup in Hg. specialize (Hg _ _ Er).
  destruct (arr_get rw c) as [y|] eqn:Ec; simpl; [|exact HN].
  apply arr_get_Some in Ec as [_ Ec].
  rewrite Forall_lookup in Hg. eapply Hg; eauto.
Qed.

Lemma moveCells_Forall {A} (P : option A -> Prop)
  (g g3 : list (list (option A))) move piece :
  P None -> Forall (Forall P) g ->
  moveCells g move = Ok (g3, piece) ->
  Forall (Forall P) g3 /\ P piece.
Proof.
  intros HN Hg. unfold moveCells. intros H. inv_bind.
  pose proof (cell_Forall P _ _ _ _ HN Hg E) as Hp.
  pose proof (setCell_Forall P _ _ _ _ _ HN Hp Hg E0) as H1.
  pose proof (setCell_Forall P _ _ _ _ _ HN HN H1 E1) as H2.
  split; [|exact Hp].
  destruct (isJump move); [|inv_bind; exact H2].
  destruct (jumpedPiece move); inv_bind; [|exact H2].
  eapply setCell_Forall; [| |exact H2|exact E2]; auto.
Qed.

(** ** The store: cloning *)

Lemma validCell_app P ext c : validCell P c -> validCell (P ++ ext) c.
Proof. destruct c; simpl; [rewrite length_app; lia|auto]. Qed.

Lemma view_app P ext c : validCell P c -> view (P ++ ext) c = view P c.
Proof. destruct c; simpl; intros H; [apply lookup_app_l; exact H|auto]. Qed.

Lemma view_app_fmap P ext (cells : list (option nat)) :
  Forall (validCell P) cells ->
  view (P ++ ext) <$> cells = view P <$> cells.
Proof.
  induction 1 as [|c cells Hc _ IH]; [reflexivity|].
  rewrite !fmap_cons, IH, (view_app _ _ _ Hc). reflexivity.
Qed.

Lemma copyPiece_id p : copyPiece p = p.
Proof. destruct p; reflexivity. Qed.

Lemma bindM_Ok {A B} (m : Store.M A) (k : A -> Store.M B) h a h' :
  m h = Some (Ok a, h') -> Store.bindM m k h = k a h'.
Proof. intros H. unfold Store.bindM. rewrite H. reflexivity. Qed.

Lemma bindM_TypeError {A B} (m : Store.M A) (k : A -> Store.M B) h h' :
  m h = Some (TypeError, h') -> Store.bindM m k h = Some (TypeError, h').
Proof. intros H. unfold Store.bindM. rewrite H. reflexivity. Qed.

Lemma cloneCells_spec cells :
  forall P R,
    Forall (validCell P) cells ->
    exists cells' news,
      Store.cloneCells cells (Store.mkHeap P R)
      = Some (Ok cells', Store.mkHeap (P ++ news) R) /\
      length cells' = length cells /\
      view (P ++ news) <$> cells' = view P <$> cells /\
      (forall c pr, cells' !! c = Some (Some pr) ->
                    (length P <= pr < length (P ++ news))%nat) /\
      (forall c c' pr, cells' !! c = Some (Some pr) ->
                       cells' !! c' = Some (Some pr) -> c = c').
Proof.
  induction cells as [|c rest IH]; intros P R Hv.
  - exists [], []. simpl. rewrite app_nil_r.
    repeat split; try reflexivity; intros; discriminate.
  - inversion Hv as [|? ? Hc Hrest]; subst.
    destruct c as [r|].
    + simpl in Hc. destruct (lookup_lt_is_Some_2 P r Hc) as [p Hp].
      destruct (IH (P ++ [copyPiece p]) R) as (rest' & news & E & Hlen & Hview
                                               & Hfresh & Hinj).
      { eapply Forall_impl; [exact Hrest|]. intros c. apply validCell_app. }
      exists (Some (length P) :: rest'), (copyPiece p :: news).
      rewrite <- app_assoc in E, Hview, Hfresh. simpl in E, Hview, Hfresh.
      split; [|split; [|split; [|split]]].
      * cbn [Store.cloneCells].
        erewrite bindM_Ok; cycle 1.
        { erewrite bindM_Ok; cycle 1.
          { unfold Store.readPiece. simpl. rewrite Hp. reflexivity. }
          erewrite bindM_Ok; reflexivity. }
        simpl. erewrite bindM_Ok; [reflexivity|exact E].
      * simpl. rewrite Hlen. reflexivity.
      * rewrite fmap_cons. rewrite Hview. rewrite fmap_cons. f_equal.
        -- simpl. rewrite lookup_app_r by lia.
           replace (length P - length P)%nat with 0%nat by lia.
           simpl. rewrite copyPiece_id. symmetry. exact Hp.
        -- apply view_app_fmap. exact Hrest.
      * intros [|c] pr Hl; simpl in Hl.
        -- injection Hl as <-. rewrite length_app. simpl. lia.
        -- apply Hfresh in Hl. rewrite !length_app in *. simpl in *. lia.
      * intros [|c] [|c'] pr Hl Hl'; simpl in Hl, Hl'.
        -- reflexivity.
        -- injection Hl as <-. apply Hfresh in Hl'.
           rewrite !length_app in Hl'. simpl in Hl'. lia.
        -- injection Hl' as <-. apply Hfresh in Hl.
           rewrite !length_app in Hl. simpl in Hl. lia.
        -- f_equal. eapply Hinj; eauto.
    + destruct (IH P R Hrest) as (rest' & news & E & Hlen & Hview & Hfresh
                                  & Hinj).
      exists (None :: rest'), news.
      split; [|split; [|split; [|split]]].
      * cbn [Store.cloneCells].
        erewrite bindM_Ok; [|reflexivity].
        erewrite bindM_Ok; [reflexivity|exact E].
      * simpl. rewrite Hlen. reflexivity.
      * rewrite !fmap_cons, Hview. reflexivity.
      * intros [|c] pr Hl; simpl in Hl; [discriminate|]. eapply Hfresh; eauto.
      * intros [|c] [|c'] pr Hl Hl'; simpl in Hl, Hl'; try discriminate.
        f_equal. eapply Hinj; eauto.
Qed.

Lemma cloneBoard_spec board :
  forall P R,
    validBoard P R board ->
    exists css news,
      Store.cloneBoard board (Store.mkHeap P R)
      = Some (Ok (seq (length R) (length board)),
              Store.mkHeap (P ++ news) (R ++ css)) /\
      length css = length board /\
      (forall i rr cells, board !! i = Some rr -> R !! rr = Some cells ->
         exists cs, css !! i = Some cs /\
                    view (P ++ news) <$> cs = view P <$> cells) /\
      Forall (Forall (validCell (P ++ news))) css /\
      (forall i ri c pr, css !! i = Some ri -> ri !! c = Some (Some pr) ->
                         (length P <= pr)%nat) /\
      (forall i j ri rj c c' pr,
          css !! i = Some ri -> ri !! c = Some (Some pr) ->
          css !! j = Some rj -> rj !! c' = Some (Some pr) ->
          i = j /\ c = c').
Proof.
  induction board as [|rr rest IH]; intros P R Hv.
  - exists [], []. simpl. rewrite !app_nil_r.
    repeat split; try reflexivity; try (intros; discriminate).
    constructor.
  - destruct (Hv 0%nat rr eq_refl) as (cells & Hrr & Hcells).
    destruct (cloneCells_spec cells P R Hcells)
      as (cells' & news1 & E1 & Hlen1 & Hview1 & Hfresh1 & Hinj1).
    assert (Forall (validCell (P ++ news1)) cells') as Hvalid1.
    { apply Forall_lookup. intros c [pr|] Hc; simpl; [|auto].
      apply Hfresh1 in Hc. lia. }
    destruct (IH (P ++ news1) (R ++ [cells']))
      as (css & news2 & E2 & Hlen2 & Hview2 & Hvalid2 & Hfresh2 & Hinj2).
    { intros i rr' Hi. destruct (Hv (S i) rr' Hi) as (cs & Hcs & Hval).
      exists cs. split.
      - rewrite lookup_app_l; [exact Hcs|]. eapply lookup_lt_Some; eauto.
      - eapply Forall_impl; [exact Hval|]. intros c. apply validCell_app. }
    exists (cells' :: css), (news1 ++ news2).
    rewrite <- !app_assoc in E2. simpl in E2.
    rewrite <- app_assoc in Hview2, Hvalid2.
    rewrite length_app in E2. simpl in E2.
    replace (length R + 1)%nat with (S (length R)) in E2 by lia.
    split; [|split; [|split; [|split; [|split]]]].
    + cbn [Store.cloneBoard].
      erewrite bindM_Ok; cycle 1.
      { unfold Store.readRow. simpl. rewrite Hrr. reflexivity. }
      erewrite bindM_Ok; [|exact E1].
      erewrite bindM_Ok; [|reflexivity]. simpl.
      erewrite bindM_Ok; [reflexivity|exact E2].
    + simpl. rewrite Hlen2. reflexivity.
    + intros [|i] rr' cells0 Hi Hcells0; simpl in Hi.
      * injection Hi as <-. rewrite Hrr in Hcells0. injection Hcells0 as <-.
        exists cells'. split; [reflexivity|].
        rewrite app_assoc, (view_app_fmap _ _ _ Hvalid1). exact Hview1.
      * destruct (Hv (S i) rr' Hi) as (cs0 & Hcs0 & Hval0).
        rewrite Hcells0 in Hcs0. injection Hcs0 as <-.
        destruct (Hview2 i rr' cells0 Hi) as (cs & Hcs & Hview).
        { rewrite lookup_app_l; [exact Hcells0|].
          eapply lookup_lt_Some; eauto. }
        exists cs. split; [exact Hcs|]. rewrite Hview.
        apply view_app_fmap. exact Hval0.
    + constructor; [|exact Hvalid2].
      eapply Forall_impl; [exact Hvalid1|]. intros c Hc.
      rewrite app_assoc. apply validCell_app. exact Hc.
    + intros [|i] ri c pr Hi Hc; simpl in Hi.
      * injection Hi as <-. apply Hfresh1 in Hc. lia.
      * pose proof (Hfresh2 i ri c pr Hi Hc) as H.
        rewrite length_app in H. lia.
    + intros [|i] [|j] ri rj c c' pr Hi Hc Hj Hc'; simpl in Hi, Hj.
      * injection Hi as <-. injection Hj as <-. split; [reflexivity|].
        eapply Hinj1; eauto.
      * injection Hi as <-. apply Hfresh1 in Hc.
        pose proof (Hfresh2 j rj c' pr Hj Hc'). lia.
      * injection Hj as <-. apply Hfresh1 in Hc'.
        pose proof (Hfresh2 i ri c pr Hi Hc). lia.
      * destruct (Hinj2 i j ri rj c c' pr Hi Hc Hj Hc') as [-> ->]. auto.
Qed.

(** ** The store: the board that a reference denotes *)

Lemma readCell_view P (c : option nat) y :
  match c with
  | None => Some None
  | Some r => Some <$> P !! r
  end = Some y <-> validCell P c /\ y = view P c.
Proof.
  destruct c as [r|]; simpl.
  - destruct (P !! r) as [p|] eqn:Hp; simpl; split.
    + intros [= <-]. split; [eapply lookup_lt_Some; eauto|reflexivity].
    + intros [_ ->]. reflexivity.
    + discriminate.
    + intros [Hr _]. apply lookup_lt_is_Some_2 in Hr as [? Hr]. congruence.
  - split; [intros [= <-]; auto|intros [_ ->]; reflexivity].
Qed.

Lemma readCells_Some P R cells (rw : list (option Piece)) :
  Store.readCells (Store.mkHeap P R) cells = Some rw <->
  Forall (validCell P) cells /\ rw = view P <$> cells.
Proof.
  unfold Store.readCells. rewrite mapM_Some. simpl. split.
  - induction 1 as [|c y cells rw Hc _ [IHv IHe]].
    + split; [constructor|reflexivity].
    + apply readCell_view in Hc as [Hc ->]. rewrite fmap_cons, <- IHe.
      split; [constructor; assumption|reflexivity].
  - intros [Hv ->]. induction Hv as [|c cells Hc _ IH].
    + constructor.
    + rewrite fmap_cons. constructor; [|exact IH].
      apply readCell_view. auto.
Qed.

Lemma readBoard_Some P R board (B : list (list (option Piece))) :
  Store.readBoard (Store.mkHeap P R) board = Some B <->
  length board = length B /\
  forall i rr Brow, board !! i = Some rr -> B !! i = Some Brow ->
    exists cells, R !! rr = Some cells /\ Forall (validCell P) cells /\
                  Brow = view P <$> cells.
Proof.
  unfold Store.readBoard. rewrite mapM_Some, Forall2_same_length_lookup.
  simpl. split; intros [Hlen H]; (split; [exact Hlen|]);
    intros i rr Brow Hi HB; specialize (H i rr Brow Hi HB).
  - destruct (R !! rr) as [cells|]; simpl in H; [|discriminate].
    apply readCells_Some in H as [Hv ->]. eauto.
  - destruct H as (cells & -> & Hv & ->). simpl.
    apply readCells_Some. auto.
Qed.

Lemma readBoard_valid P R board (B : list (list (option Piece))) :
  Store.readBoard (Store.mkHeap P R) board = Some B -> validBoard P R board.
Proof.
  intros H. apply readBoard_Some in H as [Hlen H]. intros i rr Hi.
  destruct (lookup_lt_is_Some_2 B i) as [Brow HB].
  { rewrite <- Hlen. eapply lookup_lt_Some; eauto. }
  destruct (H i rr Brow Hi HB) as (cells & Hc & Hv & _). eauto.
Qed.

(** ** The store: reads and writes through the cloned rows *)

Lemma arr_get_seq {A} (css : list A) n r :
  arr_get (seq n (length css)) r
  = match arr_get css r with
    | Some _ => Some (n + Z.to_nat r)%nat
    | None => None
    end.
Proof.
  unfold arr_get. destruct (r <? 0); [reflexivity|].
  destruct (css !! Z.to_nat r) as [x|] eqn:E.
  - apply lookup_seq_lt. eapply lookup_lt_Some; eauto.
  - apply lookup_seq_ge. apply lookup_ge_None. exact E.
Qed.

Lemma withRows_lookup P R css r (rw : list (option nat)) :
  arr_get css r = Some rw ->
  Store.rowObjs (withRows P R css) !! (length R + Z.to_nat r)%nat = Some rw.
Proof.
  intros H. apply arr_get_Some in H as [_ H]. simpl.
  rewrite lookup_app_r by lia.
  replace (length R + Z.to_nat r - length R)%nat with (Z.to_nat r) by lia.
  exact H.
Qed.

Lemma sim_read {B} P R css r c (k : option nat -> Store.M B) :
  Store.bindM (Store.rowAt (seq (length R) (length css)) r)
    (fun rr => Store.bindM (Store.readCell rr c) k) (withRows P R css)
  = match cell css r c with
    | Ok x => k x (withRows P R css)
    | TypeError => Some (TypeError, withRows P R css)
    end.
Proof.
  unfold Store.rowAt, cell. rewrite arr_get_seq.
  destruct (arr_get css r) as [rw|] eqn:E; [|reflexivity].
  erewrite bindM_Ok; [|reflexivity].
  erewrite bindM_Ok; [reflexivity|].
  unfold Store.readCell. rewrite (withRows_lookup _ _ _ _ _ E). reflexivity.
Qed.

Lemma run_write P R css r c v :
  Store.bindM (Store.rowAt (seq (length R) (length css)) r)
    (fun rr => Store.writeCell rr c v) (withRows P R css)
  = Some match setCell css r c v with
         | Ok css' => (Ok tt, withRows P R css')
         | TypeError => (TypeError, withRows P R css)
         end.
Proof.
  unfold Store.rowAt, setCell. rewrite arr_get_seq.
  destruct (arr_get css r) as [rw|] eqn:E; [|reflexivity].
  erewrite bindM_Ok; [|reflexivity].
  unfold Store.writeCell. rewrite (withRows_lookup _ _ _ _ _ E). simpl.
  rewrite insert_app_r. reflexivity.
Qed.

Lemma sim_write {B} P R css r c v (k : unit -> Store.M B) :
  Store.bindM (Store.rowAt (seq (length R) (length css)) r)
    (fun rr => Store.bindM (Store.writeCell rr c v) k) (withRows P R css)
  = match setCell css r c v with
    | Ok css' => k tt (withRows P R css')
    | TypeError => Some (TypeError, withRows P R css)
    end.
Proof.
  pose proof (run_write P R css r c v) as H. revert H.
  unfold Store.rowAt, setCell. rewrite arr_get_seq.
  destruct (arr_get css r) as [rw|] eqn:E; [|reflexivity].
  intros H. erewrite bindM_Ok in H; [|reflexivity].
  erewrite bindM_Ok; [|reflexivity].
  erewrite bindM_Ok; [reflexivity|exact H].
Qed.

(** The writes on the store are the writes on the cloned rows. *)
Lemma Store_moveCells_sim P R css move :
  exists res css',
    Store.moveCells (seq (length R) (length css)) move (withRows P R css)
    = Some (res, withRows P R css') /\
    length css' = length css /\
    match moveCells css move with
    | Ok (g, piece) => res = Ok piece /\ css' = g
    | TypeError => res = TypeError
    end.
Proof.
  unfold Store.moveCells, moveCells. rewrite sim_read.
  destruct (cell css _ _) as [piece|]; simpl; [|eauto].
  rewrite sim_write.
  destruct (setCell css _ _ piece) as [css1|] eqn:E1; simpl; [|eauto].
  pose proof (setCell_length _ _ _ _ _ E1) as L1. rewrite <- L1.
  rewrite sim_write.
  destruct (setCell css1 _ _ None) as [css2|] eqn:E2; simpl;
    [|exists TypeError, css1; auto].
  pose proof (setCell_length _ _ _ _ _ E2) as L2. rewrite <- L2.
  destruct (isJump move).
  - destruct (jumpedPiece move) as [jp|].
    + pose proof (run_write P R css2 (row jp) (col jp) None) as Hw.
      destruct (setCell css2 _ _ None) as [css3|] eqn:E3; simpl.
      * erewrite bindM_Ok; [|exact Hw].
        exists (Ok piece), css3. repeat split.
        eapply setCell_length; eauto.
      * erewrite bindM_TypeError; [|exact Hw].
        exists TypeError, css2. repeat split.
    + erewrite bindM_Ok; [|reflexivity].
      exists (Ok piece), css2. repeat split.
  - erewrite bindM_Ok; [|reflexivity].
    exists (Ok piece), css2. repeat split.
Qed.

Lemma readBoard_cloned P R css :
  Forall (Forall (validCell P)) css ->
  Store.readBoard (withRows P R css) (seq (length R) (length css))
  = Some (mapGrid (view P) css).
Proof.
  intros Hv. apply readBoard_Some. split.
  - unfold mapGrid. rewrite length_seq, length_fmap. reflexivity.
  - intros i rr Brow Hi HB. apply lookup_seq in Hi as [-> Hi].
    unfold mapGrid in HB. rewrite list_lookup_fmap in HB.
    destruct (css !! i) as [cs|] eqn:Ecs; [|discriminate].
    injection HB as <-. exists cs. split; [|split; [|reflexivity]].
    + rewrite lookup_app_r by lia.
      replace (length R + i - length R)%nat with i by lia. exact Ecs.
    + rewrite Forall_lookup in Hv. eapply Hv; eauto.
Qed.

(** A board read in a store reads the same in every store that
    preserves the objects of the first. *)
Lemma readBoard_preserved h h' board (B : list (list (option Piece))) :
  preserved h h' ->
  Store.readBoard h board = Some B -> Store.readBoard h' board = Some B.
Proof.
  destruct h as [P R], h' as [P' R']. intros [[kp HP] HR]. simpl in HP, HR.
  subst P'. rewrite !readBoard_Some. intros [Hlen H]. split; [exact Hlen|].
  intros i rr Brow Hi HB.
  destruct (H i rr Brow Hi HB) as (cells & Hc & Hv & ->).
  exists cells. split; [|split].
  - eapply prefix_lookup_Some; eauto.
  - eapply Forall_impl; [exact Hv|]. intros c. apply validCell_app.
  - symmetry. apply view_app_fmap. exact Hv.
Qed.

(** ** Boards are determined by their squares *)

Lemma arr_get_of_nat {A} (a : list A) (i : nat) :
  arr_get a (Z.of_nat i) = a !! i.
Proof.
  unfold arr_get. replace (Z.of_nat i <? 0) with false
    by (symmetry; apply Z.ltb_ge; lia).
  rewrite Nat2Z.id. reflexivity.
Qed.

Lemma grid_ext {A} (g1 g2 : list (list (option A))) :
  shape g1 = shape g2 ->
  (forall q, pieceAt g1 q = pieceAt g2 q) ->
  g1 = g2.
Proof.
  intros Hs Hq. unfold shape in Hs.
  assert (length g1 = length g2) as Hlen
      by (rewrite <- (length_fmap length g1), Hs, length_fmap; reflexivity).
  apply (list_eq_same_length _ _ (length g1)); [congruence|reflexivity|].
  intros i r1 r2 _ H1 H2.
  assert (length r1 = length r2) as Hl.
  { apply (f_equal (fun l => l !! i)) in Hs.
    rewrite !list_lookup_fmap, H1, H2 in Hs. simpl in Hs. congruence. }
  apply (list_eq_same_length _ _ (length r1)); [congruence|reflexivity|].
  intros c x y _ Hx Hy.
  specialize (Hq (mkPos (Z.of_nat i) (Z.of_nat c))).
  unfold pieceAt in Hq. simpl in Hq.
  rewrite !arr_get_of_nat, H1, H2 in Hq. simpl in Hq.
  rewrite !arr_get_of_nat, Hx, Hy in Hq. exact Hq.
Qed.

Lemma shape_mapGrid {A B} (f : option A -> option B) g :
  shape (mapGrid f g) = shape g.
Proof.
  unfold shape, mapGrid. rewrite <- list_fmap_compose.
  apply list_fmap_ext. intros i rw _. simpl. apply length_fmap.
Qed.

Lemma setCell_shape {A} (g g' : list (list (option A))) r c v x :
  setCell g r c v = Ok g' ->
  pieceAt g (mkPos r c) = Some x ->
  shape g' = shape g.
Proof.
  unfold setCell, pieceAt. simpl.
  destruct (arr_get g r) as [rw|] eqn:Er; [|discriminate].
  intros [= <-] Hp. simpl in Hp. unfold shape. rewrite list_fmap_insert.
  apply arr_get_Some in Er as [Hr Er].
  apply list_insert_id. rewrite list_lookup_fmap, Er. simpl. f_equal.
  destruct (arr_get rw c) as [y|] eqn:Ec; [|discriminate].
  apply arr_get_Some in Ec as [Hc Ec].
  unfold arr_set. replace (c <? 0) with false
    by (symmetry; apply Z.ltb_ge; lia).
  apply lookup_lt_Some in Ec.
  replace (Z.to_nat c <? length rw)%nat with true
    by (symmetry; apply Nat.ltb_lt; exact Ec).
  symmetry. apply length_insert.
Qed.

Lemma shape_crownAt board pos : shape (crownAt board pos) = shape board.
Proof.
  unfold crownAt. destruct (pieceAt board pos) as [p|] eqn:Hp; [|reflexivity].
  destruct (setCell board _ _ _) as [b|] eqn:Hb; [|reflexivity].
  eapply setCell_shape; [exact Hb|]. destruct pos; exact Hp.
Qed.

(** ** The store: the promotion seen through the board *)

Lemma pieceAt_lookup {A} (g : list (list (option A))) q x :
  pieceAt g q = Some x ->
  0 <= row q /\ 0 <= col q /\
  exists rw, g !! Z.to_nat (row q) = Some rw /\
             rw !! Z.to_nat (col q) = Some (Some x).
Proof.
  unfold pieceAt. destruct (arr_get g (row q)) as [rw|] eqn:Er; [|discriminate].
  simpl. destruct (arr_get rw (col q)) as [y|] eqn:Ec; [|discriminate].
  simpl. intros ->. apply arr_get_Some in Er as [Hr Er], Ec as [Hc Ec].
  eauto.
Qed.

Lemma unshared_pieceAt css q q' pr :
  unshared css ->
  pieceAt css q = Some pr -> pieceAt css q' = Some pr -> q = q'.
Proof.
  intros Hu H H'.
  apply pieceAt_lookup in H as (Hr & Hc & rw & Hrw & Hx).
  apply pieceAt_lookup in H' as (Hr' & Hc' & rw' & Hrw' & Hx').
  destruct (Hu _ _ _ _ _ _ _ Hrw Hx Hrw' Hx') as [Er Ec].
  destruct q, q'. simpl in *. f_equal; lia.
Qed.

Lemma moved_ref_unique css css3 move pr q :
  unshared css ->
  moveCells css move = Ok (css3, Some pr) ->
  pieceAt css3 q = Some pr <->
  q = to move /\ stillAtTo move = true /\ 0 <= col (to move).
Proof.
  intros Hu H. destruct (moveCells_pieceAt _ _ _ _ q H) as [Hfrom ->].
  destruct (pieceAt_Some_row _ _ _ Hfrom) as [_ Hfc].
  assert (forall q', pieceAt css q' = Some pr -> q' = from move) as Honly
      by (intros q' Hq'; eapply unshared_pieceAt; eauto).
  unfold stillAtTo, jumpedSquare.
  replace (0 <=? col (from move)) with true by (symmetry; apply Z.leb_le; lia).
  rewrite andb_true_r.
  destruct (Position_eqb q (from move)) eqn:Ef.
  { apply Position_eqb_eq in Ef. subst q.
    destruct (match (if isJump move then jumpedPiece move else None) with
              | Some jp => _ | None => false end);
      (split; [discriminate|]).
    all: intros (E & Hs & _); rewrite <- E, Position_eqb_refl in Hs;
      discriminate. }
  apply Position_eqb_neq in Ef.
  destruct (Position_eqb q (to move)) eqn:Et.
  - apply Position_eqb_eq in Et. subst q.
    replace (Position_eqb (to move) (from move)) with false
      by (symmetry; apply Position_eqb_neq; exact Ef).
    simpl. destruct (Z.leb_spec 0 (col (to move))) as [Hc|Hc].
    + destruct (isJump move); simpl.
      * destruct (jumpedPiece move) as [jp|]; simpl.
        -- destruct (Position_eqb (to move) jp) eqn:Ej; simpl.
           ++ apply Position_eqb_eq in Ej. subst jp.
              replace (0 <=? col (to move)) with true
                by (symmetry; apply Z.leb_le; lia).
              split; [discriminate|]. intros (_ & [=] & _).
           ++ tauto.
        -- tauto.
      * tauto.
    + assert (~ 0 <= col (to move)) by lia.
      destruct (match (if isJump move then jumpedPiece move else None) with
                | Some jp => _ | None => false end).
      * split; [discriminate|tauto].
      * rewrite (pieceAt_col_neg css (to move)) by lia.
        split; [discriminate|tauto].
  - apply Position_eqb_neq in Et. simpl.
    destruct (match (if isJump move then jumpedPiece move else None) with
              | Some jp => _ | None => false end).
    + split; [discriminate|]. intros [E _]. congruence.
    + split; [|intros [E _]; congruence].
      intros Hq. apply Honly in Hq. congruence.
Qed.

Lemma view_insert_eq P pr p x :
  P !! pr = Some p -> view (<[pr := x]> P) (Some pr) = Some x.
Proof.
  intros H. simpl. apply list_lookup_insert_eq. eapply lookup_lt_Some; eauto.
Qed.

Lemma view_insert_ne P pr x c :
  c <> Some pr -> view (<[pr := x]> P) c = view P c.
Proof.
  destruct c as [r|]; simpl; [|reflexivity]. intros H.
  apply list_lookup_insert_ne. congruence.
Qed.

(** Crowning the moved object shows on the board exactly as [movePiece]
    has it: at [move.to] when the object is still there, nowhere
    otherwise. *)
Lemma crowned_grid P pr p css css3 move :
  unshared css ->
  moveCells css move = Ok (css3, Some pr) ->
  P !! pr = Some p ->
  mapGrid (view (<[pr := {| player := player p; isKing := true |}]> P)) css3
  = if stillAtTo move then crownAt (mapGrid (view P) css3) (to move)
    else mapGrid (view P) css3.
Proof.
  intros Hu H Hp. apply grid_ext.
  { destruct (stillAtTo move);
      rewrite ?shape_crownAt, !shape_mapGrid; reflexivity. }
  intros q. rewrite pieceAt_mapGrid by reflexivity.
  pose proof (moved_ref_unique css css3 move pr q Hu H) as Hq.
  destruct (stillAtTo move) eqn:Es.
  - rewrite pieceAt_crownAt, !pieceAt_mapGrid by reflexivity.
    destruct (Position_eqb q (to move)) eqn:Et.
    + apply Position_eqb_eq in Et. subst q.
      destruct (Z.le_gt_cases 0 (col (to move))) as [Hc|Hc].
      * rewrite (proj2 Hq) by auto.
        rewrite (view_insert_eq _ _ _ _ Hp). simpl. rewrite Hp. reflexivity.
      * rewrite (pieceAt_col_neg css3 (to move)) by lia. reflexivity.
    + apply view_insert_ne. intros E. apply Hq in E as [-> _].
      rewrite Position_eqb_refl in Et. discriminate.
  - rewrite pieceAt_mapGrid by reflexivity.
    apply view_insert_ne. intros E. apply Hq in E as (_ & [=] & _).
Qed.

(** ** The store: [movePiece] *)

Lemma validCell_insert P pr x c :
  validCell P c -> validCell (<[pr := x]> P) c.
Proof. destruct c; simpl; [rewrite length_insert|]; auto. Qed.

Lemma prefix_insert_app {A} (l k : list A) i x :
  (length l <= i)%nat -> l `prefix_of` <[i := x]> (l ++ k).
Proof.
  intros H. rewrite insert_app_r_alt by exact H. apply prefix_app_r. reflexivity.
Qed.

(** [Store.movePiece] leaves every object of the store it starts from
    as it was, and the board it returns denotes the board that the
    value-passing [movePiece] computes from the denotation of its
    argument; one throws exactly when the other does. *)
Lemma Store_movePiece_refines h board move (B : list (list (option Piece))) :
  Store.readBoard h board = Some B ->
  exists res h',
    Store.movePiece board move h = Some (res, h') /\
    preserved h h' /\
    match res with
    | Ok nb =>
        exists NB, movePiece B move = Ok NB /\
                   Store.readBoard h' nb = Some NB
    | TypeError => movePiece B move = TypeError
    end.
Proof.
  destruct h as [P R]. intros HB.
  pose proof (readBoard_valid _ _ _ _ HB) as Hvalid.
  destruct (cloneBoard_spec board P R Hvalid)
    as (css & news & E & Hlen & Hview & Hvcss & Hfresh & Hinj).
  assert (B = mapGrid (view (P ++ news)) css) as ->.
  { apply readBoard_Some in HB as [HlenB HB].
    apply (list_eq_same_length _ _ (length board)).
    - unfold mapGrid. rewrite length_fmap. exact Hlen.
    - symmetry. exact HlenB.
    - intros i Brow Brow' Hi H1 H2.
      destruct (lookup_lt_is_Some_2 board i Hi) as [rr Hrr].
      destruct (HB i rr Brow Hrr H1) as (cells & Hcells & _ & ->).
      destruct (Hview i rr cells Hrr Hcells) as (cs & Hcs & <-).
      unfold mapGrid in H2. rewrite list_lookup_fmap, Hcs in H2.
      injection H2 as <-. reflexivity. }
  rewrite <- Hlen in E.
  destruct (Store_moveCells_sim (P ++ news) R css move)
    as (res1 & css' & Esim & Hlen' & Hrel).
  unfold Store.movePiece. erewrite bindM_Ok; [|exact E].
  rewrite movePiece_moveCells, moveCells_mapGrid by reflexivity.
  destruct (moveCells css move) as [[g piece]|] eqn:Emove; simpl.
  2:{ subst res1. erewrite bindM_TypeError; [|exact Esim].
      eexists _, _. split; [reflexivity|]. split; [|reflexivity].
      split; simpl; apply prefix_app_r; reflexivity. }
  destruct Hrel as [-> ->]. erewrite bindM_Ok; [|exact Esim].
  destruct (moveCells_Forall (validCell (P ++ news)) _ _ _ _ I Hvcss Emove)
    as [Hvg Hvp].
  destruct piece as [pr|]; simpl.
  2:{ eexists _, _. split; [reflexivity|]. split; [|reflexivity].
      split; simpl; apply prefix_app_r; reflexivity. }
  simpl in Hvp. destruct (lookup_lt_is_Some_2 _ _ Hvp) as [p Hp].
  rewrite Hp.
  assert (length P <= pr)%nat as Hpr.
  { destruct (moveCells_pieceAt _ _ _ _ (from move) Emove) as [Hfrom _].
    apply pieceAt_lookup in Hfrom as (_ & _ & rw & Hrw & Hx).
    eapply Hfresh; eauto. }
  cbn [Store.promote].
  destruct (negb (isKing p) && reachesKingRow p (row (to move))) eqn:Ec;
    simpl.
  - erewrite (bindM_Ok (Store.bindM (Store.readPiece pr) _)); cycle 1.
    { erewrite bindM_Ok; cycle 1.
      { unfold Store.readPiece. simpl. rewrite Hp. reflexivity. }
      apply andb_true_iff in Ec as [-> ->].
      unfold Store.crown. simpl. rewrite Hp. reflexivity. }
    eexists _, _. split; [reflexivity|]. split.
    + split; simpl; [|apply prefix_app_r; reflexivity].
      apply prefix_insert_app. exact Hpr.
    + exists (mapGrid
                (view (<[pr := {| player := player p; isKing := true |}]>
                         (P ++ news))) g).
      split; [rewrite (crowned_grid _ _ _ _ _ _ Hinj Emove Hp); reflexivity|].
      rewrite <- Hlen'.
      apply (readBoard_cloned
               (<[pr := {| player := player p; isKing := true |}]>
                  (P ++ news)) R g).
      eapply Forall_impl; [exact Hvg|]. intros rw Hrw.
      eapply Forall_impl; [exact Hrw|]. intros c. apply validCell_insert.
  - erewrite (bindM_Ok (Store.bindM (Store.readPiece pr) _)); cycle 1.
    { erewrite bindM_Ok; cycle 1.
      { unfold Store.readPiece. simpl. rewrite Hp. reflexivity. }
      assert ((if negb (isKing p)
               then if reachesKingRow p (row (to move))
                    then Store.crown pr else Store.ret tt
               else Store.ret tt) = Store.ret tt) as ->.
      { destruct (negb (isKing p)); [|reflexivity].
        simpl in Ec. rewrite Ec. reflexivity. }
      reflexivity. }
    eexists _, _. split; [reflexivity|]. split.
    + split; simpl; apply prefix_app_r; reflexivity.
    + eexists. split; [reflexivity|].
      rewrite <- Hlen'. apply (readBoard_cloned (P ++ news) R g). exact Hvg.
Qed.

(** ** [executeMove] *)

Lemma executeMove_board st m st' :
  executeMove st m = Returned st' ->
  movePiece (st_board st) m = Ok (st_board st').
Proof.
  unfold executeMove. destruct (movePiece (st_board st) m) as [nb|];
    [|discriminate].
  destruct (isJump m).
  - destruct (getValidMoves nb (to m) true) as [ms|]; [|discriminate].
    destruct (0 <? _)%nat; [intros [= <-]; reflexivity|].
    destruct (checkWinCondition _ _) as [[w|]|]; intros [= <-]; reflexivity.
  - destruct (checkWinCondition _ _) as [[w|]|]; intros [= <-]; reflexivity.
Qed.

Lemma executeMove_throws st m :
  movePiece (st_board st) m = TypeError -> executeMove st m = Threw st.
Proof. unfold executeMove. intros ->. reflexivity. Qed.

Lemma anyInRow_total f cs :
  (forall c, In c cs -> exists b, f c = Ok b) ->
  exists b, anyInRow f cs = Ok b.
Proof.
  induction cs as [|c cs IH]; simpl; intros H; [eauto|].
  destruct (H c) as [b ->]; [auto|]. simpl. destruct b; [eauto|].
  apply IH. auto.
Qed.

Lemma anyRow_total f rs :
  (forall r c, In r rs -> In c range8 -> exists b, f r c = Ok b) ->
  forall flag, exists b, anyRow f rs flag = Ok b.
Proof.
  induction rs as [|r rs IH]; intros H flag; [simpl; eauto|].
  cbn [anyRow].
  destruct (anyInRow_total (f r) range8) as [b ->];
    [intros; apply H; simpl; auto|].
  cbn [bind]. apply IH. intros. apply H; simpl; auto.
Qed.

Lemma range8_In r : In r range8 -> 0 <= r < 8.
Proof. unfold range8. simpl. lia. Qed.

Lemma checkWinCondition_total board p :
  hasAllRows board -> exists w, checkWinCondition board p = Ok w.
Proof.
  intros Hb. unfold checkWinCondition.
  match goal with
  | |- exists w, bind (anyRow ?f1 _ _) _ = _ =>
      destruct (anyRow_total f1 range8) with (flag := false) as [b ->]
  end.
  { intros r c Hr _. apply range8_In in Hr.
    destruct (cell_total board r c Hb Hr) as [x ->]. simpl. eauto. }
  cbn [bind]. destruct (negb b); [eauto|].
  match goal with
  | |- exists w, bind (anyRow ?f2 _ _) _ = _ =>
      destruct (anyRow_total f2 range8) with (flag := false) as [b' ->]
  end.
  { intros r c Hr _. apply range8_In in Hr.
    destruct (cell_total board r c Hb Hr) as [[piece|] ->]; simpl; [|eauto].
    destruct (Player_eqb _ _); [|eauto].
    destruct (getValidMoves_total board (mkPos r c) false Hb Hr) as [ms ->].
    simpl. eauto. }
  cbn [bind]. destruct (negb b'); eauto.
Qed.

Lemma executeMove_total st m :
  hasAllRows (st_board st) -> generated (st_board st) m ->
  exists st', executeMove st m = Returned st'.
Proof.
  intros Hb G. unfold executeMove.
  destruct (movePiece_generated _ _ G) as [nb Hnb]. rewrite Hnb.
  assert (hasAllRows nb) as Hb'
      by (unfold hasAllRows in *; exact (eq_trans (movePiece_length _ _ _ Hnb) Hb)).
  assert (forall q, exists w, checkWinCondition nb q = Ok w) as Hw
      by (intros q; apply checkWinCondition_total; exact Hb').
  destruct (generated_facts _ _ G) as (_ & _ & _ & Hon & _).
  unfold onBoard in Hon. apply isValidPos_spec in Hon as [Hon _].
  destruct (isJump m).
  - destruct (getValidMoves_total nb (to m) true Hb' Hon) as [ms ->].
    destruct (0 <? _)%nat; [eauto|].
    simpl. destruct (Hw (otherPlayer (st_turn st))) as [[w|] ->]; eauto.
  - simpl. destruct (Hw (otherPlayer (st_turn st))) as [[w|] ->]; eauto.
Qed.

(** ** Moves that the applicator is said to reject *)

Lemma simulateMove_movePiece_TypeError board m p :
  movePiece board m = TypeError -> simulateMove board m p = TypeError.
Proof. unfold simulateMove. intros ->. reflexivity. Qed.

(** The writes of a jump without [jumpedPiece] are those of the same
    move without capture: [if (move.isJump && move.jumpedPiece)] skips
    the removal.  ([simulateMove] still runs its chain check on the
    result, which tests [move.isJump] alone.) *)
Lemma movePiece_without_jumpedPiece board m :
  jumpedPiece m = None ->
  movePiece board m
  = movePiece board
      {| from := from m; to := to m; isJump := false; jumpedPiece := None |}.
Proof.
  intros Hj. rewrite !movePiece_moveCells. unfold moveCells, stillAtTo.
  simpl. rewrite Hj. destruct (isJump m); reflexivity.
Qed.

(** C2 (amended).  For every board and every move whose [from] square is
    empty, applying the move throws (the [TypeError] of reading
    [piece.isKing] on [null]) instead of producing a successor position:
    [simulateMove] returns nothing, [executeMove] leaves the state of the
    component, its turn included, as it was, and in the store every
    object of the input board is unchanged. *)
Theorem simulateMove_empty_from board m p :
  pieceAt board (from m) = None ->
  simulateMove board m p = TypeError /\
  (forall st, st_board st = board -> executeMove st m = Threw st) /\
  (forall h bref,
      Store.readBoard h bref = Some board ->
      exists h',
        Store.movePiece bref m h = Some (TypeError, h') /\
        preserved h h' /\
        Store.readBoard h' bref = Some board).
Proof.
  intros Hp. pose proof (movePiece_empty_from _ _ Hp) as Hm.
  split; [apply simulateMove_movePiece_TypeError; exact Hm|].
  split; [intros st <-; apply executeMove_throws; exact Hm|].
  intros h bref Hread.
  destruct (Store_movePiece_refines h bref m board Hread)
    as (res & h' & Hrun & Hpres & Hres).
  destruct res as [nb|].
  - destruct Hres as (NB & HNB & _). congruence.
  - exists h'. split; [exact Hrun|]. split; [exact Hpres|].
    eapply readBoard_preserved; eauto.
Qed.

Lemma simulateMove_empty_from_witness :
  pieceAt initializeBoard
    (from (mkMove (mkPos 3 2) (mkPos 2 1) false None)) = None /\
  simulateMove initializeBoard (mkMove (mkPos 3 2) (mkPos 2 1) false None) red
  = TypeError /\
  (forall st, st_board st = initializeBoard ->
              executeMove st (mkMove (mkPos 3 2) (mkPos 2 1) false None)
              = Threw st) /\
  (forall h bref,
      Store.readBoard h bref = Some initializeBoard ->
      exists h',
        Store.movePiece bref (mkMove (mkPos 3 2) (mkPos 2 1) false None) h
        = Some (TypeError, h') /\
        preserved h h' /\
        Store.readBoard h' bref = Some initializeBoard).
Proof.
  split; [reflexivity|].
  apply (simulateMove_empty_from initializeBoard
           (mkMove (mkPos 3 2) (mkPos 2 1) false None) red).
  reflexivity.
Defined.

(** C2 as stated fails for its second case, a move with [isJump] true
    and no [jumpedPiece]: the red man on (5,2) is moved to (4,3) by such
    a move, and [simulateMove] returns a successor position instead of
    throwing. *)
Lemma simulateMove_accepts_jump_without_jumpedPiece :
  ~ (forall board m p,
        pieceAt board (from m) = None \/
        (isJump m = true /\ jumpedPiece m = None) ->
        simulateMove board m p = TypeError).
Proof.
  intros H.
  specialize (H (place emptyBoard 5 2 (man red))
                (mkMove (mkPos 5 2) (mkPos 4 3) true None) red
                (or_intror (conj eq_refl eq_refl))).
  discriminate H.
Qed.

(** ** Promotion and the frame of a move *)

Lemma reachesKingRow_cases piece r :
  reachesKingRow piece r
  = match player piece with red => r =? 0 | black => r =? 7 end.
Proof.
  unfold reachesKingRow. destruct (player piece); simpl.
  - apply orb_false_r.
  - reflexivity.
Qed.

(** C6.  When a move carries the piece [piece] from [m.from] to [m.to]
    (the landing square is neither [m.from] nor the jumped square), the
    piece on [m.to] in the board that [simulateMove] returns, and in the
    board that [executeMove] sets, has the owner of [piece] and the king
    flag [piece.isKing || (m.to.row is 0 for red, 7 for black)]; so a
    king stays a king, and a man that lands on its farthest row is a
    king in the board on which the continuation of the capture is looked
    up.  Both functions return for every move generated on a board with
    its eight rows. *)
Theorem promotion_after_move board m piece :
  pieceAt board (from m) = Some piece ->
  stillAtTo m = true ->
  0 <= col (to m) ->
  let moved :=
    {| player := player piece;
       isKing := isKing piece
                 || match player piece with
                    | red => row (to m) =? 0
                    | black => row (to m) =? 7
                    end |} in
  (forall p s, simulateMove board m p = Ok s ->
               pieceAt (newBoard s) (to m) = Some moved) /\
  (forall st st', st_board st = board -> executeMove st m = Returned st' ->
                  pieceAt (st_board st') (to m) = Some moved) /\
  (isKing piece = true -> isKing moved = true) /\
  (hasAllRows board -> generated board m ->
   forall p st, st_board st = board ->
     (exists s, simulateMove board m p = Ok s) /\
     (exists st', executeMove st m = Returned st')).
Proof.
  intros Hp Hstill Hc moved.
  assert (forall nb, movePiece board m = Ok nb ->
                     pieceAt nb (to m) = Some moved) as Hmoved.
  { intros nb Hnb.
    rewrite (movePiece_pieceAt _ _ _ Hnb Hstill Hc (to m)).
    unfold afterMove. rewrite Position_eqb_refl, Hp.
    unfold landed, moved. rewrite reachesKingRow_cases. reflexivity. }
  split; [|split; [|split]].
  - intros p s Hs. apply Hmoved. apply (simulateMove_inv _ _ _ _ Hs).
  - intros st st' <- Hex. apply Hmoved. apply executeMove_board. exact Hex.
  - intros Hk. unfold moved. simpl. rewrite Hk. reflexivity.
  - intros Hb G p st <-. split.
    + apply simulateMove_generated_total; assumption.
    + apply executeMove_total; assumption.
Qed.

Lemma promotion_after_move_witness :
  let board :=
    place (place (place emptyBoard 2 1 (man red)) 1 2 (man black))
      1 4 (man black) in
  let m := mkMove (mkPos 2 1) (mkPos 0 3) true (Some (mkPos 1 2)) in
  pieceAt board (from m) = Some (man red) /\
  stillAtTo m = true /\
  0 <= col (to m) /\
  let moved := {| player := red; isKing := true |} in
  (forall p s, simulateMove board m p = Ok s ->
               pieceAt (newBoard s) (to m) = Some moved) /\
  (forall st st', st_board st = board -> executeMove st m = Returned st' ->
                  pieceAt (st_board st') (to m) = Some moved) /\
  (isKing (man red) = true -> isKing moved = true) /\
  (hasAllRows board -> generated board m ->
   forall p st, st_board st = board ->
     (exists s, simulateMove board m p = Ok s) /\
     (exists st', executeMove st m = Returned st')).
Proof.
  intros board m.
  split; [reflexivity|]. split; [reflexivity|]. split; [simpl; lia|].
  apply (promotion_after_move board m (man red));
    [reflexivity | reflexivity | simpl; lia].
Defined.

(** The man promoted by that jump has a second capture, backwards over
    (1,4), which only a king can make: the turn stays with red. *)
Lemma promoted_man_continues_as_king :
  exists nb,
    simulateMove
      (place (place (place emptyBoard 2 1 (man red)) 1 2 (man black))
         1 4 (man black))
      (mkMove (mkPos 2 1) (mkPos 0 3) true (Some (mkPos 1 2))) red
    = Ok (mkSim nb red (Some (mkPos 0 3))) /\
    pieceAt nb (mkPos 0 3) = Some (king red) /\
    getValidMoves nb (mkPos 0 3) true
    = Ok [mkMove (mkPos 0 3) (mkPos 2 5) true (Some (mkPos 1 4))].
Proof. eexists. repeat split. Qed.

(** C10.  For a move [m] generated by [getValidMoves] on a board with
    its eight rows, the board returned by [simulateMove] agrees with the
    input board at every square other than [m.from], [m.to] and the
    jumped square: [m.from] is empty, [m.to] holds the moved piece (with
    its king flag updated), the jumped square of a jump is empty, every
    other square is unchanged.  In the store, where rows and pieces are
    shared objects, the same statements leave every object of the input
    board as it was, since they write to fresh copies: the input board
    still reads as before, and the returned board reads as the board
    just described. *)
Theorem simulateMove_frame board pos flag ms m p :
  hasAllRows board ->
  getValidMoves board pos flag = Ok ms ->
  In m ms ->
  exists s piece,
    simulateMove board m p = Ok s /\
    pieceAt board (from m) = Some piece /\
    pieceAt (newBoard s) (from m) = None /\
    pieceAt (newBoard s) (to m) = Some (landed piece m) /\
    (forall jp, jumpedSquare m = Some jp -> pieceAt (newBoard s) jp = None) /\
    (forall q, q <> from m -> q <> to m -> jumpedSquare m <> Some q ->
               pieceAt (newBoard s) q = pieceAt board q) /\
    (forall h bref,
        Store.readBoard h bref = Some board ->
        exists nb h',
          Store.movePiece bref m h = Some (Ok nb, h') /\
          preserved h h' /\
          Store.readBoard h' bref = Some board /\
          Store.readBoard h' nb = Some (newBoard s)).
Proof.
  intros Hb Hms Hm.
  apply getValidMoves_generated in Hms. rewrite List.Forall_forall in Hms.
  destruct (Hms m Hm) as [G _].
  destruct (generated_facts _ _ G)
    as (piece & Hp & Ht & Hon & Hrow & Hstill & Hj).
  destruct (movePiece_generated _ _ G) as [nb Hnb].
  destruct (simulateMove_total _ _ p _ Hb Hnb Hon) as (s & Hs & <-).
  pose proof (movePiece_pieceAt _ _ _ Hnb Hstill (onBoard_col _ Hon)) as Hat.
  assert (to m <> from m) as Hne.
  { unfold stillAtTo in Hstill. apply andb_true_iff in Hstill as [Hs' _].
    apply negb_true_iff, Position_eqb_neq in Hs'. exact Hs'. }
  exists s, piece. split; [exact Hs|]. split; [exact Hp|].
  split; [|split; [|split; [|split]]].
  - rewrite Hat. unfold afterMove.
    replace (Position_eqb (from m) (to m)) with false
      by (symmetry; apply Position_eqb_neq; congruence).
    rewrite Position_eqb_refl. reflexivity.
  - rewrite Hat. unfold afterMove. rewrite Position_eqb_refl, Hp. reflexivity.
  - intros jp Hjp. rewrite Hjp in Hj. destruct Hj as (Hi & _ & Hjf & Hjt).
    rewrite Hat. unfold afterMove.
    replace (Position_eqb jp (to m)) with false
      by (symmetry; apply Position_eqb_neq; exact Hjt).
    replace (Position_eqb jp (from m)) with false
      by (symmetry; apply Position_eqb_neq; exact Hjf).
    unfold jumpedSquare in Hjp. rewrite Hi in Hjp |- *. rewrite Hjp.
    rewrite Position_eqb_refl. reflexivity.
  - intros q Hqf Hqt Hqj. rewrite Hat. unfold afterMove.
    replace (Position_eqb q (to m)) with false
      by (symmetry; apply Position_eqb_neq; exact Hqt).
    replace (Position_eqb q (from m)) with false
      by (symmetry; apply Position_eqb_neq; exact Hqf).
    unfold jumpedSquare in Hqj. destruct (isJump m); [|reflexivity].
    destruct (jumpedPiece m) as [jp|]; [|reflexivity]. simpl.
    replace (Position_eqb q jp) with false; [reflexivity|].
    symmetry. apply Position_eqb_neq. congruence.
  - intros h bref Hread.
    destruct (Store_movePiece_refines h bref m board Hread)
      as (res & h' & Hrun & Hpres & Hres).
    destruct res as [nb|]; [|congruence].
    destruct Hres as (NB & HNB & Hread').
    exists nb, h'. split; [exact Hrun|]. split; [exact Hpres|].
    split; [eapply readBoard_preserved; eauto|].
    rewrite Hnb in HNB. injection HNB as <-. exact Hread'.
Qed.

Lemma simulateMove_frame_witness :
  let board :=
    place (place (place emptyBoard 1 1 (man black)) 2 2 (man red))
      4 4 (man red) in
  let m := mkMove (mkPos 1 1) (mkPos 3 3) true (Some (mkPos 2 2)) in
  let ms := [m; mkMove (mkPos 1 1) (mkPos 2 0) false None] in
  hasAllRows board /\
  getValidMoves board (mkPos 1 1) false = Ok ms /\
  In m ms /\
  exists s piece,
    simulateMove board m black = Ok s /\
    pieceAt board (from m) = Some piece /\
    pieceAt (newBoard s) (from m) = None /\
    pieceAt (newBoard s) (to m) = Some (landed piece m) /\
    (forall jp, jumpedSquare m = Some jp -> pieceAt (newBoard s) jp = None) /\
    (forall q, q <> from m -> q <> to m -> jumpedSquare m <> Some q ->
               pieceAt (newBoard s) q = pieceAt board q) /\
    (forall h bref,
        Store.readBoard h bref = Some board ->
        exists nb h',
          Store.movePiece bref m h = Some (Ok nb, h') /\
          preserved h h' /\
          Store.readBoard h' bref = Some board /\
          Store.readBoard h' nb = Some (newBoard s)).
Proof.
  intros board m ms.
  split; [reflexivity|]. split; [reflexivity|]. split; [left; reflexivity|].
  apply (simulateMove_frame board (mkPos 1 1) false ms m black);
    [reflexivity | reflexivity | left; reflexivity].
Defined.

(** A run on a small store: the red man, object 0, of row object 1 is
    moved to its king row.  The two rows and the piece are copied
    (row objects 2 and 3, piece object 1), the writes and the crowning
    go to the copies, and the objects of the input board still hold the
    man on its old square. *)
Lemma Store_movePiece_example :
  Store.movePiece [0; 1]%nat (mkMove (mkPos 1 0) (mkPos 0 1) false None)
    (Store.mkHeap [man red] [[None; None]; [Some 0%nat; None]])
  = Some (Ok [2; 3]%nat,
          Store.mkHeap [man red; king red]
            [[None; None]; [Some 0%nat; None];
             [None; Some 1%nat]; [None; None]]).
Proof. reflexivity. Qed.

(** * Further properties *)

(** ** [getValidMoves] returns every generated move *)

Lemma jumpStep_complete board pos piece d victim :
  onBoard (step2 pos d) ->
  is_Some (arr_get board (row (step2 pos d))) ->
  pieceAt board (step2 pos d) = None ->
  pieceAt board (step1 pos d) = Some victim ->
  player victim <> player piece ->
  jumpStep board pos piece d
  = Ok [ {| from := pos; to := step2 pos d; isJump := true;
            jumpedPiece := Some (step1 pos d) |} ].
Proof.
  intros Hon Hrow Ht Hv Hpl. unfold jumpStep. destruct d as [dRow dCol].
  unfold onBoard, step2, step1 in *. simpl in *. rewrite Hon.
  rewrite (proj2 (cell_Ok board _ _ None) (conj Hrow Ht)). cbn [bind].
  destruct (pieceAt_Some_row _ _ _ Hv) as [Hrow' _]. simpl in Hrow'.
  rewrite (proj2 (cell_Ok board _ _ (Some victim)) (conj Hrow' Hv)).
  cbn [bind].
  apply Player_eqb_neq in Hpl. rewrite Hpl. reflexivity.
Qed.

Lemma slideStep_complete board pos d :
  onBoard (step1 pos d) ->
  is_Some (arr_get board (row (step1 pos d))) ->
  pieceAt board (step1 pos d) = None ->
  slideStep board pos d
  = Ok [ {| from := pos; to := step1 pos d; isJump := false;
            jumpedPiece := None |} ].
Proof.
  intros Hon Hrow Ht. unfold slideStep. destruct d as [dRow dCol].
  unfold onBoard, step1 in *. simpl in *. rewrite Hon.
  rewrite (proj2 (cell_Ok board _ _ None) (conj Hrow Ht)). reflexivity.
Qed.

Lemma getValidMoves_inv board pos flag ms :
  getValidMoves board pos flag = Ok ms ->
  (pieceAt board pos = None /\ ms = []) \/
  exists piece js,
    pieceAt board pos = Some piece /\
    forEachPush (jumpStep board pos piece) (directions piece) = Ok js /\
    ((js <> [] /\ flag = true /\ ms = js) \/
     ((flag = false \/ js = []) /\
      exists ss,
        forEachPush (slideStep board pos) (directions piece) = Ok ss /\
        ms = js ++ ss)).
Proof.
  unfold getValidMoves. intros H. inv_bind. apply cell_Ok in E as [_ E].
  replace (mkPos (row pos) (col pos)) with pos in E by (destruct pos; auto).
  destruct x as [piece|]; [|inv_bind; left; auto].
  inv_bind. right. exists piece, x. split; [exact E|]. split; [exact E0|].
  destruct x as [|j js]; simpl in H.
  - right. split; [auto|]. rewrite orb_true_r in H. inv_bind. eauto.
  - destruct flag; simpl in H; inv_bind.
    + left. repeat split; auto; discriminate.
    + right. split; [auto|]. eauto.
Qed.

Lemma getValidMoves_complete board pos flag ms m :
  getValidMoves board pos flag = Ok ms ->
  generated board m -> from m = pos ->
  (flag = true -> canCapture board pos -> isJump m = true) ->
  In m ms.
Proof.
  intros H G Hfrom Hflag.
  pose proof (canCapture_iff _ _ _ _ H) as Hcap.
  destruct (getValidMoves_inv _ _ _ _ H)
    as [[Hp _] | (piece & js & Hp & Hjs & Hms)].
  { destruct (generated_facts _ _ G) as (piece & Hp' & _). congruence. }
  pose proof (forEachPush_Forall _ _ _ _ (jumpStep_isJump board pos piece) Hjs)
    as Hj.
  assert (forall d victim,
            In d (directions piece) ->
            onBoard (step2 pos d) ->
            is_Some (arr_get board (row (step2 pos d))) ->
            pieceAt board (step2 pos d) = None ->
            pieceAt board (step1 pos d) = Some victim ->
            player victim <> player piece ->
            In {| from := pos; to := step2 pos d; isJump := true;
                  jumpedPiece := Some (step1 pos d) |} js) as Hin.
  { intros d victim Hd Hon Hrow Ht Hv Hpl.
    apply (proj2 (forEachPush_In _ _ _ Hjs _)).
    eexists d, _. split; [exact Hd|]. split.
    - apply (jumpStep_complete _ _ _ _ victim); auto.
    - left. reflexivity. }
  destruct G as [pos' piece' d Hp' Hd Hon Hrow Ht
                | pos' piece' d victim Hp' Hd Hon Hrow Ht Hv Hpl];
    simpl in Hfrom; subst pos'; rewrite Hp in Hp'; injection Hp' as <-.
  - destruct Hms as [(Hne & -> & ->) | (Hor & ss & Hss & ->)].
    + exfalso. specialize (Hflag eq_refl). simpl in Hflag.
      assert (true = false) as [=]. symmetry. apply Hflag. apply Hcap.
      destruct (filter_isJump_jumps js [] Hj (List.Forall_nil _)) as [Hx _].
      rewrite app_nil_r in Hx. rewrite Hx. exact Hne.
    + apply in_or_app. right.
      apply (proj2 (forEachPush_In _ _ _ Hss _)).
      eexists d, _. split; [exact Hd|]. split.
      * apply slideStep_complete; auto.
      * left. reflexivity.
  - specialize (Hin d victim Hd Hon Hrow Ht Hv Hpl).
    destruct Hms as [(Hne & -> & ->) | (Hor & ss & Hss & ->)]; [exact Hin|].
    apply in_or_app. left. exact Hin.
Qed.

Lemma getValidMoves_In board pos flag ms :
  getValidMoves board pos flag = Ok ms ->
  forall m,
    In m ms <->
    generated board m /\ from m = pos /\
    (flag = true -> canCapture board pos -> isJump m = true).
Proof.
  intros H m. split.
  - intros Hm. pose proof (getValidMoves_generated _ _ _ _ H) as G.
    rewrite List.Forall_forall in G. destruct (G m Hm) as [Gm Hfrom].
    split; [exact Gm|]. split; [exact Hfrom|].
    intros -> Hcap. apply (canCapture_iff _ _ _ _ H) in Hcap.
    destruct (getValidMoves_inv _ _ _ _ H)
      as [[_ ->] | (piece & js & Hp & Hjs & Hms)]; [destruct Hm|].
    pose proof (forEachPush_Forall _ _ _ _ (jumpStep_isJump board pos piece)
                  Hjs) as Hj.
    rewrite List.Forall_forall in Hj.
    destruct Hms as [(Hne & _ & ->) | ([[=] | ->] & ss & Hss & ->)];
      [auto|].
    exfalso. apply Hcap. simpl.
    pose proof (forEachPush_Forall _ _ _ _ (slideStep_isJump board pos) Hss)
      as Hs.
    destruct (filter_isJump_jumps [] ss (List.Forall_nil _) Hs) as [Hx _].
    exact Hx.
  - intros (G & Hfrom & Hflag).
    eapply getValidMoves_complete; eauto.
Qed.

(** X1.  [getValidMoves] returns exactly the moves of the rules: a move is
    in the list returned for [pos] if and only if it is a slide or a
    jump that the rules generate on the board for the piece on [pos] and,
    when [mustJump] is set and that piece has a capture, it is a jump.
    No generated move is left out. *)
Theorem getValidMoves_exact board pos flag ms :
  getValidMoves board pos flag = Ok ms ->
  forall m,
    In m ms <->
    generated board m /\ from m = pos /\
    (flag = true -> canCapture board pos -> isJump m = true).
Proof. apply getValidMoves_In. Qed.

Lemma getValidMoves_exact_witness :
  getValidMoves captureBoard (mkPos 3 2) true = Ok [captureMove] /\
  forall m,
    In m [captureMove] <->
    generated captureBoard m /\ from m = mkPos 3 2 /\
    (true = true -> canCapture captureBoard (mkPos 3 2) -> isJump m = true).
Proof.
  split; [reflexivity|].
  apply (getValidMoves_exact captureBoard (mkPos 3 2) true [captureMove]).
  reflexivity.
Defined.

Lemma directions_forward piece d :
  In d (directions piece) -> isKing piece = false ->
  fst d = match player piece with red => -1 | black => 1 end.
Proof.
  unfold directions. intros H K. rewrite K in H. revert H.
  destruct (player piece); simpl; intuition (subst; reflexivity).
Qed.

(** X2.  Every move that [getValidMoves] returns for [pos] starts on
    [pos], where a piece stands, and ends on an empty square of the
    board; it is one diagonal step ([isJump] false, no [jumpedPiece]) or
    two diagonal steps in one direction over a piece of the other player
    ([isJump] true, [jumpedPiece] the square in between).  A man only
    moves forward: red towards row 0, black towards row 7. *)
Theorem getValidMoves_geometry board pos flag ms m :
  getValidMoves board pos flag = Ok ms -> In m ms ->
  exists piece dr dc,
    pieceAt board pos = Some piece /\
    (dr = 1 \/ dr = -1) /\ (dc = 1 \/ dc = -1) /\
    (isKing piece = false ->
     dr = match player piece with red => -1 | black => 1 end) /\
    from m = pos /\
    onBoard (to m) /\
    pieceAt board (to m) = None /\
    ((isJump m = false /\ jumpedPiece m = None /\
      to m = mkPos (row pos + dr) (col pos + dc))
     \/
     (isJump m = true /\
      to m = mkPos (row pos + dr * 2) (col pos + dc * 2) /\
      jumpedPiece m = Some (mkPos (row pos + dr) (col pos + dc)) /\
      exists victim,
        pieceAt board (mkPos (row pos + dr) (col pos + dc)) = Some victim /\
        player victim <> player piece)).
Proof.
  intros H Hm. apply getValidMoves_generated in H.
  rewrite List.Forall_forall in H. destruct (H m Hm) as [G Hfrom].
  destruct G as [pos' piece d Hp Hd Hon Hrow Ht
                | pos' piece d victim Hp Hd Hon Hrow Ht Hv Hpl];
    simpl in Hfrom; subst pos'; exists piece, (fst d), (snd d);
    pose proof (directions_unit _ _ Hd) as [Hr Hc];
    pose proof (directions_forward _ _ Hd) as Hf;
    simpl; repeat (split; [assumption || reflexivity|]).
  - left. auto.
  - right. repeat (split; [reflexivity|]). exists victim. auto.
Qed.

Lemma getValidMoves_geometry_witness :
  getValidMoves captureBoard (mkPos 3 2) false
  = Ok [captureMove; mkMove (mkPos 3 2) (mkPos 4 1) false None] /\
  In captureMove [captureMove; mkMove (mkPos 3 2) (mkPos 4 1) false None] /\
  exists piece dr dc,
    pieceAt captureBoard (mkPos 3 2) = Some piece /\
    (dr = 1 \/ dr = -1) /\ (dc = 1 \/ dc = -1) /\
    (isKing piece = false ->
     dr = match player piece with red => -1 | black => 1 end) /\
    from captureMove = mkPos 3 2 /\
    onBoard (to captureMove) /\
    pieceAt captureBoard (to captureMove) = None /\
    ((isJump captureMove = false /\ jumpedPiece captureMove = None /\
      to captureMove = mkPos (row (mkPos 3 2) + dr) (col (mkPos 3 2) + dc))
     \/
     (isJump captureMove = true /\
      to captureMove
      = mkPos (row (mkPos 3 2) + dr * 2) (col (mkPos 3 2) + dc * 2) /\
      jumpedPiece captureMove
      = Some (mkPos (row (mkPos 3 2) + dr) (col (mkPos 3 2) + dc)) /\
      exists victim,
        pieceAt captureBoard
          (mkPos (row (mkPos 3 2) + dr) (col (mkPos 3 2) + dc))
        = Some victim /\
        player victim <> player piece)).
Proof.
  split; [reflexivity|]. split; [left; reflexivity|].
  apply (getValidMoves_geometry captureBoard (mkPos 3 2) false
           [captureMove; mkMove (mkPos 3 2) (mkPos 4 1) false None]
           captureMove);
    [reflexivity | left; reflexivity].
Defined.

(** ** At most one move per direction, all to different squares *)

Lemma forEachPush_keys {A B C} (f : A -> result (list B)) (key : B -> C)
  (g : A -> C) xs ms :
  (forall x l, In x xs -> f x = Ok l -> forall b, In b l -> l = [b] /\ key b = g x) ->
  forEachPush f xs = Ok ms ->
  (length ms <= length xs)%nat /\
  (forall c, In c (map key ms) -> In c (map g xs)) /\
  (NoDup (map g xs) -> NoDup (map key ms)).
Proof.
  revert ms. induction xs as [|x xs IH]; simpl; intros ms Hf H; inv_bind.
  - simpl. repeat split; auto; constructor.
  - destruct (IH x1) as (Hlen & Hsub & Hnd); [eauto|exact E0|].
    assert (x0 = [] \/ exists b, x0 = [b] /\ key b = g x) as [->|(b & -> & Hb)].
    { destruct x0 as [|b l]; [auto|]. right. exists b.
      destruct (Hf x (b :: l) (or_introl eq_refl) E b (or_introl eq_refl)).
      auto. }
    + simpl. split; [lia|]. split; [auto|]. intros N. inversion N. auto.
    + simpl. split; [lia|]. split.
      * intros c [<-|Hc]; auto.
      * intros N. inversion N as [|? ? Hnot N']. subst.
        constructor; [|auto]. rewrite Hb. intros Hin. apply Hnot.
        apply list_elem_of_In, Hsub, list_elem_of_In, Hin.
Qed.

Lemma jumpStep_key board pos piece d l :
  jumpStep board pos piece d = Ok l ->
  forall m, In m l ->
    l = [m] /\ to m = step2 pos d /\
    exists victim, pieceAt board (step1 pos d) = Some victim.
Proof.
  unfold jumpStep. destruct d as [dRow dCol].
  destruct (isValidPos _ _); [|intros [= <-] m []].
  intros H. inv_bind. apply cell_Ok in E0 as [_ E0].
  destruct x as [?|]; [inv_bind; intros m []|].
  destruct x0 as [victim|]; [|inv_bind; intros m []].
  destruct (negb _); inv_bind; intros m Hm; simpl in Hm; [|tauto].
  destruct Hm as [<-|[]].
  split; [reflexivity|]. split; [reflexivity|]. eauto.
Qed.

Lemma slideStep_key board pos d l :
  slideStep board pos d = Ok l ->
  forall m, In m l ->
    l = [m] /\ to m = step1 pos d /\ pieceAt board (step1 pos d) = None.
Proof.
  unfold slideStep. destruct d as [dRow dCol].
  destruct (isValidPos _ _); [|intros [= <-] m []].
  intros H. inv_bind. apply cell_Ok in E as [_ E].
  destruct x as [?|]; inv_bind; intros m Hm; simpl in Hm; [tauto|].
  destruct Hm as [<-|[]]. auto.
Qed.

Lemma forEachPush_exclusive {A B} (f g : A -> result (list B)) xs a b :
  (forall x l l', In x xs -> f x = Ok l -> g x = Ok l' ->
                  (length l + length l' <= 1)%nat) ->
  forEachPush f xs = Ok a -> forEachPush g xs = Ok b ->
  (length a + length b <= length xs)%nat.
Proof.
  revert a b. induction xs as [|x xs IH]; simpl; intros a b Hx Ha Hb;
    inv_bind; simpl; [lia|].
  rewrite !length_app.
  match goal with
  | Hf1 : f x = Ok ?l, Hf2 : forEachPush f xs = Ok ?a',
    Hg1 : g x = Ok ?l', Hg2 : forEachPush g xs = Ok ?b' |- _ =>
      specialize (IH a' b' (fun y l l' Hy => Hx y l l' (or_intror Hy))
                    Hf2 Hg2);
      specialize (Hx x l l' (or_introl eq_refl) Hf1 Hg1)
  end.
  lia.
Qed.

Lemma directions_NoDup piece : NoDup (directions piece).
Proof.
  apply NoDup_ListNoDup. unfold directions.
  destruct (isKing piece), (player piece);
    repeat (constructor; [simpl; intuition congruence|]); constructor.
Qed.

Lemma directions_length piece :
  length (directions piece) = if isKing piece then 4%nat else 2%nat.
Proof. unfold directions. destruct (isKing piece), (player piece); auto. Qed.

Lemma NoDup_map_inj {A B} (f : A -> B) l :
  (forall x y, In x l -> In y l -> f x = f y -> x = y) ->
  NoDup l -> NoDup (map f l).
Proof.
  intros Hinj N. induction N as [|x l Hx N IH]; simpl; constructor.
  - intros Hin. apply list_elem_of_In, in_map_iff in Hin as (y & Hy & Hin).
    assert (y = x) by (apply Hinj; simpl; auto). subst.
    apply Hx, list_elem_of_In, Hin.
  - apply IH. intros; apply Hinj; simpl; auto.
Qed.

(** X3.  The moves that [getValidMoves] returns for one piece lead to
    pairwise different squares, and there are at most four of them for a
    king and two for a man: no direction yields both a slide and a jump.
    The [find] of [handleSquareClick] by target square is therefore
    unambiguous. *)
Theorem getValidMoves_distinct_targets board pos flag ms piece :
  getValidMoves board pos flag = Ok ms ->
  pieceAt board pos = Some piece ->
  NoDup (map to ms) /\
  (length ms <= if isKing piece then 4 else 2)%nat.
Proof.
  intros H Hp.
  destruct (getValidMoves_inv _ _ _ _ H)
    as [[Hp' _] | (piece' & js & Hp' & Hjs & Hms)]; [congruence|].
  rewrite Hp in Hp'. injection Hp' as <-.
  rewrite <- directions_length.
  pose proof (directions_NoDup piece) as ND.
  destruct (forEachPush_keys (jumpStep board pos piece) to (step2 pos)
              (directions piece) js) as (Hlj & Hsj & Hnj); [|exact Hjs|].
  { intros d l Hd Hl m Hm.
    destruct (jumpStep_key _ _ _ _ _ Hl m Hm) as (? & ? & _). auto. }
  assert (NoDup (map (step2 pos) (directions piece))) as N2.
  { apply NoDup_map_inj; [|exact ND]. intros [a b] [a' b'] _ _.
    unfold step2. simpl. intros [=]. f_equal; lia. }
  assert (NoDup (map (step1 pos) (directions piece))) as N1.
  { apply NoDup_map_inj; [|exact ND]. intros [a b] [a' b'] _ _.
    unfold step1. simpl. intros [=]. f_equal; lia. }
  destruct Hms as [(_ & _ & ->) | (_ & ss & Hss & ->)]; [auto|].
  destruct (forEachPush_keys (slideStep board pos) to (step1 pos)
              (directions piece) ss) as (Hls & Hs & Hns); [|exact Hss|].
  { intros d l Hd Hl m Hm.
    destruct (slideStep_key _ _ _ _ Hl m Hm) as (? & ? & _). auto. }
  split.
  - rewrite map_app. apply NoDup_app. split; [auto|]. split; [|auto].
    intros q Hq Hq'. apply list_elem_of_In in Hq, Hq'.
    apply Hsj in Hq. apply Hs in Hq'.
    apply in_map_iff in Hq as (d & <- & Hd), Hq' as (d' & E & Hd').
    apply directions_unit in Hd, Hd'. unfold step1, step2 in E.
    injection E as E1 E2. lia.
  - rewrite length_app.
    apply (forEachPush_exclusive (jumpStep board pos piece)
             (slideStep board pos) _ _ _); [|exact Hjs|exact Hss].
    intros d l l' Hd Hl Hl'.
    destruct l as [|m l]; [|destruct l' as [|m' l']].
    + destruct l' as [|m' l']; [simpl; lia|].
      destruct (slideStep_key _ _ _ _ Hl' m' (or_introl eq_refl)) as ([= ->] & _).
      simpl. lia.
    + destruct (jumpStep_key _ _ _ _ _ Hl m (or_introl eq_refl)) as ([= ->] & _).
      simpl. lia.
    + destruct (jumpStep_key _ _ _ _ _ Hl m (or_introl eq_refl))
        as (_ & _ & victim & Hv).
      destruct (slideStep_key _ _ _ _ Hl' m' (or_introl eq_refl))
        as (_ & _ & Hn).
      congruence.
Qed.

Lemma getValidMoves_distinct_targets_witness :
  getValidMoves captureBoard (mkPos 3 2) false
  = Ok [captureMove; mkMove (mkPos 3 2) (mkPos 4 1) false None] /\
  pieceAt captureBoard (mkPos 3 2) = Some (man black) /\
  NoDup (map to [captureMove; mkMove (mkPos 3 2) (mkPos 4 1) false None]) /\
  (length [captureMove; mkMove (mkPos 3 2) (mkPos 4 1) false None]
   <= if isKing (man black) then 4 else 2)%nat.
Proof.
  split; [reflexivity|]. split; [reflexivity|].
  apply (getValidMoves_distinct_targets captureBoard (mkPos 3 2) false
           [captureMove; mkMove (mkPos 3 2) (mkPos 4 1) false None]
           (man black));
    reflexivity.
Defined.

(** ** [getValidMoves]: the row that is not there *)

Lemma cell_TypeError_iff {A} (board : list (list (option A))) r c :
  cell board r c = TypeError <-> arr_get board r = None.
Proof.
  unfold cell. destruct (arr_get board r); split; congruence.
Qed.

(** X4.  On a board with its eight rows [getValidMoves] throws exactly
    when [pos.row] is not one of 0..7 (the read of [board[pos.row]] is
    [undefined]); for a row of the board and a square with no piece on
    it, a column outside the row included, it returns the empty list. *)
Theorem getValidMoves_throws board pos flag :
  hasAllRows board ->
  (getValidMoves board pos flag = TypeError <-> ~ (0 <= row pos < 8)) /\
  (0 <= row pos < 8 -> pieceAt board pos = None ->
   getValidMoves board pos flag = Ok []).
Proof.
  intros Hb. split; [split|].
  - intros H Hr. destruct (getValidMoves_total board pos flag Hb Hr) as [ms E].
    congruence.
  - intros Hr. unfold getValidMoves.
    replace (cell board (row pos) (col pos)) with (@TypeError (option Piece));
      [reflexivity|].
    symmetry. apply cell_TypeError_iff.
    destruct (arr_get board (row pos)) eqn:E; [|reflexivity].
    exfalso. apply Hr. unfold hasAllRows in Hb.
    assert (is_Some (arr_get board (row pos))) as Hs by eauto.
    apply arr_get_is_Some in Hs. rewrite Hb in Hs. lia.
  - intros Hr Hp. unfold getValidMoves.
    destruct (cell_total board (row pos) (col pos) Hb Hr) as [x E].
    rewrite E. apply cell_Ok in E as [_ E].
    replace (mkPos (row pos) (col pos)) with pos in E by (destruct pos; auto).
    rewrite Hp in E. subst x. reflexivity.
Qed.

Lemma getValidMoves_throws_witness :
  hasAllRows captureBoard /\
  (getValidMoves captureBoard (mkPos 8 1) false = TypeError
   <-> ~ (0 <= row (mkPos 8 1) < 8)) /\
  (0 <= row (mkPos 8 1) < 8 -> pieceAt captureBoard (mkPos 8 1) = None ->
   getValidMoves captureBoard (mkPos 8 1) false = Ok []).
Proof.
  split; [reflexivity|].
  apply (getValidMoves_throws captureBoard (mkPos 8 1) false). reflexivity.
Defined.

(** ** The squares that the loops visit *)

Lemma range8_In_iff r : In r range8 <-> 0 <= r < 8.
Proof.
  unfold range8. simpl. split; [intuition lia|].
  intros H.
  assert (r = 0 \/ r = 1 \/ r = 2 \/ r = 3 \/ r = 4 \/ r = 5 \/ r = 6 \/ r = 7)
    by lia.
  intuition auto.
Qed.

Lemma squares_In_iff r c : In (r, c) squares <-> 0 <= r < 8 /\ 0 <= c < 8.
Proof.
  unfold squares. rewrite in_flat_map. split.
  - intros (r' & Hr & Hc). apply in_map_iff in Hc as (c' & [= <- <-] & Hc).
    apply range8_In_iff in Hr, Hc. auto.
  - intros [Hr Hc]. exists r. split; [apply range8_In_iff, Hr|].
    apply in_map_iff. exists c. split; [auto|apply range8_In_iff, Hc].
Qed.

Lemma squares_onBoard pos : In (row pos, col pos) squares <-> onBoard pos.
Proof.
  unfold onBoard. rewrite isValidPos_spec. apply squares_In_iff.
Qed.

Lemma anySquare_true f sqs :
  anySquare f sqs = Ok true ->
  exists r c, In (r, c) sqs /\ f r c = Ok true.
Proof.
  induction sqs as [|[r c] sqs IH]; simpl; intros H; [discriminate|].
  inv_bind. destruct x.
  - exists r, c. auto.
  - destruct (IH H) as (r' & c' & Hin & Hf). exists r', c'. auto.
Qed.

Lemma anySquare_false f sqs :
  anySquare f sqs = Ok false ->
  forall r c, In (r, c) sqs -> f r c = Ok false.
Proof.
  induction sqs as [|[r c] sqs IH]; simpl; intros H r' c' Hin; [tauto|].
  inv_bind. destruct x; [discriminate|].
  destruct Hin as [[= <- <-]|Hin]; auto.
Qed.

Lemma existsb_isJump_filter (ms : list Move) :
  existsb isJump ms = true <-> List.filter isJump ms <> [].
Proof.
  induction ms as [|m ms IH]; simpl; [split; [discriminate|congruence]|].
  destruct (isJump m); simpl; [split; [discriminate|reflexivity]|exact IH].
Qed.

Lemma hasAnyJumps_mustCapture board p b :
  hasAnyJumps board p = Ok b -> (b = true <-> mustCapture board p).
Proof.
  unfold hasAnyJumps. intros H. split.
  - intros ->. apply anySquare_true in H as (r & c & Hin & Hf).
    inv_bind. apply cell_Ok in E as [_ Hp].
    destruct x as [piece|]; [|discriminate].
    destruct (Player_eqb (player piece) p) eqn:Hpl; [|discriminate].
    inv_bind. exists (mkPos r c), piece.
    split; [apply squares_onBoard, Hin|]. split; [exact Hp|].
    split; [destruct (player piece), p; auto; discriminate|].
    match goal with
    | G : getValidMoves _ _ _ = Ok _ |- _ => apply (canCapture_iff _ _ _ _ G)
    end.
    apply existsb_isJump_filter. assumption.
  - intros (pos & piece & Hon & Hp & Hpl & Hcap).
    destruct b; [reflexivity|]. exfalso.
    apply squares_onBoard in Hon.
    pose proof (anySquare_false _ _ H _ _ Hon) as Hf. simpl in Hf.
    inv_bind. apply cell_Ok in E as [_ E].
    replace (mkPos (row pos) (col pos)) with pos in * by (destruct pos; auto).
    rewrite Hp in E. subst x. subst p. rewrite Player_eqb_refl in Hf.
    inv_bind.
    match goal with
    | G : getValidMoves _ _ _ = Ok _ |- _ =>
        apply (canCapture_iff _ _ _ _ G) in Hcap
    end.
    apply existsb_isJump_filter in Hcap. congruence.
Qed.

(** X5.  On a board with its eight rows [hasAnyJumps(board, player)]
    returns, and it returns [true] exactly when some piece of [player]
    standing on one of the 64 squares has a capture: an adjacent piece of
    the other player in one of its directions with the square behind it on
    the board and empty. *)
Theorem hasAnyJumps_spec board p :
  hasAllRows board ->
  exists b, hasAnyJumps board p = Ok b /\ (b = true <-> mustCapture board p).
Proof.
  intros Hb. destruct (hasAnyJumps_total board p Hb) as [b H].
  exists b. split; [exact H|]. apply hasAnyJumps_mustCapture. exact H.
Qed.

Lemma hasAnyJumps_spec_witness :
  hasAllRows captureBoard /\
  exists b, hasAnyJumps captureBoard black = Ok b /\
            (b = true <-> mustCapture captureBoard black).
Proof.
  split; [reflexivity|].
  apply (hasAnyJumps_spec captureBoard black). reflexivity.
Defined.

(** ** The move list is the list of the legal moves *)

Lemma possibleMoves_None_In board p ms m :
  possibleMoves board p None = Ok ms ->
  In m ms <-> legalMove board p m.
Proof.
  unfold possibleMoves. intros H. inv_bind. rename x into gj.
  pose proof (hasAnyJumps_mustCapture _ _ _ E) as Hgj.
  rewrite (forEachPush_In _ _ _ H). split.
  - intros ([r c] & l & Hin & Hl & Hm). simpl in Hl. inv_bind.
    apply cell_Ok in E0 as [_ Hp].
    destruct x as [piece|]; [|inv_bind; destruct Hm].
    destruct (Player_eqb (player piece) p) eqn:Hpl; [|inv_bind; destruct Hm].
    inv_bind.
    assert (In m x) as Hm'.
    { destruct gj; [apply filter_In in Hm; tauto|exact Hm]. }
    match goal with
    | V : getValidMoves _ _ _ = Ok _ |- _ =>
        pose proof (getValidMoves_generated _ _ _ _ V) as G
    end.
    rewrite List.Forall_forall in G. destruct (G m Hm') as [Gm Hfrom].
    split; [exact Gm|]. rewrite Hfrom.
    split; [apply squares_onBoard, Hin|].
    split; [exists piece; split; [exact Hp|];
            destruct (player piece), p; auto; discriminate|].
    intros Hc. apply Hgj in Hc. subst gj. apply filter_In in Hm. tauto.
  - intros (G & Hon & (piece & Hp & Hpl) & Hc).
    apply squares_onBoard in Hon.
    destruct (forEachPush_each _ _ _ H _ Hon) as [l Hl].
    exists (row (from m), col (from m)), l. split; [exact Hon|].
    split; [exact Hl|]. simpl in Hl. inv_bind.
    apply cell_Ok in E0 as [_ E0].
    replace (mkPos (row (from m)) (col (from m))) with (from m) in *
      by (destruct (from m); auto).
    rewrite Hp in E0. subst x. subst p. rewrite Player_eqb_refl in Hl.
    inv_bind.
    assert (In m x) as Hm.
    { eapply getValidMoves_complete; eauto. discriminate. }
    destruct gj; [|exact Hm]. apply filter_In. split; [exact Hm|].
    apply Hc, Hgj. reflexivity.
Qed.

Lemma possibleMoves_Some_In board p q ms m :
  possibleMoves board p (Some q) = Ok ms ->
  In m ms <-> generated board m /\ from m = q /\ isJump m = true.
Proof.
  unfold possibleMoves. intros H. inv_bind. rewrite filter_In.
  rewrite (getValidMoves_In _ _ _ _ E m). intuition auto.
Qed.

(** X6.  The move list that [minimax] and [getAiMove] build is the list
    of the legal moves.  With no capture chain running it holds exactly
    the generated moves of the pieces of the player that stand on the 64
    squares, restricted to jumps when some piece of the player has a
    capture (mandatory capture over the whole board); with
    [mustJumpFrom] set it holds exactly the jumps of the piece on that
    square. *)
Theorem possibleMoves_exact board p mjf ms :
  possibleMoves board p mjf = Ok ms ->
  forall m,
    In m ms <->
    match mjf with
    | Some q => generated board m /\ from m = q /\ isJump m = true
    | None => legalMove board p m
    end.
Proof.
  intros H m. destruct mjf as [q|].
  - apply (possibleMoves_Some_In _ _ _ _ _ H).
  - apply (possibleMoves_None_In _ _ _ _ H).
Qed.

Lemma possibleMoves_exact_witness :
  possibleMoves captureBoard black None = Ok [captureMove] /\
  forall m,
    In m [captureMove] <->
    match @None Position with
    | Some q => generated captureBoard m /\ from m = q /\ isJump m = true
    | None => legalMove captureBoard black m
    end.
Proof.
  split; [reflexivity|].
  apply (possibleMoves_exact captureBoard black None [captureMove]).
  reflexivity.
Defined.

(** ** The pieces of each side *)

Lemma countOf_setCell p (board b : BoardState) r c v :
  setCell board r c v = Ok b ->
  0 <= c ->
  (countOf p b + occ (ownedBy p (pieceAt board (mkPos r c)))
   = countOf p board + occ (ownedBy p v))%nat.
Proof.
  intros H Hc. unfold countOf.
  pose proof (setCell_mapGrid (ownedBy p) board r c v eq_refl) as E.
  rewrite H in E. cbn [bind] in E.
  pose proof (countPieces_setCell _ _ _ _ _ E Hc) as K.
  rewrite pieceAt_mapGrid in K by reflexivity. exact K.
Qed.

Lemma countOf_crownAt p board pos :
  countOf p (crownAt board pos) = countOf p board.
Proof.
  unfold crownAt. destruct (pieceAt board pos) as [x|] eqn:Hp; [|reflexivity].
  destruct (setCell _ _ _ _) as [b|] eqn:Hb; [|reflexivity].
  destruct (pieceAt_Some_row _ _ _ Hp) as [_ Hc].
  pose proof (countOf_setCell p _ _ _ _ _ Hb Hc) as E.
  destruct pos as [r c]. simpl in *. rewrite Hp in E. simpl in E.
  destruct (Player_eqb (player x) p); simpl in E; lia.
Qed.

Lemma countOf_movePiece p board m nb piece :
  generated board m ->
  movePiece board m = Ok nb ->
  pieceAt board (from m) = Some piece ->
  (countOf p nb
   + (if isJump m && negb (Player_eqb (player piece) p) then 1 else 0)
   = countOf p board)%nat.
Proof.
  intros G H Hp0. destruct (generated_facts _ _ G)
    as (piece0 & Hp & Ht & Hon & Hrow & Hstill & Hj).
  rewrite Hp0 in Hp. injection Hp as <-. rename Hp0 into Hp.
  apply movePiece_inv in H
    as (piece' & b1 & b2 & b3 & Hp' & H1 & H2 & H3 & ->).
  rewrite Hp in Hp'. injection Hp' as <-.
  assert (forall c : bool,
             countOf p (if c then crownAt b3 (to m) else b3)
             = countOf p b3) as ->
      by (intros []; [apply countOf_crownAt|reflexivity]).
  pose proof (countOf_setCell p _ _ _ _ _ H1 (onBoard_col _ Hon)) as E1.
  destruct (pieceAt_Some_row _ _ _ Hp) as [_ Hfc].
  pose proof (countOf_setCell p _ _ _ _ _ H2 Hfc) as E2.
  assert (to m <> from m) as Hne.
  { unfold stillAtTo in Hstill. apply andb_true_iff in Hstill as [Hs _].
    apply negb_true_iff, Position_eqb_neq in Hs. exact Hs. }
  assert (pieceAt b1 (from m) = Some piece) as Hb1.
  { rewrite (pieceAt_setCell_pos _ _ (to m) _ (from m) H1).
    replace (Position_eqb (from m) (to m)) with false; [exact Hp|].
    symmetry. apply Position_eqb_neq. congruence. }
  replace (mkPos (row (to m)) (col (to m))) with (to m) in E1
    by (destruct (to m); reflexivity).
  replace (mkPos (row (from m)) (col (from m))) with (from m) in E2
    by (destruct (from m); reflexivity).
  rewrite Ht in E1. rewrite Hb1 in E2. simpl in E1, E2.
  destruct (jumpedSquare m) as [jp|] eqn:Ej.
  - destruct Hj as (-> & (victim & Hv & Hpl) & Hjf & Hjt).
    destruct (pieceAt_Some_row _ _ _ Hv) as [_ Hjc].
    pose proof (countOf_setCell p _ _ _ _ _ H3 Hjc) as E3.
    replace (mkPos (row jp) (col jp)) with jp in E3
      by (destruct jp; reflexivity).
    assert (pieceAt b2 jp = Some victim) as Hb2.
    { rewrite (pieceAt_setCell_pos _ _ (from m) _ jp H2),
        (pieceAt_setCell_pos _ _ (to m) _ jp H1).
      replace (Position_eqb jp (from m)) with false
        by (symmetry; apply Position_eqb_neq; exact Hjf).
      replace (Position_eqb jp (to m)) with false
        by (symmetry; apply Position_eqb_neq; exact Hjt).
      exact Hv. }
    rewrite Hb2 in E3. simpl in E3. simpl.
    destruct (player victim), (player piece), p; simpl in *;
      try congruence; lia.
  - subst b3. rewrite Hj. simpl.
    destruct (Player_eqb (player piece) p); simpl in *; lia.
Qed.

(** X7.  A move that [getValidMoves] returns never costs the mover a
    piece: after [simulateMove] the number of his pieces is unchanged,
    and the number of the opponent's pieces has gone down by exactly one
    for a jump and is unchanged for a slide. *)
Theorem simulateMove_counts board pos flag ms m p s piece :
  getValidMoves board pos flag = Ok ms ->
  In m ms ->
  pieceAt board pos = Some piece ->
  simulateMove board m p = Ok s ->
  countOf (player piece) (newBoard s) = countOf (player piece) board /\
  (countOf (otherPlayer (player piece)) (newBoard s)
   + (if isJump m then 1 else 0)
   = countOf (otherPlayer (player piece)) board)%nat.
Proof.
  intros Hms Hm Hp Hs.
  apply getValidMoves_generated in Hms. rewrite List.Forall_forall in Hms.
  destruct (Hms m Hm) as [G Hfrom]. subst pos.
  destruct (simulateMove_inv _ _ _ _ Hs) as [Hnb _].
  pose proof (countOf_movePiece (player piece) _ _ _ _ G Hnb Hp) as E1.
  pose proof (countOf_movePiece (otherPlayer (player piece)) _ _ _ _ G Hnb Hp)
    as E2.
  rewrite Player_eqb_refl, andb_false_r in E1.
  replace (Player_eqb (player piece) (otherPlayer (player piece))) with false
    in E2 by (destruct (player piece); reflexivity).
  rewrite andb_true_r in E2. split; [lia|exact E2].
Qed.

Lemma simulateMove_counts_witness :
  exists s,
    getValidMoves captureBoard (mkPos 3 2) true = Ok [captureMove] /\
    In captureMove [captureMove] /\
    pieceAt captureBoard (mkPos 3 2) = Some (man black) /\
    simulateMove captureBoard captureMove black = Ok s /\
    countOf (player (man black)) (newBoard s)
    = countOf (player (man black)) captureBoard /\
    (countOf (otherPlayer (player (man black))) (newBoard s)
     + (if isJump captureMove then 1 else 0)
     = countOf (otherPlayer (player (man black))) captureBoard)%nat.
Proof.
  eexists. split; [reflexivity|]. split; [left; reflexivity|].
  split; [reflexivity|]. split; [reflexivity|].
  apply (simulateMove_counts captureBoard (mkPos 3 2) true [captureMove]
           captureMove black _ (man black));
    [reflexivity | left; reflexivity | reflexivity | reflexivity].
Defined.

(** ** Dark squares *)

Lemma isDark_step r c dr dc :
  0 <= r -> 0 <= c -> 0 <= r + dr -> 0 <= c + dc ->
  (dr = 1 \/ dr = -1 \/ dr = 2 \/ dr = -2) ->
  (dc = dr \/ dc = - dr) ->
  isDark (r + dr) (c + dc) = isDark r c.
Proof.
  unfold isDark. intros Hr Hc Hr' Hc' Hd He.
  rewrite !Z.rem_mod_nonneg by lia.
  assert ((r + dr + (c + dc)) mod 2 = (r + c) mod 2) as ->; [|reflexivity].
  destruct He as [-> | ->].
  - replace (r + dr + (c + dr)) with (r + c + dr * 2) by lia.
    apply Z.mod_add. lia.
  - replace (r + dr + (c + - dr)) with (r + c) by lia. reflexivity.
Qed.

Lemma movePiece_darkOnly board m nb :
  darkOnly board -> generated board m -> movePiece board m = Ok nb ->
  darkOnly nb.
Proof.
  intros D G H q x Hq.
  destruct (generated_facts _ _ G)
    as (piece & Hp & Ht & Hon & Hrow & Hstill & Hj).
  rewrite (movePiece_pieceAt _ _ _ H Hstill (onBoard_col _ Hon)) in Hq.
  unfold afterMove in Hq.
  destruct (Position_eqb q (to m)) eqn:Eto.
  - apply Position_eqb_eq in Eto. subst q.
    specialize (D _ _ Hp).
    destruct (pieceAt_lookup _ _ _ Hp) as (Hfr & Hfc & _).
    unfold onBoard in Hon. apply isValidPos_spec in Hon.
    destruct G as [pos piece' d Hp' Hd _ _ _
                  | pos piece' d victim Hp' Hd _ _ _ _ _];
      simpl in *; apply directions_unit in Hd;
      rewrite <- D; apply isDark_step; lia.
  - destruct (Position_eqb q (from m)); [discriminate|].
    destruct (_ && _); [discriminate|]. eapply D; eauto.
Qed.

Lemma darkOnly_initializeBoard : darkOnly initializeBoard.
Proof.
  intros [r c] piece H.
  destruct (pieceAt_lookup _ _ _ H) as (Hr & Hc & rw & Hrw & Hcell).
  simpl in *.
  assert (r = Z.of_nat (Z.to_nat r)) as Er by lia.
  assert (c = Z.of_nat (Z.to_nat c)) as Ec by lia.
  rewrite Er, Ec. clear Er Ec H Hr Hc.
  generalize dependent (Z.to_nat c). generalize dependent (Z.to_nat r).
  intros i Hrw j Hcell.
  do 8 (destruct i as [|i];
        [vm_compute in Hrw; injection Hrw as <-;
         do 8 (destruct j as [|j];
               [try discriminate Hcell; reflexivity|]);
         discriminate Hcell|]).
  discriminate Hrw.
Qed.

(** X8.  Pieces stay on the dark squares.  If every piece of the board
    stands on a square that the rendering paints dark ([(rIndex + cIndex)
    % 2 === 1]), so does every piece of the board that [simulateMove]
    returns for a move of [getValidMoves]; and [initializeBoard] puts
    pieces on dark squares only. *)
Theorem simulateMove_darkOnly board pos flag ms m p s :
  darkOnly board ->
  getValidMoves board pos flag = Ok ms ->
  In m ms ->
  simulateMove board m p = Ok s ->
  darkOnly (newBoard s) /\ darkOnly initializeBoard.
Proof.
  intros D Hms Hm Hs. split; [|exact darkOnly_initializeBoard].
  apply getValidMoves_generated in Hms. rewrite List.Forall_forall in Hms.
  destruct (Hms m Hm) as [G _].
  destruct (simulateMove_inv _ _ _ _ Hs) as [Hnb _].
  exact (movePiece_darkOnly _ _ _ D G Hnb).
Qed.

Lemma simulateMove_darkOnly_witness :
  exists s,
    darkOnly initializeBoard /\
    getValidMoves initializeBoard (mkPos 5 0) false
    = Ok [mkMove (mkPos 5 0) (mkPos 4 1) false None] /\
    In (mkMove (mkPos 5 0) (mkPos 4 1) false None)
      [mkMove (mkPos 5 0) (mkPos 4 1) false None] /\
    simulateMove initializeBoard (mkMove (mkPos 5 0) (mkPos 4 1) false None)
      red = Ok s /\
    darkOnly (newBoard s) /\ darkOnly initializeBoard.
Proof.
  eexists. split; [exact darkOnly_initializeBoard|].
  split; [reflexivity|]. split; [left; reflexivity|].
  split; [reflexivity|].
  apply (simulateMove_darkOnly initializeBoard (mkPos 5 0) false
           [mkMove (mkPos 5 0) (mkPos 4 1) false None]
           (mkMove (mkPos 5 0) (mkPos 4 1) false None) red);
    [exact darkOnly_initializeBoard | reflexivity | left; reflexivity
    | reflexivity].
Defined.

(** ** [evaluateBoard] rewards every capture *)

Lemma evaluateLoop_sum board p sqs :
  forall acc v,
    evaluateLoop board p sqs acc = Ok v ->
    v = acc + sumOver (fun sq => contribution p
                                   (pieceAt board (mkPos (fst sq) (snd sq)))
                                   (fst sq) (snd sq)) sqs.
Proof.
  induction sqs as [|[r c] sqs IH]; simpl; intros acc v H.
  - injection H as <-. lia.
  - inv_bind. apply cell_Ok in E as [_ E]. rewrite E.
    set (rest := sumOver _ sqs) in *. unfold contribution.
    destruct x as [piece|]; [|apply IH in H; lia].
    destruct (Player_eqb _ _); apply IH in H; lia.
Qed.

Lemma squares_NoDup : NoDup squares.
Proof. apply (bool_decide_eq_true_1 (NoDup squares)). vm_compute. reflexivity. Qed.

Lemma sumOver_ext {A} (f g : A -> Z) l :
  (forall x, In x l -> f x = g x) -> sumOver f l = sumOver g l.
Proof.
  induction l as [|x l IH]; simpl; intros H; [reflexivity|].
  rewrite (H x), IH; auto.
Qed.

Lemma sumOver_updateAt f a x l :
  NoDup l -> In a l ->
  sumOver (updateAt f a x) l = sumOver f l + (x - f a).
Proof.
  intros N. induction N as [|q l Hq N IH]; simpl; intros Ha; [tauto|].
  unfold updateAt at 1. destruct (decide (q = a)) as [->|Hne].
  - rewrite (sumOver_ext (updateAt f a x) f).
    + lia.
    + intros y Hy. unfold updateAt. destruct (decide (y = a)) as [->|]; auto.
      exfalso. apply Hq, list_elem_of_In, Hy.
  - destruct Ha as [->|Ha]; [congruence|]. rewrite IH by exact Ha. lia.
Qed.

Lemma pieceValue_min piece r c : 0 <= r <= 7 -> 11 <= pieceValue piece r c.
Proof.
  intros Hr. unfold pieceValue.
  destruct (isKing piece), (player piece);
    repeat match goal with
      | |- context [if ?b then _ else _] => destruct b eqn:?
      end; lia.
Qed.

Lemma pieceValue_jump piece r c dr dc :
  0 <= r <= 7 -> 0 <= r + dr * 2 <= 7 ->
  (dr = 1 \/ dr = -1) ->
  (isKing piece = false ->
   dr = match player piece with red => -1 | black => 1 end) ->
  pieceValue piece r c - 4
  <= pieceValue {| player := player piece;
                   isKing := isKing piece
                             || reachesKingRow piece (r + dr * 2) |}
       (r + dr * 2) (c + dc * 2).
Proof.
  intros Hr Hr' Hd Hf. rewrite reachesKingRow_cases. unfold pieceValue. simpl.
  destruct (isKing piece) eqn:Ek; simpl.
  - clear Hf. destruct (player piece);
      repeat match goal with
        | |- context [if ?b then _ else _] => destruct b eqn:?
        end; lia.
  - specialize (Hf eq_refl). destruct (player piece); subst dr;
      repeat match goal with
        | |- context [if ?b then _ else _] => destruct b eqn:?
        end; lia.
Qed.

(** X9.  [evaluateBoard] rewards every capture.  For a jump that
    [getValidMoves] returns for a piece standing on the board, the score
    of the position after [simulateMove], seen from the player of that
    piece, exceeds the score before the move by at least 7: the captured
    piece counted for at least 11 against him, and the moved piece loses
    at most 4 by its change of square. *)
Theorem evaluateBoard_capture_gain board pos flag ms m piece q s v v' :
  onBoard pos ->
  getValidMoves board pos flag = Ok ms ->
  In m ms ->
  isJump m = true ->
  pieceAt board pos = Some piece ->
  simulateMove board m q = Ok s ->
  evaluateBoard board (player piece) = Ok v ->
  evaluateBoard (newBoard s) (player piece) = Ok v' ->
  v + 7 <= v'.
Proof.
  intros Hon Hms Hm Hj Hp Hs Hv Hv'.
  apply getValidMoves_generated in Hms. rewrite List.Forall_forall in Hms.
  destruct (Hms m Hm) as [G Hfrom].
  destruct (simulateMove_inv _ _ _ _ Hs) as [Hnb _].
  destruct (generated_facts _ _ G) as (_ & _ & _ & Hont & _ & Hstill & _).
  pose proof (movePiece_pieceAt _ _ _ Hnb Hstill (onBoard_col _ Hont)) as Hafter.
  apply evaluateLoop_sum in Hv, Hv'.
  destruct G as [pos' piece' d Hp' Hd _ _ _
                | pos' piece' d victim Hp' Hd _ _ Ht Hvic Hpl];
    [discriminate|].
  simpl in Hfrom. subst pos'. rewrite Hp in Hp'. injection Hp' as <-.
  simpl in Hont.
  pose proof (directions_unit _ _ Hd) as [Hdr Hdc].
  pose proof (directions_forward _ _ Hd) as Hfw.
  destruct d as [dr dc]. simpl in Hdr, Hdc, Hfw.
  unfold onBoard in Hon, Hont. apply isValidPos_spec in Hon, Hont.
  unfold step2 in Hont. simpl in Hont.
  set (p := player piece) in *.
  set (f0 := fun sq : Z * Z =>
               contribution p (pieceAt board (mkPos (fst sq) (snd sq)))
                 (fst sq) (snd sq)) in *.
  set (a := (row pos, col pos)).
  set (j := (row pos + dr, col pos + dc)).
  set (t := (row pos + dr * 2, col pos + dc * 2)).
  set (moved := landed piece
                  {| from := pos; to := step2 pos (dr, dc); isJump := true;
                     jumpedPiece := Some (step1 pos (dr, dc)) |}).
  assert (In a squares /\ In j squares /\ In t squares) as (Ia & Ij & It).
  { unfold a, j, t. rewrite !squares_In_iff. lia. }
  assert (a <> j /\ a <> t /\ j <> t) as (Haj & Hat & Hjt).
  { unfold a, j, t. repeat split; intros [=]; lia. }
  assert (sumOver (fun sq => contribution p
                     (pieceAt (newBoard s) (mkPos (fst sq) (snd sq)))
                     (fst sq) (snd sq)) squares
          = sumOver (updateAt (updateAt (updateAt f0 j 0) a 0) t
                       (contribution p (Some moved) (fst t) (snd t)))
              squares) as Esum.
  { apply sumOver_ext. intros [r c] _. simpl. rewrite Hafter.
    unfold afterMove, updateAt, Position_eqb, step2, step1. simpl.
    rewrite Hp. fold moved.
    destruct (decide ((r, c) = t)) as [E|E].
    - injection E as -> ->. rewrite !Z.eqb_refl. reflexivity.
    - replace ((r =? row pos + dr * 2) && (c =? col pos + dc * 2)) with false
        by (symmetry; apply andb_false_iff;
            rewrite !Z.eqb_neq; unfold t in E;
            destruct (Z.eq_dec r (row pos + dr * 2)); [right|left]; congruence).
      destruct (decide ((r, c) = a)) as [E'|E'].
      + injection E' as -> ->. rewrite !Z.eqb_refl. reflexivity.
      + replace ((r =? row pos) && (c =? col pos)) with false
          by (symmetry; apply andb_false_iff;
              rewrite !Z.eqb_neq; unfold a in E';
              destruct (Z.eq_dec r (row pos)); [right|left]; congruence).
        destruct (decide ((r, c) = j)) as [E''|E''].
        * injection E'' as -> ->. rewrite !Z.eqb_refl. reflexivity.
        * replace ((r =? row pos + dr) && (c =? col pos + dc)) with false
            by (symmetry; apply andb_false_iff;
                rewrite !Z.eqb_neq; unfold j in E'';
                destruct (Z.eq_dec r (row pos + dr)); [right|left];
                congruence).
          reflexivity. }
  rewrite Esum in Hv'. clear Esum.
  rewrite !sumOver_updateAt in Hv' by (auto using squares_NoDup).
  unfold updateAt in Hv'.
  destruct (decide (t = a)) as [E|_]; [congruence|].
  destruct (decide (t = j)) as [E|_]; [congruence|].
  destruct (decide (a = j)) as [E|_]; [congruence|].
  assert (f0 t = 0) as Et.
  { unfold f0, t. simpl. unfold step2 in Ht. simpl in Ht. rewrite Ht.
    reflexivity. }
  assert (f0 a = pieceValue piece (row pos) (col pos)) as Ea.
  { unfold f0, a. simpl.
    replace (mkPos (row pos) (col pos)) with pos by (destruct pos; auto).
    rewrite Hp. unfold contribution, p. rewrite Player_eqb_refl. reflexivity. }
  assert (f0 j = - pieceValue victim (row pos + dr) (col pos + dc)) as Ej.
  { unfold f0, j. simpl. unfold step1 in Hvic. simpl in Hvic. rewrite Hvic.
    unfold contribution, p.
    replace (Player_eqb (player victim) (player piece)) with false
      by (symmetry; apply Player_eqb_neq; exact Hpl).
    reflexivity. }
  rewrite Et, Ea, Ej in Hv'.
  assert (contribution p (Some moved) (fst t) (snd t)
          = pieceValue moved (row pos + dr * 2) (col pos + dc * 2)) as Em.
  { unfold contribution, moved, landed, p. simpl.
    rewrite Player_eqb_refl. reflexivity. }
  rewrite Em in Hv'.
  pose proof (pieceValue_min victim (row pos + dr) (col pos + dc)) as Hmin.
  pose proof (pieceValue_jump piece (row pos) (col pos) dr dc) as Hjump.
  fold f0 in Hv. set (total := sumOver f0 squares) in *.
  unfold moved, landed in Hv'. simpl in Hv'.
  specialize (Hmin ltac:(lia)).
  specialize (Hjump ltac:(lia) ltac:(lia) Hdr Hfw).
  lia.
Qed.

Lemma evaluateBoard_capture_gain_witness :
  exists s v v',
    onBoard (mkPos 3 2) /\
    getValidMoves captureBoard (mkPos 3 2) true = Ok [captureMove] /\
    In captureMove [captureMove] /\
    isJump captureMove = true /\
    pieceAt captureBoard (mkPos 3 2) = Some (man black) /\
    simulateMove captureBoard captureMove black = Ok s /\
    evaluateBoard captureBoard (player (man black)) = Ok v /\
    evaluateBoard (newBoard s) (player (man black)) = Ok v' /\
    v + 7 <= v'.
Proof.
  eexists _, _, _. split; [reflexivity|]. split; [reflexivity|].
  split; [left; reflexivity|]. split; [reflexivity|].
  split; [reflexivity|]. split; [reflexivity|].
  split; [vm_compute; reflexivity|]. split; [vm_compute; reflexivity|].
  eapply (evaluateBoard_capture_gain captureBoard (mkPos 3 2) true
            [captureMove] captureMove (man black) black);
    [reflexivity | reflexivity | left; reflexivity | reflexivity
    | reflexivity | reflexivity | vm_compute; reflexivity
    | vm_compute; reflexivity].
Defined.

(** ** The pruning does not change the value *)

Lemma num_eq_leb a b :
  a = b <-> num_leb a b = true /\ num_leb b a = true.
Proof.
  destruct a, b; simpl; split; try tauto; try discriminate;
    try (intros [? ?]; discriminate).
  - intros [= ->]. lia.
  - intros [? ?]. f_equal. lia.
Qed.

(** Facts of the order of the scores, by cases on the scores. *)
Ltac num_order :=
  unfold failSoft in *; intros;
  repeat match goal with
    | H : context [@eq num ?a ?b] |- _ => rewrite (num_eq_leb a b) in H
    | |- context [@eq num ?a ?b] => rewrite (num_eq_leb a b)
    end;
  repeat match goal with x : num |- _ => destruct x end;
  simpl in *; try reflexivity; try discriminate; try congruence; try lia.

Lemma num_max_assoc a b c : num_max (num_max a b) c = num_max a (num_max b c).
Proof. num_order. Qed.

Lemma num_min_assoc a b c : num_min (num_min a b) c = num_min a (num_min b c).
Proof. num_order. Qed.

Lemma failSoft_refl alpha beta v : failSoft alpha beta v v.
Proof. num_order. Qed.

Section LoopsSound.
Variable full : BoardState -> Z -> bool -> option Position -> search.
Variable pruned :
  BoardState -> Z -> num -> num -> bool -> option Position -> search.
Hypothesis pruned_sound :
  forall b d m mj v,
    full b d m mj = Some (Ok v) ->
    forall alpha beta,
      num_leb beta alpha = false ->
      exists w, pruned b d alpha beta m mj = Some (Ok w) /\
                failSoft alpha beta v w.
Variables (board : BoardState) (depth : Z) (mover : Player).

Lemma bestOf_max_ge moves :
  forall acc V,
    bestOf full board depth mover num_max true moves acc = Some (Ok V) ->
    num_leb acc V = true.
Proof.
  induction moves as [|m moves IH]; simpl; intros acc V H.
  - injection H as ->. num_order.
  - destruct (simulateMove board m mover) as [s|]; [|discriminate].
    destruct (full _ _ _ _) as [[v|]|]; try discriminate.
    apply IH in H. revert H. num_order.
Qed.

Lemma bestOf_min_le moves :
  forall acc V,
    bestOf full board depth mover num_min false moves acc = Some (Ok V) ->
    num_leb V acc = true.
Proof.
  induction moves as [|m moves IH]; simpl; intros acc V H.
  - injection H as ->. num_order.
  - destruct (simulateMove board m mover) as [s|]; [|discriminate].
    destruct (full _ _ _ _) as [[v|]|]; try discriminate.
    apply IH in H. revert H. num_order.
Qed.

Lemma maxLoop_sound moves :
  forall alpha0 beta acc accV V,
    bestOf full board depth mover num_max true moves accV = Some (Ok V) ->
    num_leb beta (num_max alpha0 acc) = false ->
    num_leb accV acc = true ->
    (num_leb acc alpha0 = false -> num_leb acc accV = true) ->
    exists W,
      maxLoop pruned board depth mover moves (num_max alpha0 acc) beta acc
      = Some (Ok W) /\
      failSoft alpha0 beta V W.
Proof.
  induction moves as [|m moves IH]; simpl;
    intros alpha0 beta acc accV V H Hw Hle Hex.
  - injection H as ->. exists acc. split; [reflexivity|].
    revert Hw Hle Hex. num_order.
  - destruct (simulateMove board m mover) as [s|]; [|discriminate].
    destruct (full _ _ _ _) as [[v|]|] eqn:Ev; try discriminate.
    replace (if Player_eqb (nextTurn s) mover then true else negb true)
      with (if Player_eqb (nextTurn s) mover then true else false) in Ev
      by (destruct (Player_eqb _ _); reflexivity).
    destruct (pruned_sound _ _ _ _ _ Ev (num_max alpha0 acc) beta Hw)
      as (w & -> & Hs).
    destruct (num_leb beta (num_max (num_max alpha0 acc) w)) eqn:Eb.
    + exists (num_max acc w). split; [reflexivity|].
      apply bestOf_max_ge in H. revert H Hs Eb Hw Hle Hex. clear.
      num_order.
    + rewrite num_max_assoc in Eb |- *.
      apply (IH alpha0 beta (num_max acc w) (num_max accV v) V H Eb).
      * revert Hs Eb Hle. clear. rewrite <- num_max_assoc. num_order.
      * revert Hs Eb Hle Hex. clear. rewrite <- num_max_assoc. num_order.
Qed.

Lemma minLoop_sound moves :
  forall alpha beta0 acc accV V,
    bestOf full board depth mover num_min false moves accV = Some (Ok V) ->
    num_leb (num_min beta0 acc) alpha = false ->
    num_leb acc accV = true ->
    (num_leb beta0 acc = false -> num_leb accV acc = true) ->
    exists W,
      minLoop pruned board depth mover moves alpha (num_min beta0 acc) acc
      = Some (Ok W) /\
      failSoft alpha beta0 V W.
Proof.
  induction moves as [|m moves IH]; simpl;
    intros alpha beta0 acc accV V H Hw Hle Hex.
  - injection H as ->. exists acc. split; [reflexivity|].
    revert Hw Hle Hex. num_order.
  - destruct (simulateMove board m mover) as [s|]; [|discriminate].
    destruct (full _ _ _ _) as [[v|]|] eqn:Ev; try discriminate.
    replace (if Player_eqb (nextTurn s) mover then false else negb false)
      with (if Player_eqb (nextTurn s) mover then false else true) in Ev
      by (destruct (Player_eqb _ _); reflexivity).
    destruct (pruned_sound _ _ _ _ _ Ev alpha (num_min beta0 acc) Hw)
      as (w & -> & Hs).
    destruct (num_leb (num_min (num_min beta0 acc) w) alpha) eqn:Eb.
    + exists (num_min acc w). split; [reflexivity|].
      apply bestOf_min_le in H. revert H Hs Eb Hw Hle Hex. clear.
      num_order.
    + rewrite num_min_assoc in Eb |- *.
      apply (IH alpha beta0 (num_min acc w) (num_min accV v) V H Eb).
      * revert Hs Eb Hle. clear. rewrite <- num_min_assoc. num_order.
      * revert Hs Eb Hle Hex. clear. rewrite <- num_min_assoc. num_order.
Qed.
End LoopsSound.

Lemma fullSearch_S fuel board depth mx p mjf :
  fullSearch (S fuel) board depth mx p mjf
  = if depth =? 0 then
      Some (score <- evaluateBoard board p ;; Ok (Fin score))
    else
      match possibleMoves board (sideToMove mx p) mjf with
      | TypeError => Some TypeError
      | Ok moves =>
          if (length moves =? 0)%nat then
            Some (Ok (Fin (if mx then -10000 else 10000)))
          else
            bestOf (fun b d m mj => fullSearch fuel b d m p mj)
              board depth (sideToMove mx p)
              (if mx then num_max else num_min) mx moves
              (if mx then NegInf else PosInf)
      end.
Proof. reflexivity. Qed.

Lemma minimax_failSoft fuel :
  forall board depth mx p mjf v,
    fullSearch fuel board depth mx p mjf = Some (Ok v) ->
    forall alpha beta,
      num_leb beta alpha = false ->
      exists w, minimax fuel board depth alpha beta mx p mjf = Some (Ok w) /\
                failSoft alpha beta v w.
Proof.
  induction fuel as [|fuel IH]; intros board depth mx p mjf v H alpha beta Hw;
    [discriminate|].
  rewrite fullSearch_S in H. rewrite minimax_S.
  destruct (depth =? 0).
  { exists v. split; [exact H|apply failSoft_refl]. }
  destruct (possibleMoves board (sideToMove mx p) mjf) as [ms|];
    [|discriminate].
  destruct (length ms =? 0)%nat.
  { exists v. split; [exact H|apply failSoft_refl]. }
  assert (forall b d m mj v0,
            fullSearch fuel b d m p mj = Some (Ok v0) ->
            forall a be, num_leb be a = false ->
              exists w, minimax fuel b d a be m p mj = Some (Ok w) /\
                        failSoft a be v0 w) as Hrec.
  { intros b d m mj v0 Hv a be Hab. apply IH; auto. }
  destruct mx; simpl in H.
  - destruct (maxLoop_sound (fun b d m mj => fullSearch fuel b d m p mj)
                (fun b d a be m mj => minimax fuel b d a be m p mj) Hrec
                board depth p ms alpha beta NegInf NegInf v H)
      as (W & HW & Hs).
    + destruct alpha; exact Hw.
    + reflexivity.
    + discriminate.
    + replace (num_max alpha NegInf) with alpha in HW
        by (destruct alpha; reflexivity).
      exists W. auto.
  - destruct (minLoop_sound (fun b d m mj => fullSearch fuel b d m p mj)
                (fun b d a be m mj => minimax fuel b d a be m p mj) Hrec
                board depth (otherPlayer p) ms alpha beta PosInf PosInf v H)
      as (W & HW & Hs).
    + destruct beta; exact Hw.
    + reflexivity.
    + intros _. reflexivity.
    + replace (num_min beta PosInf) with beta in HW
        by (destruct beta; reflexivity).
      exists W. auto.
Qed.

(** ** The search without the pruning returns *)

Section BestOfReturns.
Variable recur : BoardState -> Z -> bool -> option Position -> search.
Variables (board : BoardState) (depth : Z) (mover : Player).
Variable pick : num -> num -> num.
Variable maximizing : bool.

Lemma bestOf_returns moves :
  (forall m s, In m moves -> simulateMove board m mover = Ok s ->
     forall nm, exists v,
       recur (newBoard s)
         (if Player_eqb (nextTurn s) mover then depth else depth - 1) nm
         (nextMustJumpFrom s) = Some (Ok v)) ->
  (forall m, In m moves -> exists s, simulateMove board m mover = Ok s) ->
  forall acc, exists V,
    bestOf recur board depth mover pick maximizing moves acc = Some (Ok V).
Proof.
  induction moves as [|m moves IH]; intros Hrec Hsim acc; simpl; [eauto|].
  destruct (Hsim m (or_introl eq_refl)) as [s Hs]. rewrite Hs.
  destruct (Hrec m s (or_introl eq_refl) Hs
              (if Player_eqb (nextTurn s) mover then maximizing
               else negb maximizing)) as [v ->].
  apply IH.
  - intros m' s' Hm'. apply Hrec. simpl. auto.
  - intros m' Hm'. apply Hsim. simpl. auto.
Qed.
End BestOfReturns.

Lemma fullSearch_returns fuel :
  forall board depth mx p mjf,
    0 <= depth ->
    (searchFuel depth board <= fuel)%nat ->
    hasAllRows board -> rowOnBoard mjf ->
    exists v, fullSearch fuel board depth mx p mjf = Some (Ok v).
Proof.
  induction fuel as [|fuel IH]; intros board depth mx p mjf Hd Hf Hb Hq.
  { unfold searchFuel in Hf. lia. }
  rewrite fullSearch_S. destruct (Z.eqb_spec depth 0) as [Hd0|Hd0].
  { destruct (evaluateBoard_total board p Hb) as [v ->]. simpl. eauto. }
  destruct (possibleMoves_total board (sideToMove mx p) mjf Hb Hq)
    as [ms Ems].
  rewrite Ems. destruct (length ms =? 0)%nat; [eauto|].
  pose proof (possibleMoves_generated _ _ _ _ Ems) as Hgen.
  rewrite List.Forall_forall in Hgen.
  apply bestOf_returns.
  - intros m s Hm Hs nm.
    destruct (simulateMove_generated _ _ _ _ (Hgen m Hm) Hs)
      as (Hlen & Hrow & Hle & Hlt).
    destruct (searchFuel_step depth board (newBoard s) fuel
                (Player_eqb (nextTurn s) (sideToMove mx p)) Hd Hd0 Hf Hle Hlt)
      as [Hd' Hf'].
    apply IH; auto. unfold hasAllRows in *. exact (eq_trans Hlen Hb).
  - intros m Hm. apply simulateMove_generated_total; auto.
Qed.

(** X10.  The pruning does not change the value.  On a board with its
    eight rows, for a depth of at least 0, a [mustJumpFrom] that is
    [null] or names a row 0..7 of the board, and enough fuel, [minimax]
    called with the window [-Infinity], [Infinity] returns exactly the
    value of the search that examines every move ([fullSearch]:
    [minimax] without [alpha], [beta] and the [break]s).  Called with any
    window [alpha < beta] it returns a value that is fail-soft for that
    window: at or below [alpha] it is an upper bound of the exact value,
    at or above [beta] a lower bound, strictly inside it is exact. *)
Theorem minimax_pruning_exact fuel board depth mx p mjf :
  0 <= depth ->
  hasAllRows board -> rowOnBoard mjf ->
  (searchFuel depth board <= fuel)%nat ->
  exists v,
    fullSearch fuel board depth mx p mjf = Some (Ok v) /\
    minimax fuel board depth NegInf PosInf mx p mjf = Some (Ok v) /\
    forall alpha beta,
      num_leb beta alpha = false ->
      exists w,
        minimax fuel board depth alpha beta mx p mjf = Some (Ok w) /\
        failSoft alpha beta v w.
Proof.
  intros Hd Hb Hq Hf.
  destruct (fullSearch_returns fuel board depth mx p mjf Hd Hf Hb Hq)
    as [v H].
  exists v. split; [exact H|]. split; [|apply minimax_failSoft; exact H].
  destruct (minimax_failSoft _ _ _ _ _ _ _ H NegInf PosInf eq_refl)
    as (w & -> & Hs).
  do 2 f_equal. revert Hs. clear. num_order.
Qed.

Lemma minimax_pruning_exact_witness :
  0 <= 2 /\
  hasAllRows captureBoard /\ rowOnBoard None /\
  (searchFuel 2 captureBoard <= 9)%nat /\
  exists v,
    fullSearch 9 captureBoard 2 true black None = Some (Ok v) /\
    minimax 9 captureBoard 2 NegInf PosInf true black None = Some (Ok v) /\
    forall alpha beta,
      num_leb beta alpha = false ->
      exists w,
        minimax 9 captureBoard 2 alpha beta true black None = Some (Ok w) /\
        failSoft alpha beta v w.
Proof.
  split; [lia|]. split; [reflexivity|]. split; [exact I|].
  split; [vm_compute; lia|].
  apply (minimax_pruning_exact 9 captureBoard 2 true black None);
    [lia | reflexivity | exact I | vm_compute; lia].
Defined.

(** ** The range of the scores *)

Section LoopsRange.
Variable recur :
  BoardState -> Z -> num -> num -> bool -> option Position -> search.
Hypothesis recur_range :
  forall b d a be m mj w, recur b d a be m mj = Some (Ok w) -> inRange w.
Variables (board : BoardState) (depth : Z) (mover : Player).

Lemma maxLoop_range moves :
  forall alpha beta acc W,
    maxLoop recur board depth mover moves alpha beta acc = Some (Ok W) ->
    acc = NegInf \/ inRange acc ->
    moves <> [] \/ inRange acc ->
    inRange W.
Proof.
  induction moves as [|m moves IH]; simpl; intros alpha beta acc W H Ha Hm.
  - injection H as <-. destruct Hm as [Hm|Hm]; [congruence|exact Hm].
  - destruct (simulateMove board m mover) as [s|]; [|discriminate].
    destruct (recur _ _ _ _ _ _) as [[w|]|] eqn:Ew; try discriminate.
    apply recur_range in Ew.
    assert (inRange (num_max acc w)) as Hr.
    { destruct Ew as (z & -> & Hz).
      destruct Ha as [->|(z' & -> & Hz')]; simpl; eexists; split; eauto.
      lia. }
    destruct (num_leb _ _).
    + injection H as <-. exact Hr.
    + apply IH in H; auto.
Qed.

Lemma minLoop_range moves :
  forall alpha beta acc W,
    minLoop recur board depth mover moves alpha beta acc = Some (Ok W) ->
    acc = PosInf \/ inRange acc ->
    moves <> [] \/ inRange acc ->
    inRange W.
Proof.
  induction moves as [|m moves IH]; simpl; intros alpha beta acc W H Ha Hm.
  - injection H as <-. destruct Hm as [Hm|Hm]; [congruence|exact Hm].
  - destruct (simulateMove board m mover) as [s|]; [|discriminate].
    destruct (recur _ _ _ _ _ _) as [[w|]|] eqn:Ew; try discriminate.
    apply recur_range in Ew.
    assert (inRange (num_min acc w)) as Hr.
    { destruct Ew as (z & -> & Hz).
      destruct Ha as [->|(z' & -> & Hz')]; simpl; eexists; split; eauto.
      lia. }
    destruct (num_leb _ _).
    + injection H as <-. exact Hr.
    + apply IH in H; auto.
Qed.
End LoopsRange.

Lemma minimax_inRange fuel :
  forall board depth alpha beta mx p mjf w,
    minimax fuel board depth alpha beta mx p mjf = Some (Ok w) ->
    inRange w.
Proof.
  induction fuel as [|fuel IH]; intros board depth alpha beta mx p mjf w H;
    [discriminate|].
  rewrite minimax_S in H. destruct (depth =? 0).
  { destruct (evaluateBoard board p) as [v|] eqn:Ev; [|discriminate].
    injection H as <-. apply evaluateBoard_bound in Ev.
    exists v. split; [reflexivity|lia]. }
  destruct (possibleMoves _ _ _) as [ms|]; [|discriminate].
  destruct (length ms =? 0)%nat eqn:El.
  { injection H as <-. eexists. split; [reflexivity|]. destruct mx; lia. }
  assert (ms <> []) as Hne by (intros ->; discriminate El).
  destruct mx.
  - eapply maxLoop_range in H; eauto.
  - eapply minLoop_range in H; eauto.
Qed.

(** X11.  [minimax] never returns an infinity.  On a board with its
    eight rows, for a depth of at least 0, a [mustJumpFrom] that is
    [null] or names a row 0..7 of the board, any window and either kind
    of node (and enough fuel), the value it returns is a number between
    the two sentinels, -10000 and 10000 included: the loops run at least
    once where they run, so [-Infinity] and [Infinity] never survive as
    [maxEval] or [minEval]. *)
Theorem minimax_range fuel board depth alpha beta mx p mjf :
  0 <= depth ->
  hasAllRows board -> rowOnBoard mjf ->
  (searchFuel depth board <= fuel)%nat ->
  exists z,
    minimax fuel board depth alpha beta mx p mjf = Some (Ok (Fin z)) /\
    -10000 <= z <= 10000.
Proof.
  intros Hd Hb Hq Hf.
  destruct (minimax_returns fuel board depth alpha beta mx p mjf Hd Hf)
    as (r & Hr & Hfin).
  destruct (Hfin (conj Hb Hq)) as [z ->].
  destruct (minimax_inRange _ _ _ _ _ _ _ _ _ Hr) as (z' & [= <-] & Hz).
  exists z. auto.
Qed.

Lemma minimax_range_witness :
  0 <= 2 /\
  hasAllRows captureBoard /\ rowOnBoard None /\
  (searchFuel 2 captureBoard <= 9)%nat /\
  exists z,
    minimax 9 captureBoard 2 (Fin 0) (Fin 1) false red None
    = Some (Ok (Fin z)) /\
    -10000 <= z <= 10000.
Proof.
  split; [lia|]. split; [reflexivity|]. split; [exact I|].
  split; [vm_compute; lia|].
  apply (minimax_range 9 captureBoard 2 (Fin 0) (Fin 1) false red None);
    [lia | reflexivity | exact I | vm_compute; lia].
Defined.

(** ** [getAiMove] answers with a move of the list *)

Lemma difficulty_eq_dec (a b : Difficulty) : {a = b} + {a <> b}.
Proof. decide equality. Qed.

Lemma getAiMove_total randomIndex shuffle fuel board p difficulty mjf :
  (forall l, Permutation l (shuffle l)) ->
  (forall n, (0 < n)%nat -> (randomIndex n < n)%nat) ->
  hasAllRows board -> rowOnBoard mjf ->
  (searchFuel (tierDepth difficulty) board <= fuel)%nat ->
  exists ms r,
    possibleMoves board p mjf = Ok ms /\
    getAiMove randomIndex shuffle fuel board p difficulty mjf = Some (Ok r) /\
    match r with
    | None => ms = []
    | Some m => In m ms
    end.
Proof.
  intros Hsh Hri Hb Hq Hf.
  destruct (possibleMoves_total board p mjf Hb Hq) as [ms Hms].
  exists ms. destruct ms as [|first rest] eqn:Ems.
  { exists None. unfold getAiMove. rewrite Hms. auto. }
  destruct (difficulty_eq_dec difficulty easy) as [->|Hne].
  - unfold getAiMove. rewrite Hms.
    destruct (lookup_lt_is_Some_2 (first :: rest)
                (randomIndex (length (first :: rest)))) as [m Hm].
    { apply Hri. simpl. lia. }
    exists (Some m). split; [reflexivity|]. split.
    + f_equal. f_equal. exact Hm.
    + apply list_elem_of_In. eapply list_elem_of_lookup_2. exact Hm.
  - destruct (getAiMove_best randomIndex shuffle fuel board p difficulty mjf
                (first :: rest) Hsh Hb Hne Hms) as (best & zb & Hg & Hin & _);
      [discriminate|exact Hf|].
    exists (Some best). auto.
Qed.

(** X12.  [getAiMove] answers with a legal move or with [null].  On a
    board with its eight rows and for a [mustJumpFrom] that is [null] or
    names a row 0..7 of the board, at every difficulty, whatever the
    random index (below the length of the list) and the shuffle (a
    permutation), and with enough fuel for the search, it returns; it
    returns [null] exactly when the move list of the player is empty, and
    otherwise a move of that list. *)
Theorem getAiMove_legal randomIndex shuffle fuel board p difficulty mjf :
  (forall l, Permutation l (shuffle l)) ->
  (forall n, (0 < n)%nat -> (randomIndex n < n)%nat) ->
  hasAllRows board -> rowOnBoard mjf ->
  (searchFuel (tierDepth difficulty) board <= fuel)%nat ->
  exists ms r,
    possibleMoves board p mjf = Ok ms /\
    getAiMove randomIndex shuffle fuel board p difficulty mjf = Some (Ok r) /\
    match r with
    | None => ms = []
    | Some m => In m ms
    end.
Proof. apply getAiMove_total. Qed.

Lemma getAiMove_legal_witness :
  (forall l : list Move, Permutation l ((fun l => l) l)) /\
  (forall n, (0 < n)%nat -> ((fun n => 0%nat) n < n)%nat) /\
  hasAllRows captureBoard /\ rowOnBoard None /\
  (searchFuel (tierDepth easy) captureBoard <= 15)%nat /\
  exists ms r,
    possibleMoves captureBoard black None = Ok ms /\
    getAiMove (fun n => 0%nat) (fun l => l) 15 captureBoard black easy None
    = Some (Ok r) /\
    match r with
    | None => ms = []
    | Some m => In m ms
    end.
Proof.
  split; [intros l; apply Permutation_refl|].
  split; [intros n Hn; exact Hn|].
  split; [reflexivity|]. split; [exact I|]. split; [vm_compute; lia|].
  apply (getAiMove_legal (fun n => 0%nat) (fun l => l) 15 captureBoard black
           easy None);
    [intros l; apply Permutation_refl | intros n Hn; exact Hn
    | reflexivity | exact I | vm_compute; lia].
Defined.

(** ** The two sides see opposite values *)

Lemma otherPlayer_involutive p : otherPlayer (otherPlayer p) = p.
Proof. destruct p; reflexivity. Qed.

Lemma num_opp_involutive a : num_opp (num_opp a) = a.
Proof. destruct a; simpl; f_equal; lia. Qed.

Lemma num_opp_max a b : num_opp (num_max a b) = num_min (num_opp a) (num_opp b).
Proof. destruct a, b; simpl; f_equal; lia. Qed.

Lemma num_opp_min a b : num_opp (num_min a b) = num_max (num_opp a) (num_opp b).
Proof. destruct a, b; simpl; f_equal; lia. Qed.

Section BestOfOpp.
Variables recur recur' : BoardState -> Z -> bool -> option Position -> search.
Hypothesis recur_opp :
  forall b d m mj v,
    recur b d m mj = Some (Ok v) ->
    recur' b d (negb m) mj = Some (Ok (num_opp v)).
Variables (board : BoardState) (depth : Z) (mover : Player).

Lemma bestOf_opp (mx : bool) moves :
  forall acc V,
    bestOf recur board depth mover (if mx then num_max else num_min) mx
      moves acc = Some (Ok V) ->
    bestOf recur' board depth mover (if mx then num_min else num_max)
      (negb mx) moves (num_opp acc) = Some (Ok (num_opp V)).
Proof.
  induction moves as [|m moves IH]; simpl; intros acc V H.
  - injection H as <-. reflexivity.
  - destruct (simulateMove board m mover) as [s|]; [|discriminate].
    destruct (recur _ _ _ _) as [[v|]|] eqn:Ev; try discriminate.
    apply recur_opp in Ev.
    replace (if Player_eqb (nextTurn s) mover then negb mx
             else negb (negb mx))
      with (negb (if Player_eqb (nextTurn s) mover then mx else negb mx))
      by (destruct (Player_eqb _ _); reflexivity).
    rewrite Ev. apply IH in H.
    destruct mx; [rewrite num_opp_max in H|rewrite num_opp_min in H]; exact H.
Qed.
End BestOfOpp.

Lemma evaluateBoard_opp board p v :
  evaluateBoard board p = Ok v ->
  evaluateBoard board (otherPlayer p) = Ok (- v).
Proof.
  unfold evaluateBoard. intros H.
  rewrite (evaluateLoop_opp board (otherPlayer p) squares 0 0 eq_refl).
  rewrite otherPlayer_involutive, H. reflexivity.
Qed.

Lemma fullSearch_opp fuel :
  forall board depth mx p mjf v,
    fullSearch fuel board depth mx p mjf = Some (Ok v) ->
    fullSearch fuel board depth (negb mx) (otherPlayer p) mjf
    = Some (Ok (num_opp v)).
Proof.
  induction fuel as [|fuel IH]; intros board depth mx p mjf v H;
    [discriminate|].
  rewrite fullSearch_S in H |- *.
  replace (sideToMove (negb mx) (otherPlayer p)) with (sideToMove mx p)
    by (destruct mx; simpl; rewrite ?otherPlayer_involutive; reflexivity).
  destruct (depth =? 0).
  { destruct (evaluateBoard board p) as [s|] eqn:Es; [|discriminate].
    injection H as <-. rewrite (evaluateBoard_opp _ _ _ Es). reflexivity. }
  destruct (possibleMoves board (sideToMove mx p) mjf) as [ms|];
    [|discriminate].
  destruct (length ms =? 0)%nat.
  { injection H as <-. destruct mx; reflexivity. }
  apply (bestOf_opp (fun b d m mj => fullSearch fuel b d m p mj)
           (fun b d m mj => fullSearch fuel b d m (otherPlayer p) mj)) in H.
  - destruct mx; exact H.
  - intros b d m mj v0 Hv. apply IH. exact Hv.
Qed.

(** X13.  The search is zero-sum.  On a board with its eight rows, for
    a depth of at least 0 and a [mustJumpFrom] that is [null] or names a
    row 0..7 of the board (and enough fuel), the value that [minimax]
    (full window) returns for a node seen from [player] is the opposite
    of the value it returns for the same node, the same side to move,
    seen from the other player (the [maximizingPlayer] flag flipped along
    with [player]). *)
Theorem minimax_zero_sum fuel board depth mx p mjf :
  0 <= depth ->
  hasAllRows board -> rowOnBoard mjf ->
  (searchFuel depth board <= fuel)%nat ->
  exists z,
    minimax fuel board depth NegInf PosInf mx p mjf = Some (Ok (Fin z)) /\
    minimax fuel board depth NegInf PosInf (negb mx) (otherPlayer p) mjf
    = Some (Ok (Fin (- z))).
Proof.
  intros Hd Hb Hq Hf.
  destruct (fullSearch_returns fuel board depth mx p mjf Hd Hf Hb Hq)
    as [v H].
  pose proof (fullSearch_opp _ _ _ _ _ _ _ H) as H'.
  destruct (minimax_failSoft _ _ _ _ _ _ _ H NegInf PosInf eq_refl)
    as (w & Hw & Hs).
  destruct (minimax_failSoft _ _ _ _ _ _ _ H' NegInf PosInf eq_refl)
    as (w' & Hw' & Hs').
  assert (w = v) as -> by (revert Hs; clear; num_order).
  assert (w' = num_opp v) as -> by (revert Hs'; clear; num_order).
  destruct (minimax_inRange _ _ _ _ _ _ _ _ _ Hw) as (z & -> & _).
  exists z. split; [exact Hw|exact Hw'].
Qed.

Lemma minimax_zero_sum_witness :
  0 <= 2 /\
  hasAllRows captureBoard /\ rowOnBoard None /\
  (searchFuel 2 captureBoard <= 9)%nat /\
  exists z,
    minimax 9 captureBoard 2 NegInf PosInf true black None
    = Some (Ok (Fin z)) /\
    minimax 9 captureBoard 2 NegInf PosInf (negb true) (otherPlayer black)
      None
    = Some (Ok (Fin (- z))).
Proof.
  split; [lia|]. split; [reflexivity|]. split; [exact I|].
  split; [vm_compute; lia|].
  apply (minimax_zero_sum 9 captureBoard 2 true black None);
    [lia | reflexivity | exact I | vm_compute; lia].
Defined.

(** ** [checkWinCondition] *)

Lemma anyInRow_true f cs :
  anyInRow f cs = Ok true -> exists c, In c cs /\ f c = Ok true.
Proof.
  induction cs as [|c cs IH]; simpl; intros H; [discriminate|].
  inv_bind. destruct x.
  - exists c. auto.
  - destruct (IH H) as (c' & Hin & Hf). exists c'. auto.
Qed.

Lemma anyInRow_false f cs :
  anyInRow f cs = Ok false -> forall c, In c cs -> f c = Ok false.
Proof.
  induction cs as [|c cs IH]; simpl; intros H c' Hin; [tauto|].
  inv_bind. destruct x; [discriminate|].
  destruct Hin as [<-|Hin]; auto.
Qed.

Lemma anyRow_true f rs :
  forall flag,
    anyRow f rs flag = Ok true ->
    flag = true \/ exists r c, In r rs /\ In c range8 /\ f r c = Ok true.
Proof.
  induction rs as [|r rs IH]; intros flag H.
  - simpl in H. injection H as ->. auto.
  - cbn [anyRow] in H. inv_bind. apply IH in H as [H|(r' & c & Hr & Hc & Hf)].
    + destruct flag; [auto|]. simpl in H. subst x.
      apply anyInRow_true in E as (c & Hc & Hf).
      right. exists r, c. simpl. auto.
    + right. exists r', c. simpl. auto.
Qed.

Lemma anyRow_false f rs :
  forall flag,
    anyRow f rs flag = Ok false ->
    flag = false /\
    forall r c, In r rs -> In c range8 -> f r c = Ok false.
Proof.
  induction rs as [|r rs IH]; intros flag H.
  - simpl in H. injection H as ->. split; [auto|]. intros r c [].
  - cbn [anyRow] in H. inv_bind. apply IH in H as [H Hall].
    apply orb_false_iff in H as [-> ->]. split; [reflexivity|].
    intros r' c [<-|Hr] Hc; [|auto].
    eapply anyInRow_false; eauto.
Qed.

Lemma legalMove_canMove board p :
  hasAllRows board ->
  (exists m, legalMove board p m) <-> canMove board p.
Proof.
  intros Hb. split.
  - intros (m & G & Hon & (piece & Hp & Hpl) & _). exists m, piece. auto.
  - intros (m & piece & G & Hon & Hp & Hpl).
    destruct (hasAnyJumps_total board p Hb) as [gj Hgj].
    pose proof (hasAnyJumps_mustCapture _ _ _ Hgj) as Hmc.
    destruct gj.
    + destruct (proj1 Hmc eq_refl) as (pos & piece' & Hon' & Hp' & Hpl' & Hc).
      assert (0 <= row pos < 8) as Hr
          by (unfold onBoard in Hon'; apply isValidPos_spec in Hon'; tauto).
      destruct (getValidMoves_total board pos false Hb Hr) as [ms Hms].
      apply (canCapture_iff _ _ _ _ Hms) in Hc.
      destruct (List.filter isJump ms) as [|j js] eqn:Ef; [congruence|].
      assert (In j (List.filter isJump ms)) as Hj by (rewrite Ef; left; auto).
      apply filter_In in Hj as [Hj Hjj].
      apply getValidMoves_generated in Hms.
      rewrite List.Forall_forall in Hms. destruct (Hms j Hj) as [Gj Hfrom].
      exists j. split; [exact Gj|]. rewrite Hfrom.
      split; [exact Hon'|]. split; [eauto|auto].
    + exists m. split; [exact G|]. split; [exact Hon|]. split; [eauto|].
      intros Hc. apply Hmc in Hc. discriminate.
Qed.

Lemma checkWinCondition_canMove board p w :
  hasAllRows board ->
  checkWinCondition board p = Ok w ->
  (canMove board p -> w = None) /\
  (~ canMove board p -> w = Some (Wins (otherPlayer p))).
Proof.
  intros Hb H. unfold checkWinCondition in H.
  apply bind_Ok in H as (hasPieces & E & H).
  destruct hasPieces; cbn [negb] in H.
  - apply bind_Ok in H as (hasMoves & E0 & H).
    destruct hasMoves; cbn [negb] in H; inv_bind.
    + split; [auto|]. intros Hn. exfalso. apply Hn.
      apply anyRow_true in E0 as [[=]|(r & c & Hr & Hc & Hf)].
      inv_bind. apply cell_Ok in E0 as [_ Hp].
      destruct x as [piece|]; [|discriminate].
      destruct (Player_eqb (player piece) p) eqn:Hpl; [|discriminate].
      inv_bind. destruct x as [|m ms]; [discriminate|].
      match goal with
      | V : getValidMoves _ _ _ = Ok _ |- _ =>
          apply getValidMoves_generated in V; inversion V as [|? ? [G Hfrom] _]
      end.
      subst. exists m, piece. split; [exact G|]. rewrite Hfrom.
      split; [apply squares_onBoard, squares_In_iff;
              split; apply range8_In_iff; assumption|].
      split; [exact Hp|]. destruct (player piece), p; auto; discriminate.
    + split; [|auto]. intros (m & piece & G & Hon & Hp & Hpl). exfalso.
      apply anyRow_false in E0 as [_ Hall].
      apply squares_onBoard, squares_In_iff in Hon as [Hr Hc].
      apply range8_In_iff in Hr, Hc.
      specialize (Hall _ _ Hr Hc). simpl in Hall. inv_bind.
      apply cell_Ok in E0 as [_ E0].
      replace (mkPos (row (from m)) (col (from m))) with (from m) in *
        by (destruct (from m); auto).
      rewrite Hp in E0. subst x. subst p. rewrite Player_eqb_refl in Hall.
      inv_bind.
      match goal with
      | V : getValidMoves _ _ _ = Ok ?l |- _ =>
          assert (In m l) as Hm
            by (eapply getValidMoves_complete; eauto; discriminate)
      end.
      destruct x; [destruct Hm|discriminate].
  - inv_bind. split; [|auto]. intros (m & piece & G & Hon & Hp & Hpl). exfalso.
    apply anyRow_false in E as [_ Hall].
    apply squares_onBoard, squares_In_iff in Hon as [Hr Hc].
    apply range8_In_iff in Hr, Hc.
    specialize (Hall _ _ Hr Hc). simpl in Hall. inv_bind.
    apply cell_Ok in E as [_ E].
    replace (mkPos (row (from m)) (col (from m))) with (from m) in *
      by (destruct (from m); auto).
    rewrite Hp in E. subst. rewrite Player_eqb_refl in Hall.
    discriminate.
Qed.

Lemma possibleMoves_nil_iff board p ms :
  hasAllRows board ->
  possibleMoves board p None = Ok ms ->
  ms = [] <-> ~ canMove board p.
Proof.
  intros Hb H. rewrite <- (legalMove_canMove _ _ Hb). split.
  - intros -> (m & Hm). apply (possibleMoves_None_In _ _ _ _ H) in Hm.
    destruct Hm.
  - intros Hn. destruct ms as [|m ms]; [reflexivity|]. exfalso. apply Hn.
    exists m. apply (possibleMoves_None_In _ _ _ _ H). left. reflexivity.
Qed.

Lemma checkWinCondition_possibleMoves board p :
  hasAllRows board ->
  exists ms,
    possibleMoves board p None = Ok ms /\
    checkWinCondition board p
    = Ok (match ms with
          | [] => Some (Wins (otherPlayer p))
          | _ :: _ => None
          end).
Proof.
  intros Hb.
  destruct (possibleMoves_total board p None Hb I) as [ms Hms].
  destruct (checkWinCondition_total board p Hb) as [w Hw].
  exists ms. split; [exact Hms|]. rewrite Hw. f_equal.
  destruct (checkWinCondition_canMove _ _ _ Hb Hw) as [Hyes Hno].
  pose proof (possibleMoves_nil_iff _ _ _ Hb Hms) as Hnil.
  destruct ms as [|m ms].
  - apply Hno, Hnil. reflexivity.
  - apply Hyes. apply (legalMove_canMove _ _ Hb).
    exists m. apply (possibleMoves_None_In _ _ _ _ Hms). left. reflexivity.
Qed.

(** X14.  [checkWinCondition] and the AI agree on who can move.  On a
    board with its eight rows, [checkWinCondition(board, nextPlayer)]
    sets the winner (to the other player) exactly when the move list
    that [minimax] and [getAiMove] build for [nextPlayer] is empty, and
    sets nothing otherwise; its two [break]s, which leave the inner loop
    only, do not change the answer. *)
Theorem checkWinCondition_spec board p :
  hasAllRows board ->
  exists ms,
    possibleMoves board p None = Ok ms /\
    checkWinCondition board p
    = Ok (match ms with
          | [] => Some (Wins (otherPlayer p))
          | _ :: _ => None
          end).
Proof. apply checkWinCondition_possibleMoves. Qed.

Lemma checkWinCondition_spec_witness :
  hasAllRows captureBoard /\
  exists ms,
    possibleMoves captureBoard black None = Ok ms /\
    checkWinCondition captureBoard black
    = Ok (match ms with
          | [] => Some (Wins (otherPlayer black))
          | _ :: _ => None
          end).
Proof.
  split; [reflexivity|].
  apply (checkWinCondition_spec captureBoard black). reflexivity.
Defined.

(** ** [executeMove] and [simulateMove] apply a move alike *)

Lemma executeMove_unfold st m :
  executeMove st m
  = match simulateMove (st_board st) m (st_turn st) with
    | Ok s =>
        let st1 := setBoard (newBoard s) st in
        match nextMustJumpFrom s with
        | Some q => Returned (setSelectedPos (Some q)
                                (setMustJumpFrom (Some q) st1))
        | None =>
            let st2 :=
              setTurn (nextTurn s)
                (setSelectedPos None (setMustJumpFrom None st1)) in
            match checkWinCondition (newBoard s) (nextTurn s) with
            | TypeError => Threw st2
            | Ok (Some w) => Returned (setWinner (Some w) st2)
            | Ok None => Returned st2
            end
        end
    | TypeError =>
        match movePiece (st_board st) m with
        | Ok nb => Threw (setBoard nb st)
        | TypeError => Threw st
        end
    end.
Proof.
  unfold executeMove, simulateMove.
  destruct (movePiece (st_board st) m) as [nb|]; [|reflexivity].
  cbn [bind]. destruct (isJump m); [|reflexivity].
  destruct (getValidMoves nb (to m) true) as [ms|]; [|reflexivity].
  cbn [bind]. destruct (0 <? _)%nat; reflexivity.
Qed.

Lemma simulateMove_next board m p s :
  simulateMove board m p = Ok s ->
  (nextMustJumpFrom s = None /\ nextTurn s = otherPlayer p) \/
  (nextMustJumpFrom s = Some (to m) /\ nextTurn s = p /\ isJump m = true).
Proof.
  intros H. destruct (simulateMove_inv _ _ _ _ H) as [_ Hk].
  destruct (isJump m); [|tauto].
  destruct Hk as (ms & _ & Hk). destruct (0 <? _)%nat; tauto.
Qed.

(** X15.  The game applies a move as the AI simulates it.  On a board
    with its eight rows, when [simulateMove(board, move, turn)] returns,
    [executeMove(move)] returns too and sets the board, the turn and
    [mustJumpFrom] to the [newBoard], [nextTurn] and [nextMustJumpFrom]
    of that result, and the selection to [nextMustJumpFrom]; when
    [simulateMove] throws, [executeMove] throws and leaves the turn, the
    selection, [mustJumpFrom] and the winner as they were. *)
Theorem executeMove_agrees_with_simulateMove st m :
  hasAllRows (st_board st) ->
  match simulateMove (st_board st) m (st_turn st) with
  | Ok s =>
      exists st',
        executeMove st m = Returned st' /\
        st_board st' = newBoard s /\
        st_turn st' = nextTurn s /\
        st_mustJumpFrom st' = nextMustJumpFrom s /\
        st_selectedPos st' = nextMustJumpFrom s
  | TypeError =>
      exists st',
        executeMove st m = Threw st' /\
        st_turn st' = st_turn st /\
        st_mustJumpFrom st' = st_mustJumpFrom st /\
        st_selectedPos st' = st_selectedPos st /\
        st_winner st' = st_winner st
  end.
Proof.
  intros Hb. rewrite executeMove_unfold.
  destruct (simulateMove (st_board st) m (st_turn st)) as [s|] eqn:Es.
  - destruct (simulateMove_inv _ _ _ _ Es) as [Hnb _].
    assert (hasAllRows (newBoard s)) as Hb'.
    { unfold hasAllRows in *.
      exact (eq_trans (movePiece_length _ _ _ Hnb) Hb). }
    cbn zeta.
    destruct (simulateMove_next _ _ _ _ Es) as [[Eq Et]|(Eq & Et & _)];
      rewrite Eq.
    2:{ eexists. split; [reflexivity|]. simpl. rewrite Et.
        repeat split; reflexivity. }
    destruct (checkWinCondition_total (newBoard s) (nextTurn s) Hb')
        as [[w|] ->]; eexists; (split; [reflexivity|]); simpl;
        repeat split; reflexivity.
  - destruct (movePiece (st_board st) m);
      eexists; (split; [reflexivity|]); simpl; repeat split; reflexivity.
Qed.

Lemma executeMove_agrees_with_simulateMove_witness :
  hasAllRows (st_board (mkApp captureBoard black None None None)) /\
  match simulateMove (st_board (mkApp captureBoard black None None None))
          captureMove (st_turn (mkApp captureBoard black None None None)) with
  | Ok s =>
      exists st',
        executeMove (mkApp captureBoard black None None None) captureMove
        = Returned st' /\
        st_board st' = newBoard s /\
        st_turn st' = nextTurn s /\
        st_mustJumpFrom st' = nextMustJumpFrom s /\
        st_selectedPos st' = nextMustJumpFrom s
  | TypeError =>
      exists st',
        executeMove (mkApp captureBoard black None None None) captureMove
        = Threw st' /\
        st_turn st' = st_turn (mkApp captureBoard black None None None) /\
        st_mustJumpFrom st'
        = st_mustJumpFrom (mkApp captureBoard black None None None) /\
        st_selectedPos st'
        = st_selectedPos (mkApp captureBoard black None None None) /\
        st_winner st' = st_winner (mkApp captureBoard black None None None)
  end.
Proof.
  split; [reflexivity|].
  apply (executeMove_agrees_with_simulateMove
           (mkApp captureBoard black None None None) captureMove).
  reflexivity.
Defined.

Lemma executeMove_moves st m st' :
  hasAllRows (st_board st) ->
  executeMove st m = Returned st' ->
  exists ms,
    possibleMoves (st_board st') (st_turn st') (st_mustJumpFrom st') = Ok ms /\
    match ms with
    | [] => st_winner st' = Some (Wins (otherPlayer (st_turn st')))
    | _ :: _ => st_winner st' = st_winner st
    end.
Proof.
  intros Hb. rewrite executeMove_unfold.
  destruct (simulateMove (st_board st) m (st_turn st)) as [s|] eqn:Es.
  2:{ destruct (movePiece _ _); discriminate. }
  destruct (simulateMove_inv _ _ _ _ Es) as [Hnb Hk].
  assert (hasAllRows (newBoard s)) as Hb'.
  { unfold hasAllRows in *.
    exact (eq_trans (movePiece_length _ _ _ Hnb) Hb). }
  cbn zeta. destruct (nextMustJumpFrom s) as [q|] eqn:Eq.
  - intros [= <-]. simpl.
    destruct (isJump m); [|destruct Hk as [_ Hk]; congruence].
    destruct Hk as (fs & Hfs & Hk).
    destruct (0 <? _)%nat eqn:El; [|destruct Hk as [_ Hk]; congruence].
    destruct Hk as [_ Hk]. injection Hk as ->.
    rewrite Hfs. cbn [bind].
    eexists. split; [reflexivity|].
    apply length_pos_iff in El.
    destruct (List.filter isJump fs); [congruence|reflexivity].
  - destruct (checkWinCondition_possibleMoves (newBoard s) (nextTurn s) Hb')
      as (ms & Hms & Hw).
    rewrite Hw.
    destruct ms as [|m0 ms]; intros [= <-]; simpl;
      (eexists; split; [exact Hms|]); reflexivity.
Qed.

(** X16.  After [executeMove] the game is never stuck unnoticed.  On a
    board with its eight rows, when [executeMove] returns, either the
    side to move in the new state has a legal move (its move list, for
    the new [mustJumpFrom], is not empty) and the winner is as it was, or
    it has none and the other side has been declared the winner. *)
Theorem executeMove_win_detection st m st' :
  hasAllRows (st_board st) ->
  executeMove st m = Returned st' ->
  exists ms,
    possibleMoves (st_board st') (st_turn st') (st_mustJumpFrom st') = Ok ms /\
    match ms with
    | [] => st_winner st' = Some (Wins (otherPlayer (st_turn st')))
    | _ :: _ => st_winner st' = st_winner st
    end.
Proof. apply executeMove_moves. Qed.

Lemma executeMove_win_detection_witness :
  exists st',
    hasAllRows (st_board (mkApp captureBoard black None None None)) /\
    executeMove (mkApp captureBoard black None None None) captureMove
    = Returned st' /\
    exists ms,
      possibleMoves (st_board st') (st_turn st') (st_mustJumpFrom st')
      = Ok ms /\
      match ms with
      | [] => st_winner st' = Some (Wins (otherPlayer (st_turn st')))
      | _ :: _ =>
          st_winner st' = st_winner (mkApp captureBoard black None None None)
      end.
Proof.
  eexists. split; [reflexivity|]. split; [reflexivity|].
  apply (executeMove_win_detection (mkApp captureBoard black None None None)
           captureMove);
    reflexivity.
Defined.

(** ** The moves offered to the player *)

Lemma Position_eqb_rows_cols a b :
  negb (row a =? row b) || negb (col a =? col b) = negb (Position_eqb a b).
Proof.
  unfold Position_eqb. destruct (row a =? row b), (col a =? col b); reflexivity.
Qed.

Lemma validMoves_In c vm :
  validMoves c = Ok vm ->
  (st_selectedPos (game c) = None \/ c_isAiThinking c = true \/
   aiToMove c = true -> vm = []) /\
  (c_isAiThinking c = false -> aiToMove c = false ->
   forall sp piece ms,
     st_selectedPos (game c) = Some sp ->
     onBoard sp ->
     pieceAt (st_board (game c)) sp = Some piece ->
     player piece = st_turn (game c) ->
     possibleMoves (st_board (game c)) (st_turn (game c))
       (st_mustJumpFrom (game c)) = Ok ms ->
     forall m, In m vm <-> In m ms /\ from m = sp).
Proof.
  unfold validMoves. intros H. split.
  - intros [Hs|[Ht|Ha]].
    + rewrite Hs in H. congruence.
    + destruct (st_selectedPos (game c)); [|congruence].
      rewrite Ht in H. congruence.
    + destruct (st_selectedPos (game c)); [|congruence].
      destruct (c_isAiThinking c); [congruence|].
      rewrite Ha in H. congruence.
  - intros Ht Ha sp piece ms Hsp Hon Hp Hpl Hms m.
    rewrite Hsp, Ht, Ha in H.
    destruct (st_mustJumpFrom (game c)) as [q|] eqn:Eq.
    + rewrite (possibleMoves_Some_In _ _ _ _ m Hms).
      rewrite Position_eqb_rows_cols in H.
      destruct (Position_eqb sp q) eqn:Esp; simpl in H.
      * apply Position_eqb_eq in Esp. subst q. inv_bind.
        rewrite filter_In, (getValidMoves_In _ _ _ _ E m). intuition auto.
      * apply Position_eqb_neq in Esp. inv_bind. simpl.
        intuition congruence.
    + simpl in H. inv_bind.
      rewrite (possibleMoves_None_In _ _ _ m Hms).
      match goal with
      | J : hasAnyJumps _ _ = Ok ?gj |- _ =>
          pose proof (hasAnyJumps_mustCapture _ _ _ J) as Hgj
      end.
      unfold legalMove.
      destruct x0; rewrite ?filter_In, (getValidMoves_In _ _ _ _ E m).
      * intuition (subst; eauto).
      * assert (~ mustCapture (st_board (game c)) (st_turn (game c)))
          by (intros K; apply Hgj in K; discriminate).
        intuition (subst; eauto; try discriminate).
Qed.

(** X17.  The moves offered to the player are the legal moves of the
    selected piece.  [validMoves] is empty when nothing is selected,
    while the AI is thinking and when it is the AI's turn; otherwise,
    for a selected square of the board that holds a piece of the side to
    move, it holds exactly the moves of the list that [minimax] and
    [getAiMove] build for that side (and the current [mustJumpFrom])
    that start on the selected square. *)
Theorem validMoves_exact c vm :
  validMoves c = Ok vm ->
  (st_selectedPos (game c) = None \/ c_isAiThinking c = true \/
   aiToMove c = true -> vm = []) /\
  (c_isAiThinking c = false -> aiToMove c = false ->
   forall sp piece ms,
     st_selectedPos (game c) = Some sp ->
     onBoard sp ->
     pieceAt (st_board (game c)) sp = Some piece ->
     player piece = st_turn (game c) ->
     possibleMoves (st_board (game c)) (st_turn (game c))
       (st_mustJumpFrom (game c)) = Ok ms ->
     forall m, In m vm <-> In m ms /\ from m = sp).
Proof. apply validMoves_In. Qed.

Lemma validMoves_exact_witness :
  validMoves (clicked initialComponent 5 0)
  = Ok [mkMove (mkPos 5 0) (mkPos 4 1) false None] /\
  (st_selectedPos (game (clicked initialComponent 5 0)) = None \/
   c_isAiThinking (clicked initialComponent 5 0) = true \/
   aiToMove (clicked initialComponent 5 0) = true ->
   [mkMove (mkPos 5 0) (mkPos 4 1) false None] = []) /\
  (c_isAiThinking (clicked initialComponent 5 0) = false ->
   aiToMove (clicked initialComponent 5 0) = false ->
   forall sp piece ms,
     st_selectedPos (game (clicked initialComponent 5 0)) = Some sp ->
     onBoard sp ->
     pieceAt (st_board (game (clicked initialComponent 5 0))) sp
     = Some piece ->
     player piece = st_turn (game (clicked initialComponent 5 0)) ->
     possibleMoves (st_board (game (clicked initialComponent 5 0)))
       (st_turn (game (clicked initialComponent 5 0)))
       (st_mustJumpFrom (game (clicked initialComponent 5 0))) = Ok ms ->
     forall m,
       In m [mkMove (mkPos 5 0) (mkPos 4 1) false None]
       <-> In m ms /\ from m = sp).
Proof.
  split; [reflexivity|].
  apply (validMoves_exact (clicked initialComponent 5 0)
           [mkMove (mkPos 5 0) (mkPos 4 1) false None]).
  reflexivity.
Defined.

(** ** States of the component that play reaches *)

Lemma possibleMoves_owned st ms m :
  wellFormedGame st ->
  possibleMoves (st_board st) (st_turn st) (st_mustJumpFrom st) = Ok ms ->
  In m ms ->
  generated (st_board st) m /\
  ownedAt (st_board st) (st_turn st) (from m).
Proof.
  intros (Hb & Hd & Hsel & Hmjf & Hw & Hdraw) Hms Hm.
  destruct (st_mustJumpFrom st) as [q|] eqn:Eq.
  - apply (possibleMoves_Some_In _ _ _ _ m Hms) in Hm as (G & Hfrom & _).
    split; [exact G|]. rewrite Hfrom. apply Hsel, Hmjf. reflexivity.
  - apply (possibleMoves_None_In _ _ _ m Hms) in Hm as (G & Hon & Hp & _).
    split; [exact G|]. split; assumption.
Qed.

Lemma executeMove_Returned st m st' :
  executeMove st m = Returned st' ->
  exists s,
    simulateMove (st_board st) m (st_turn st) = Ok s /\
    st_board st' = newBoard s /\
    st_turn st' = nextTurn s /\
    st_mustJumpFrom st' = nextMustJumpFrom s /\
    st_selectedPos st' = nextMustJumpFrom s.
Proof.
  rewrite executeMove_unfold.
  destruct (simulateMove (st_board st) m (st_turn st)) as [s|] eqn:Es.
  2:{ destruct (movePiece _ _); discriminate. }
  intros H. exists s. split; [reflexivity|]. cbn zeta in H.
  destruct (simulateMove_next _ _ _ _ Es) as [[Eq Et]|(Eq & Et & _)];
    rewrite Eq in H |- *.
  - destruct (checkWinCondition _ _) as [[w|]|]; try discriminate;
      injection H as <-; simpl; auto.
  - injection H as <-. simpl. rewrite Et. auto.
Qed.

Lemma executeMove_wellFormed st ms m st' :
  wellFormedGame st ->
  possibleMoves (st_board st) (st_turn st) (st_mustJumpFrom st) = Ok ms ->
  In m ms ->
  executeMove st m = Returned st' ->
  wellFormedGame st'.
Proof.
  intros W Hms Hm H.
  destruct (possibleMoves_owned _ _ _ W Hms Hm)
    as (G & Hon & piece & Hp & Hpl).
  destruct W as (Hb & Hd & Hsel & Hmjf & Hw & Hdraw).
  destruct (executeMove_moves _ _ _ Hb H) as (ms' & Hms' & Hwin).
  destruct (executeMove_Returned _ _ _ H) as (s & Hs & Eb & Et & Ej & Esel).
  destruct (simulateMove_inv _ _ _ _ Hs) as [Hnb _].
  destruct (generated_facts _ _ G)
    as (piece' & Hp' & Hto & Hont & _ & Hstill & _).
  rewrite Hp in Hp'. injection Hp' as <-.
  unfold wellFormedGame. rewrite Eb, Et, Ej, Esel.
  split; [unfold hasAllRows in *;
          exact (eq_trans (movePiece_length _ _ _ Hnb) Hb)|].
  split; [eapply movePiece_darkOnly; eauto|].
  split.
  { intros sp Hsp.
    destruct (simulateMove_next _ _ _ _ Hs) as [[Eq _]|(Eq & Etn & _)];
      [congruence|].
    rewrite Eq in Hsp. injection Hsp as <-. rewrite Etn.
    split; [exact Hont|]. exists (landed piece m). split; [|exact Hpl].
    rewrite (movePiece_pieceAt _ _ _ Hnb Hstill (onBoard_col _ Hont)).
    unfold afterMove. rewrite Position_eqb_refl, Hp. reflexivity. }
  split; [auto|].
  rewrite Eb, Et, Ej in Hms'.
  split.
  - intros Hnone. exists ms'. split; [exact Hms'|].
    destruct ms'; [congruence|discriminate].
  - destruct ms'; rewrite Hwin; [discriminate|exact Hdraw].
Qed.

(** ** The starting position, and a reset *)

(** The squares of the starting position. *)
Lemma pieceAt_initializeBoard r c :
  pieceAt initializeBoard (mkPos r c)
  = if isValidPos r c && isDark r c then
      if r <? 3 then Some (man black)
      else if r >? 4 then Some (man red) else None
    else None.
Proof.
  destruct (isValidPos r c) eqn:Hv.
  - apply isValidPos_spec in Hv as [Hr Hc].
    assert (r = 0 \/ r = 1 \/ r = 2 \/ r = 3 \/ r = 4 \/ r = 5 \/ r = 6
            \/ r = 7) as Er by lia.
    assert (c = 0 \/ c = 1 \/ c = 2 \/ c = 3 \/ c = 4 \/ c = 5 \/ c = 6
            \/ c = 7) as Ec by lia.
    clear Hr Hc.
    repeat (destruct Er as [->|Er]);
      repeat (destruct Ec as [->|Ec]); subst; reflexivity.
  - simpl. destruct (pieceAt initializeBoard (mkPos r c)) as [x|] eqn:Hp;
      [|reflexivity].
    exfalso. destruct (pieceAt_lookup _ _ _ Hp) as (Hr & Hc & rw & Hrw & Hx).
    simpl in *.
    assert (Z.to_nat r < 8)%nat as Hlt by exact (lookup_lt_Some _ _ _ Hrw).
    assert (length rw = 8%nat) as Hlr.
    { assert (Forall (fun rw => length rw = 8%nat) initializeBoard) as F
          by (repeat constructor).
      rewrite List.Forall_forall in F. apply F.
      apply list_elem_of_In. eapply list_elem_of_lookup_2. exact Hrw. }
    assert (Z.to_nat c < 8)%nat as Hlt'
        by exact (eq_ind _ (fun n => (Z.to_nat c < n)%nat)
                    (lookup_lt_Some _ _ _ Hx) _ Hlr).
    assert (isValidPos r c = true) by (apply isValidPos_spec; lia).
    congruence.
Qed.

Lemma initial_wellFormed :
  wellFormedGame (mkApp initializeBoard red None None None).
Proof.
  unfold wellFormedGame. simpl.
  split; [reflexivity|]. split; [exact darkOnly_initializeBoard|].
  split; [discriminate|]. split; [discriminate|]. split; [|discriminate].
  intros _. eexists. split; [vm_compute; reflexivity|discriminate].
Qed.

(** X18.  The starting position.  [initializeBoard] (its loops run
    statement by statement) yields eight rows of eight squares with
    twelve black men on the dark squares of rows 0..2, twelve red men on
    those of rows 5..7 and nothing else; the first state of the component
    is well-formed, with red to move; and [resetGame] brings the game
    back to exactly that state whatever the state before, keeping the
    game mode and the difficulty, and keeping [isAiThinking] too. *)
Theorem resetGame_start :
  initializeBoardLoop = Ok initializeBoard /\
  Forall (fun rw => length rw = 8%nat) initializeBoard /\
  (forall r c,
      pieceAt initializeBoard (mkPos r c)
      = if isValidPos r c && isDark r c then
          if r <? 3 then Some (man black)
          else if r >? 4 then Some (man red) else None
        else None) /\
  countOf black initializeBoard = 12%nat /\
  countOf red initializeBoard = 12%nat /\
  wellFormed initialComponent /\
  forall c,
    game (resetGame c) = game initialComponent /\
    c_gameMode (resetGame c) = c_gameMode c /\
    c_difficulty (resetGame c) = c_difficulty c /\
    c_isAiThinking (resetGame c) = c_isAiThinking c.
Proof.
  split; [vm_compute; reflexivity|].
  split; [repeat constructor|].
  split; [exact pieceAt_initializeBoard|].
  split; [reflexivity|]. split; [reflexivity|].
  split; [exact initial_wellFormed|]. intros c. auto.
Qed.

(** ** [handleSquareClick] *)

Lemma handleSquareClick_inv c vm r cl c' :
  handleSquareClick c vm r cl = Done c' ->
  c' = c \/
  (st_winner (game c) = None /\ c_isAiThinking c = false /\
   aiToMove c = false /\
   ((st_mustJumpFrom (game c) = None /\
     c' = withGame (setSelectedPos (Some (mkPos r cl)) (game c)) c /\
     (exists piece,
         pieceAt (st_board (game c)) (mkPos r cl) = Some piece /\
         player piece = st_turn (game c)) /\
     (exists gj,
         hasAnyJumps (st_board (game c)) (st_turn (game c)) = Ok gj /\
         (gj = true ->
          exists moves,
            getValidMoves (st_board (game c)) (mkPos r cl) false = Ok moves /\
            existsb isJump moves = true)))
    \/
    (exists m st',
        In m vm /\ to m = mkPos r cl /\
        pieceAt (st_board (game c)) (mkPos r cl) = None /\
        is_Some (st_selectedPos (game c)) /\
        executeMove (game c) m = Returned st' /\
        c' = withGame st' c))).
Proof.
  unfold handleSquareClick.
  destruct (st_winner (game c)) as [w|]; [intros [= <-]; auto|].
  destruct (c_isAiThinking c); [intros [= <-]; auto|]. simpl.
  destruct (aiToMove c); [intros [= <-]; auto|].
  destruct (cell _ _ _) as [clicked|] eqn:Ec; [|discriminate].
  apply cell_Ok in Ec as [_ Hp].
  destruct clicked as [piece|].
  - destruct (Player_eqb (player piece) (st_turn (game c))) eqn:Hpl.
    + assert (player piece = st_turn (game c)) as Hpl'
          by (destruct (player piece), (st_turn (game c)); auto; discriminate).
      destruct (st_mustJumpFrom (game c)); [intros [= <-]; auto|].
      destruct (hasAnyJumps _ _) as [gj|] eqn:Egj; [|discriminate].
      destruct gj.
      * destruct (getValidMoves _ _ _) as [moves|] eqn:Em; [|discriminate].
        destruct (existsb isJump moves) eqn:Ej; simpl;
          intros [= <-]; [|auto].
        right. repeat split; auto. left. repeat split; eauto.
      * intros [= <-]. right. repeat split; auto. left.
        repeat split; eauto. exists false. split; [auto|discriminate].
    + intros [= <-]; auto.
  - simpl. destruct (st_selectedPos (game c)) as [sp|] eqn:Esp;
      [|intros [= <-]; auto].
    destruct (List.find _ vm) as [m|] eqn:Ef; [|intros [= <-]; auto].
    apply find_some in Ef as [Hin Hto].
    apply andb_true_iff in Hto as [Hr Hc].
    apply Z.eqb_eq in Hr, Hc.
    destruct (executeMove (game c) m) as [st'|st'] eqn:Ex; [|discriminate].
    intros [= <-]. right. repeat split; auto. right.
    exists m, st'. repeat split; eauto.
    destruct (to m); simpl in *; congruence.
Qed.

Lemma validMoves_total c :
  wellFormed c -> exists vm, validMoves c = Ok vm.
Proof.
  intros (Hb & Hd & Hsel & _). unfold validMoves.
  destruct (st_selectedPos (game c)) as [sp|] eqn:Esp; [|eauto].
  destruct (c_isAiThinking c); [eauto|]. destruct (aiToMove c); [eauto|].
  destruct (match st_mustJumpFrom (game c) with Some _ => _ | None => _ end);
    [eauto|].
  destruct (Hsel sp eq_refl) as [Hon _].
  unfold onBoard in Hon. apply isValidPos_spec in Hon as [Hr _].
  destruct (getValidMoves_total _ sp false Hb Hr) as [moves ->]. cbn [bind].
  destruct (st_mustJumpFrom (game c)); [eauto|].
  destruct (hasAnyJumps_total _ (st_turn (game c)) Hb) as [gj ->].
  cbn [bind]. eauto.
Qed.

Lemma validMoves_possibleMoves c vm m :
  wellFormed c -> validMoves c = Ok vm -> In m vm ->
  exists ms,
    possibleMoves (st_board (game c)) (st_turn (game c))
      (st_mustJumpFrom (game c)) = Ok ms /\
    In m ms /\ st_selectedPos (game c) = Some (from m).
Proof.
  intros W Hvm Hm. pose proof W as (Hb & Hd & Hsel & Hmjf & _).
  destruct (validMoves_In _ _ Hvm) as [Hnil Hex].
  destruct (st_selectedPos (game c)) as [sp|] eqn:Esp;
    [|rewrite Hnil in Hm by auto; destruct Hm].
  destruct (c_isAiThinking c) eqn:Et;
    [rewrite Hnil in Hm by auto; destruct Hm|].
  destruct (aiToMove c) eqn:Ea;
    [rewrite Hnil in Hm by auto; destruct Hm|].
  destruct (Hsel sp eq_refl) as (Hon & piece & Hp & Hpl).
  destruct (possibleMoves_total (st_board (game c)) (st_turn (game c))
              (st_mustJumpFrom (game c)) Hb) as [ms Hms].
  { destruct (st_mustJumpFrom (game c)) as [q|] eqn:Eq; [|exact I].
    specialize (Hmjf q eq_refl). injection Hmjf as <-.
    unfold onBoard in Hon. apply isValidPos_spec in Hon. simpl. tauto. }
  exists ms. split; [exact Hms|].
  apply (Hex eq_refl eq_refl sp piece ms eq_refl Hon Hp Hpl Hms m) in Hm
    as [Hin ->].
  auto.
Qed.

Lemma handleSquareClick_wellFormed c r cl :
  wellFormed c ->
  onBoard (mkPos r cl) ->
  exists vm c',
    validMoves c = Ok vm /\
    handleSquareClick c vm r cl = Done c' /\
    wellFormed c' /\
    (c' = c \/
     (st_mustJumpFrom (game c) = None /\
      c' = withGame (setSelectedPos (Some (mkPos r cl)) (game c)) c)
     \/
     (exists m ms,
         possibleMoves (st_board (game c)) (st_turn (game c))
           (st_mustJumpFrom (game c)) = Ok ms /\
         In m ms /\
         st_selectedPos (game c) = Some (from m) /\
         to m = mkPos r cl /\
         exists st', executeMove (game c) m = Returned st' /\
                     c' = withGame st' c)).
Proof.
  intros W Hon. destruct (validMoves_total c W) as [vm Hvm].
  pose proof W as (Hb & Hd & Hsel & Hmjf & Hw & Hdraw).
  assert (0 <= r < 8) as Hr
      by (unfold onBoard in Hon; apply isValidPos_spec in Hon; tauto).
  assert (exists c', handleSquareClick c vm r cl = Done c') as [c' Hc].
  { unfold handleSquareClick.
    destruct (_ || _); [eauto|]. destruct (aiToMove c); [eauto|].
    destruct (cell_total _ r cl Hb Hr) as [clicked Ec]. rewrite Ec.
    destruct clicked as [piece|].
    - destruct (Player_eqb _ _); [|eauto].
      destruct (st_mustJumpFrom (game c)); [eauto|].
      destruct (hasAnyJumps_total _ (st_turn (game c)) Hb) as [gj ->].
      destruct gj; [|eauto].
      destruct (getValidMoves_total _ (mkPos r cl) false Hb Hr) as [ms ->].
      destruct (negb _); eauto.
    - destruct (st_selectedPos (game c)); [|eauto].
      destruct (List.find _ vm) as [m|] eqn:Ef; [|eauto].
      apply find_some in Ef as [Hin _].
      destruct (validMoves_possibleMoves _ _ _ W Hvm Hin)
        as (ms & Hms & Hm & _).
      destruct (possibleMoves_owned _ _ _ W Hms Hm) as [G _].
      destruct (executeMove_total _ _ Hb G) as [st' ->]. simpl. eauto. }
  exists vm, c'. split; [exact Hvm|]. split; [exact Hc|].
  destruct (handleSquareClick_inv _ _ _ _ _ Hc)
    as [->|(Hwn & Hth & Hai & [(Hj & -> & (piece & Hp & Hpl) & _)
                              |(m & st' & Hin & Hto & Hp & Hs & Hx & ->)])].
  - split; [exact W|]. auto.
  - split; [|auto].
    unfold wellFormed, wellFormedGame. simpl. rewrite Hj.
    split; [exact Hb|]. split; [exact Hd|]. split.
    { intros q [= <-]. split; [exact Hon|eauto]. }
    split; [discriminate|]. split; [|exact Hdraw].
    intros _. rewrite <- Hj. apply Hw. exact Hwn.
  - destruct (validMoves_possibleMoves _ _ _ W Hvm Hin)
      as (ms & Hms & Hm & Hsel').
    split; [exact (executeMove_wellFormed _ _ _ _ W Hms Hm Hx)|].
    right. right. exists m, ms. eauto 10.
Qed.

(** X19.  A click never plays an illegal move.  In a well-formed state
    of the component, a click on a square of the board does not throw
    and leaves a well-formed state; it either changes nothing, or
    selects the clicked square (only when no capture chain is running),
    or executes a move to the clicked square that starts on the selected
    square and belongs to the move list that [minimax] and [getAiMove]
    build for the side to move. *)
Theorem handleSquareClick_legal c r cl :
  wellFormed c ->
  onBoard (mkPos r cl) ->
  exists vm c',
    validMoves c = Ok vm /\
    handleSquareClick c vm r cl = Done c' /\
    wellFormed c' /\
    (c' = c \/
     (st_mustJumpFrom (game c) = None /\
      c' = withGame (setSelectedPos (Some (mkPos r cl)) (game c)) c)
     \/
     (exists m ms,
         possibleMoves (st_board (game c)) (st_turn (game c))
           (st_mustJumpFrom (game c)) = Ok ms /\
         In m ms /\
         st_selectedPos (game c) = Some (from m) /\
         to m = mkPos r cl /\
         exists st', executeMove (game c) m = Returned st' /\
                     c' = withGame st' c)).
Proof. apply handleSquareClick_wellFormed. Qed.

Lemma handleSquareClick_legal_witness :
  wellFormed initialComponent /\
  onBoard (mkPos 5 0) /\
  exists vm c',
    validMoves initialComponent = Ok vm /\
    handleSquareClick initialComponent vm 5 0 = Done c' /\
    wellFormed c' /\
    (c' = initialComponent \/
     (st_mustJumpFrom (game initialComponent) = None /\
      c' = withGame (setSelectedPos (Some (mkPos 5 0))
                       (game initialComponent)) initialComponent)
     \/
     (exists m ms,
         possibleMoves (st_board (game initialComponent))
           (st_turn (game initialComponent))
           (st_mustJumpFrom (game initialComponent)) = Ok ms /\
         In m ms /\
         st_selectedPos (game initialComponent) = Some (from m) /\
         to m = mkPos 5 0 /\
         exists st', executeMove (game initialComponent) m = Returned st' /\
                     c' = withGame st' initialComponent)).
Proof.
  split; [exact initial_wellFormed|]. split; [reflexivity|].
  apply (handleSquareClick_legal initialComponent 5 0);
    [exact initial_wellFormed | reflexivity].
Defined.

(** ** Every state that play reaches *)

Lemma getAiMove_result randomIndex shuffle fuel board p difficulty mjf r :
  (forall l, Permutation l (shuffle l)) ->
  (forall n, (0 < n)%nat -> (randomIndex n < n)%nat) ->
  getAiMove randomIndex shuffle fuel board p difficulty mjf = Some (Ok r) ->
  exists ms,
    possibleMoves board p mjf = Ok ms /\
    match r with
    | None => ms = []
    | Some m => In m ms
    end.
Proof.
  intros Hperm Hri. unfold getAiMove.
  destruct (possibleMoves board p mjf) as [ms|] eqn:Ems; [|discriminate].
  intros H. exists ms. split; [reflexivity|].
  destruct ms as [|m0 ms]; [injection H as <-; reflexivity|].
  assert (forall x, bestLoop fuel board p
                      match difficulty with medium => 2 | _ => 4 end
                      (shuffle (m0 :: ms)) m0 NegInf = Some (Ok x) ->
                    In x (m0 :: ms)) as Hbest.
  { intros x Hx. apply bestLoop_In in Hx as [->|Hx].
    - left. reflexivity.
    - eapply Permutation_in; [|exact Hx]. symmetry. apply Hperm. }
  destruct difficulty.
  - destruct (lookup_lt_is_Some_2 (m0 :: ms) (randomIndex (length (m0 :: ms))))
      as [m Hm]; [apply Hri; simpl; lia|].
    rewrite Hm in H. injection H as <-.
    apply list_elem_of_In. eapply list_elem_of_lookup_2. exact Hm.
  - destruct (bestLoop _ _ _ _ _ _ _) as [[x|]|] eqn:E; try discriminate.
    injection H as <-. apply Hbest. reflexivity.
  - destruct (bestLoop _ _ _ _ _ _ _) as [[x|]|] eqn:E; try discriminate.
    injection H as <-. apply Hbest. reflexivity.
Qed.

Lemma step_wellFormed c c' : wellFormed c -> step c c' -> wellFormed c'.
Proof.
  intros W S. destruct S as [c r cl vm c' Hon Hvm Hc | c | c | c g | c d
                            | c c' He
                            | c ri sh fuel c' Hperm Hri Hai Hwn Ht].
  - destruct (handleSquareClick_wellFormed c r cl W Hon)
      as (vm' & c'' & Hvm' & Hc' & W' & _).
    congruence.
  - apply initial_wellFormed.
  - exact W.
  - exact W.
  - exact W.
  - unfold aiEffect in He. destruct (_ && _); [|discriminate].
    injection He as <-. exact W.
  - unfold aiTimer in Ht.
    destruct (getAiMove _ _ _ _ _ _ _) as [[r|]|] eqn:Eg; try discriminate.
    destruct (getAiMove_result _ _ _ _ _ _ _ _ Hperm Hri Eg) as (ms & Hms & Hr).
    pose proof W as (Hb & Hd & Hsel & Hmjf & Hw & Hdraw).
    destruct (Hw Hwn) as (ms' & Hms' & Hne).
    unfold aiToMove in Hai. apply andb_true_iff in Hai as [_ Hturn].
    assert (st_turn (game c) = black) as Et
        by (destruct (st_turn (game c)); [discriminate|reflexivity]).
    rewrite Et in Hms'. rewrite Hms in Hms'. injection Hms' as <-.
    destruct r as [m|]; [|congruence].
    destruct (executeMove (game c) m) as [st'|st'] eqn:Ex; [|discriminate].
    injection Ht as <-. rewrite <- Et in Hms.
    exact (executeMove_wellFormed _ _ _ _ W Hms Hr Ex).
Qed.

Lemma reachable_invariant c : reachable c -> wellFormed c.
Proof.
  intros R. induction R as [|c c' R IH S].
  - exact initial_wellFormed.
  - exact (step_wellFormed _ _ IH S).
Qed.

Lemma afterOpening_reachable : reachable afterOpening.
Proof.
  eapply reach_step; [eapply reach_step; [exact reach_init|]|].
  - eapply (step_click _ 5 0); [reflexivity | reflexivity |].
    vm_compute. reflexivity.
  - eapply (step_click _ 4 1); [reflexivity | vm_compute; reflexivity |].
    vm_compute. reflexivity.
Qed.

Lemma afterOpening_wellFormed : wellFormed afterOpening.
Proof. exact (reachable_invariant _ afterOpening_reachable). Qed.

(** X20.  Every state that play reaches is well-formed.  From the first
    render, through any sequence of clicks on squares of the board,
    resets, menu buttons, runs of the effect that starts the AI and
    callbacks of its timer: the board has its eight rows, pieces stand on
    dark squares only, the selected square holds a piece of the side to
    move, a running capture chain has its piece selected, the side to
    move has a legal move whenever no winner is declared, and the winner
    is never ['draw']. *)
Theorem reachable_wellFormed c : reachable c -> wellFormed c.
Proof. apply reachable_invariant. Qed.

Lemma reachable_wellFormed_witness :
  reachable afterOpening /\ wellFormed afterOpening.
Proof.
  split; [exact afterOpening_reachable|].
  apply (reachable_wellFormed afterOpening). exact afterOpening_reachable.
Defined.

(** ** The timer of the AI *)

Lemma wellFormedGame_rowOnBoard st :
  wellFormedGame st -> rowOnBoard (st_mustJumpFrom st).
Proof.
  intros (_ & _ & Hsel & Hmjf & _).
  destruct (st_mustJumpFrom st) as [q|]; [|exact I].
  destruct (Hsel q (Hmjf q eq_refl)) as [Hon _].
  unfold onBoard in Hon. apply isValidPos_spec in Hon. simpl. tauto.
Qed.

Lemma aiTimer_executes randomIndex shuffle fuel c :
  (forall l, Permutation l (shuffle l)) ->
  (forall n, (0 < n)%nat -> (randomIndex n < n)%nat) ->
  wellFormed c ->
  st_turn (game c) = black ->
  st_winner (game c) = None ->
  (searchFuel (tierDepth (c_difficulty c)) (st_board (game c)) <= fuel)%nat ->
  exists m ms st',
    possibleMoves (st_board (game c)) black (st_mustJumpFrom (game c))
    = Ok ms /\
    In m ms /\
    executeMove (game c) m = Returned st' /\
    aiTimer randomIndex shuffle fuel c
    = Some (Done (setIsAiThinking false (withGame st' c))) /\
    wellFormedGame st'.
Proof.
  intros Hsh Hri W Ht Hwn Hf.
  pose proof W as (Hb & Hd & Hsel & Hmjf & Hw & Hdraw).
  destruct (getAiMove_total randomIndex shuffle fuel (st_board (game c)) black
              (c_difficulty c) (st_mustJumpFrom (game c)) Hsh Hri Hb
              (wellFormedGame_rowOnBoard _ W) Hf) as (ms & r & Hms & Hg & Hr).
  destruct (Hw Hwn) as (ms' & Hms' & Hne). rewrite Ht in Hms'.
  rewrite Hms in Hms'. injection Hms' as <-.
  destruct r as [m|]; [|congruence].
  rewrite <- Ht in Hms.
  destruct (possibleMoves_owned _ _ _ W Hms Hr) as [G _].
  destruct (executeMove_total _ _ Hb G) as [st' Hx].
  exists m, ms, st'. rewrite <- Ht at 1.
  split; [exact Hms|]. split; [exact Hr|]. split; [exact Hx|].
  split; [|exact (executeMove_wellFormed _ _ _ _ W Hms Hr Hx)].
  unfold aiTimer. rewrite Hg, Hx. reflexivity.
Qed.

(** X21.  The AI always finds a legal move to play.  In a well-formed
    state with black to move and no winner, the callback of the AI timer
    (with enough fuel for the search of the chosen difficulty) does not
    throw and does not take its "no move, red wins" branch: it executes
    a move of the move list of black, clears [isAiThinking] and leaves a
    well-formed state. *)
Theorem aiTimer_plays randomIndex shuffle fuel c :
  (forall l, Permutation l (shuffle l)) ->
  (forall n, (0 < n)%nat -> (randomIndex n < n)%nat) ->
  wellFormed c ->
  st_turn (game c) = black ->
  st_winner (game c) = None ->
  (searchFuel (tierDepth (c_difficulty c)) (st_board (game c)) <= fuel)%nat ->
  exists m ms st',
    possibleMoves (st_board (game c)) black (st_mustJumpFrom (game c))
    = Ok ms /\
    In m ms /\
    executeMove (game c) m = Returned st' /\
    aiTimer randomIndex shuffle fuel c
    = Some (Done (setIsAiThinking false (withGame st' c))) /\
    wellFormedGame st'.
Proof.
  intros Hsh Hri W Ht Hwn Hf.
  exact (aiTimer_executes randomIndex shuffle fuel c Hsh Hri W Ht Hwn Hf).
Qed.

Lemma aiTimer_plays_witness :
  (forall l : list Move, Permutation l ((fun l => l) l)) /\
  (forall n, (0 < n)%nat -> ((fun n => 0%nat) n < n)%nat) /\
  wellFormed afterOpening /\
  st_turn (game afterOpening) = black /\
  st_winner (game afterOpening) = None /\
  (searchFuel (tierDepth (c_difficulty afterOpening))
     (st_board (game afterOpening)) <= 75)%nat /\
  exists m ms st',
    possibleMoves (st_board (game afterOpening)) black
      (st_mustJumpFrom (game afterOpening)) = Ok ms /\
    In m ms /\
    executeMove (game afterOpening) m = Returned st' /\
    aiTimer (fun n => 0%nat) (fun l => l) 75 afterOpening
    = Some (Done (setIsAiThinking false (withGame st' afterOpening))) /\
    wellFormedGame st'.
Proof.
  split; [intros l; apply Permutation_refl|].
  split; [intros n Hn; exact Hn|].
  split; [exact afterOpening_wellFormed|].
  split; [reflexivity|]. split; [reflexivity|].
  split; [vm_compute; lia|].
  apply (aiTimer_plays (fun n => 0%nat) (fun l => l) 75 afterOpening);
    [intros l; apply Permutation_refl | intros n Hn; exact Hn
    | exact afterOpening_wellFormed | reflexivity | reflexivity
    | vm_compute; lia].
Defined.

(** ** What the player can do *)

(** X22.  A reset while the AI is thinking locks the board.  [resetGame]
    does not clear [isAiThinking].  If it runs while the flag is set,
    then after it and after anything the player does next (clicks on the
    board, further resets, the buttons of the menu) the game is still the
    starting position with red to move and the flag is still set: the
    effect that starts the AI sets no timer, the player is offered no
    move, every click on the board is ignored, and no step of the
    component leaves that situation. *)
Theorem reset_while_thinking_freezes c acts :
  c_isAiThinking c = true ->
  exists c',
    performAll acts (resetGame c) = Done c' /\
    game c' = game initialComponent /\
    c_isAiThinking c' = true /\
    aiEffect c' = None /\
    validMoves c' = Ok [] /\
    (forall r cl, perform (Click r cl) c' = Done c') /\
    (forall c'', step c' c'' ->
                 game c'' = game initialComponent /\
                 c_isAiThinking c'' = true).
Proof.
  intros Ht.
  assert (c_isAiThinking (resetGame c) = true /\
          game (resetGame c) = game initialComponent) as Hinv by auto.
  revert Hinv. generalize (resetGame c). clear.
  induction acts as [|a acts IH]; intros c [Ht Hg].
  - assert (aiToMove c = false) as Hai.
    { unfold aiToMove. rewrite Hg. simpl. apply andb_false_r. }
    exists c. split; [reflexivity|]. split; [exact Hg|]. split; [exact Ht|].
    split; [unfold aiEffect; rewrite Hai; reflexivity|].
    split; [unfold validMoves; rewrite Hg; reflexivity|].
    split.
    + intros r cl. unfold perform, validMoves, handleSquareClick.
      rewrite Hg, Ht. reflexivity.
    + intros c'' Hs. inversion Hs; subst; auto.
      * match goal with
        | H : handleSquareClick _ _ _ _ = Done _ |- _ =>
            unfold handleSquareClick in H; rewrite Hg, Ht in H;
            simpl in H; injection H as <-
        end. auto.
      * match goal with
        | H : aiEffect _ = Some _ |- _ =>
            unfold aiEffect in H; rewrite Hai in H; discriminate H
        end.
      * congruence.
  - cbn [performAll].
    assert (exists c', perform a c = Done c' /\ c_isAiThinking c' = true /\
                       game c' = game initialComponent) as (c' & -> & Hc').
    { destruct a; simpl; eauto.
      unfold validMoves, handleSquareClick. rewrite Hg, Ht. simpl.
      eauto. }
    apply IH. exact Hc'.
Qed.

Lemma reset_while_thinking_freezes_witness :
  c_isAiThinking (setIsAiThinking true afterOpening) = true /\
  exists c',
    performAll [Click 5 0; ChooseMode pvp; Click 5 0; Reset; Click 5 2]
      (resetGame (setIsAiThinking true afterOpening)) = Done c' /\
    game c' = game initialComponent /\
    c_isAiThinking c' = true /\
    aiEffect c' = None /\
    validMoves c' = Ok [] /\
    (forall r cl, perform (Click r cl) c' = Done c') /\
    (forall c'', step c' c'' ->
                 game c'' = game initialComponent /\
                 c_isAiThinking c'' = true).
Proof.
  split; [reflexivity|].
  apply (reset_while_thinking_freezes (setIsAiThinking true afterOpening)
           [Click 5 0; ChooseMode pvp; Click 5 0; Reset; Click 5 2]).
  reflexivity.
Defined.

(** ** Nothing throws during play *)

(** X23.  No state that play reaches makes the component throw.  In
    every state reached from the first render, the [useMemo] of
    [validMoves] returns; the read [board[mustJumpFrom.row][mustJumpFrom.col]]
    of the rendering, made while a capture chain runs, finds a piece of
    the side to move; a click on any of the 64 squares is handled without
    an exception; and the callback of the AI timer, when the condition of
    its effect holds (and with enough fuel for the search), returns
    without an exception. *)
Theorem reachable_never_throws c :
  reachable c ->
  (exists vm, validMoves c = Ok vm) /\
  (forall q, st_mustJumpFrom (game c) = Some q ->
             exists piece,
               cell (st_board (game c)) (row q) (col q) = Ok (Some piece) /\
               player piece = st_turn (game c)) /\
  (forall r cl, isValidPos r cl = true ->
                exists c', perform (Click r cl) c = Done c') /\
  (forall randomIndex shuffle fuel,
      (forall l, Permutation l (shuffle l)) ->
      (forall n, (0 < n)%nat -> (randomIndex n < n)%nat) ->
      aiToMove c = true ->
      st_winner (game c) = None ->
      (searchFuel (tierDepth (c_difficulty c)) (st_board (game c))
       <= fuel)%nat ->
      exists c', aiTimer randomIndex shuffle fuel c = Some (Done c')).
Proof.
  intros Hr. pose proof (reachable_invariant c Hr) as W.
  split; [exact (validMoves_total c W)|].
  split; [|split].
  - intros q Hq. destruct W as (Hb & _ & Hsel & Hmjf & _).
    destruct (Hsel q (Hmjf q Hq)) as (Hon & piece & Hp & Ht).
    exists piece. split; [|exact Ht].
    apply cell_Ok. split.
    + unfold onBoard in Hon. apply isValidPos_spec in Hon.
      apply arr_get_is_Some. unfold hasAllRows in Hb. rewrite Hb. lia.
    + destruct q. exact Hp.
  - intros r cl Hv.
    destruct (handleSquareClick_wellFormed c r cl W Hv)
      as (vm & c' & Hvm & Hc & _).
    exists c'. unfold perform. rewrite Hvm. exact Hc.
  - intros randomIndex shuffle fuel Hsh Hri Hai Hwn Hf.
    assert (st_turn (game c) = black) as Ht.
    { unfold aiToMove in Hai. apply andb_true_iff in Hai as [_ Hai].
      destruct (st_turn (game c)); [discriminate Hai | reflexivity]. }
    destruct (aiTimer_executes randomIndex shuffle fuel c Hsh Hri W Ht Hwn Hf)
      as (m & ms & st' & _ & _ & _ & Hx & _).
    eauto.
Qed.

Lemma reachable_never_throws_witness :
  reachable afterOpening /\
  (exists vm, validMoves afterOpening = Ok vm) /\
  (forall q, st_mustJumpFrom (game afterOpening) = Some q ->
             exists piece,
               cell (st_board (game afterOpening)) (row q) (col q)
               = Ok (Some piece) /\
               player piece = st_turn (game afterOpening)) /\
  (forall r cl, isValidPos r cl = true ->
                exists c', perform (Click r cl) afterOpening = Done c') /\
  (forall randomIndex shuffle fuel,
      (forall l, Permutation l (shuffle l)) ->
      (forall n, (0 < n)%nat -> (randomIndex n < n)%nat) ->
      aiToMove afterOpening = true ->
      st_winner (game afterOpening) = None ->
      (searchFuel (tierDepth (c_difficulty afterOpening))
         (st_board (game afterOpening)) <= fuel)%nat ->
      exists c',
        aiTimer randomIndex shuffle fuel afterOpening = Some (Done c')).
Proof.
  split; [exact afterOpening_reachable|].
  apply (reachable_never_throws afterOpening). exact afterOpening_reachable.
Defined.
